(** * Sudoku grids, backtracking solver and puzzle generator

    A shallow embedding of the Python sources

    - [utils.py]                               (encoding, [SudokuGrid]),
    - [solvers/sudoku_solver_backtracking.py]  ([SudokuSolver]),
    - [sudoku_generator.py], [sudoku_solver_v1.py] ([SudokuGenerator]),

    followed by the properties of the solver, of the generator and of the
    character encoding.

    Conventions.  A Python [int] held in a cell is a [Z]; indices and grid
    dimensions, which the code only ever takes from [range] and [len], are
    [nat].  A list of lists is a [list (list Z)], read with stdpp's lookup
    and written with stdpp's insert behind an explicit bounds check, since
    Python raises [IndexError] where stdpp's insert is silent.  Exceptions
    are the [Raised] outcome of a small error monad.  A Python [float] is
    a binary64 number, the [spec_float] of the Standard Library with 53
    digits.  The recursive search takes a fuel argument; the Python call
    stack is taken to be as deep as the search needs. *)

From Stdlib Require Import ZArith Lia List Ascii String Permutation.
From Stdlib Require SpecFloat.
From stdpp Require Import base option list numbers.

Open Scope Z_scope.

(** ** Outcomes of a call *)

Inductive exn : Set :=
  | IndexError
  | ZeroDivisionError
  | ValueError
  | TypeError
  | OverflowError.

Inductive outcome (A : Type) : Type :=
  | Done (a : A)
  | Raised (e : exn)
  | OutOfFuel.

Arguments Done {A} a.
Arguments Raised {A} e.
Arguments OutOfFuel {A}.

#[global] Instance outcome_ret : MRet outcome := fun A a => Done a.

#[global] Instance outcome_bind : MBind outcome := fun A B k m =>
  match m with
  | Done a => k a
  | Raised e => Raised e
  | OutOfFuel => OutOfFuel
  end.

#[global] Instance outcome_fmap : FMap outcome := fun A B f m =>
  match m with
  | Done a => Done (f a)
  | Raised e => Raised e
  | OutOfFuel => OutOfFuel
  end.

(** [for x in xs: if test(x): return True] followed by falling through. *)
Fixpoint for_any {A} (xs : list A) (test : A → outcome bool) : outcome bool :=
  match xs with
  | [] => Done false
  | x :: rest => b ← test x; if b : bool then Done true else for_any rest test
  end.

(** [for x in xs: if ...: return value] followed by [return None]. *)
Fixpoint for_first {A B} (xs : list A) (body : A → outcome (option B))
  : outcome (option B) :=
  match xs with
  | [] => Done None
  | x :: rest =>
      r ← body x;
      match r with
      | Some b => Done (Some b)
      | None => for_first rest body
      end
  end.

(** ** Grids *)

Abbreviation cells := (list (list Z)).

(** The attributes shared by [SudokuGrid] objects (utils.py,
    sudoku_solver_v1.py) and [SudokuSolver] objects: the list of rows and
    the two dimensions computed when the object is built. *)
Record Sudoku : Type := mkSudoku {
  grid : cells;
  size : nat;
  box_size : nat
}.

Definition with_grid (self : Sudoku) (g : cells) : Sudoku :=
  {| grid := g; size := size self; box_size := box_size self |}.

(** [g[row][col]] *)
Definition getitem (g : cells) (row col : nat) : outcome Z :=
  match g !! row with
  | None => Raised IndexError
  | Some r =>
      match r !! col with
      | None => Raised IndexError
      | Some v => Done v
      end
  end.

(** [g[row][col] = v] *)
Definition setitem (g : cells) (row col : nat) (v : Z) : outcome cells :=
  match g !! row with
  | None => Raised IndexError
  | Some r =>
      if decide (col < length r)%nat
      then Done (<[row := <[col := v]> r]> g)
      else Raised IndexError
  end.

(** [a // b] on non-negative operands *)
Definition floordiv (a b : nat) : outcome nat :=
  if decide (b = 0)%nat then Raised ZeroDivisionError else Done (a / b)%nat.

(** [range(1, n + 1)] *)
Definition candidates (n : nat) : list Z := Z.of_nat <$> seq 1 n.

(** [find_empty_cell]: the same two nested loops in utils.py,
    sudoku_solver_backtracking.py and sudoku_solver_v1.py. *)
Definition find_empty_cell (self : Sudoku) : outcome (option (nat * nat)) :=
  for_first (seq 0 (size self)) (fun row =>
    for_first (seq 0 (size self)) (fun col =>
      v ← getitem (grid self) row col;
      if decide (v = 0) then Done (Some (row, col)) else Done None)).

(** ** sudoku_solver_backtracking.py *)

Module Solver.

(** [SudokuSolver.__init__]; [int(n ** 0.5)] of a list length is the
    integer square root. *)
Definition init (g : cells) : Sudoku :=
  {| grid := g; size := length g; box_size := Nat.sqrt (length g) |}.

Definition is_valid (self : Sudoku) (row col : nat) (num : Z) : outcome bool :=
  in_row ← for_any (seq 0 (size self)) (fun c =>
              v ← getitem (grid self) row c; Done (bool_decide (v = num)));
  if in_row : bool then Done false else
  in_col ← for_any (seq 0 (size self)) (fun r =>
              v ← getitem (grid self) r col; Done (bool_decide (v = num)));
  if in_col : bool then Done false else
  qr ← floordiv row (box_size self);
  let start_row := (qr * box_size self)%nat in
  qc ← floordiv col (box_size self);
  let start_col := (qc * box_size self)%nat in
  in_box ← for_any (seq start_row (box_size self)) (fun r =>
              for_any (seq start_col (box_size self)) (fun c =>
                v ← getitem (grid self) r c; Done (bool_decide (v = num))));
  if in_box : bool then Done false else Done true.

(** The [for num in range(1, size + 1)] loop of [solve] at the empty
    cell [(row, col)]; [recurse] is the recursive call [self.solve()]. *)
Fixpoint try_numbers (recurse : Sudoku → outcome (bool * Sudoku))
    (row col : nat) (nums : list Z) (self : Sudoku) : outcome (bool * Sudoku) :=
  match nums with
  | [] => Done (false, self)
  | num :: rest =>
      ok ← is_valid self row col num;
      if ok : bool then
        g1 ← setitem (grid self) row col num;
        '(solved, self2) ← recurse (with_grid self g1);
        if solved : bool then Done (true, self2)
        else
          g3 ← setitem (grid self2) row col 0;
          try_numbers recurse row col rest (with_grid self2 g3)
      else try_numbers recurse row col rest self
  end.

(** [solve]; [fuel] bounds the depth of the recursion. *)
Fixpoint solve (fuel : nat) (self : Sudoku) : outcome (bool * Sudoku) :=
  match fuel with
  | O => OutOfFuel
  | S fuel' =>
      empty_cell ← find_empty_cell self;
      match empty_cell with
      | None => Done (true, self)
      | Some (row, col) =>
          try_numbers (solve fuel') row col (candidates (size self)) self
      end
  end.

End Solver.

(** ** utils.py *)

Module Utils.

(** A character is a one-character Python [str]; the model takes the
    code points below 256 ([ascii], read as Latin-1), and what is stated
    of a character, a line or a text is stated of these.  Above them
    [str.isdigit], [int] and [str.upper] follow tables of Unicode that
    are left out: [int] reads the decimal digits of every script, and the
    upper case of U+FB06 is the two letters [ST], which [ord] refuses with
    [TypeError]. *)
Definition ord (c : ascii) : Z := Z.of_N (N_of_ascii c).
Definition chr (v : Z) : ascii := ascii_of_N (Z.to_N v).

(** [c.isdigit()]: the decimal digits and the three superscript digits
    of Latin-1. *)
Definition isdigit (c : ascii) : bool :=
  bool_decide (48 ≤ ord c ≤ 57)
  || bool_decide (ord c = 178) || bool_decide (ord c = 179)
  || bool_decide (ord c = 185).

(** [int(c)] accepts decimal digits only. *)
Definition int_of_char (c : ascii) : outcome Z :=
  if bool_decide (48 ≤ ord c ≤ 57) then Done (ord c - 48) else Raised ValueError.

(** [c.upper()] maps [a-z] to [A-Z]; the upper-case form of any other
    Latin-1 character is not a capital ASCII letter, so it is left as it
    is: only membership in the alphabet is asked of it. *)
Definition upper (c : ascii) : ascii :=
  if bool_decide (97 ≤ ord c ≤ 122) then chr (ord c - 32) else c.

Definition in_alphabet (c : ascii) : bool := bool_decide (65 ≤ ord c ≤ 90).

Definition char_to_value (char : ascii) : outcome Z :=
  if Ascii.eqb char "." then Done 0
  else if isdigit char then int_of_char char
  else if in_alphabet (upper char) then Done (ord (upper char) - ord "A"%char + 10)
  else Raised ValueError.

Definition value_to_char (value : Z) : outcome ascii :=
  if bool_decide (value = 0) then Done "."%char
  else if bool_decide (1 ≤ value ≤ 9) then Done (chr (ord "0"%char + value))
  else if bool_decide (10 ≤ value ≤ 35) then Done (chr (ord "A"%char + value - 10))
  else Raised ValueError.

(** The text of [save_grid_to_file]: one line per row, one character
    per cell. *)
Definition encode_grid (g : cells) : outcome (list (list ascii)) :=
  mapM (mapM value_to_char) g.

(** Reading the lines back cell by cell with [char_to_value]. *)
Definition decode_grid (lines : list (list ascii)) : outcome cells :=
  mapM (mapM char_to_value) lines.

(** Python's [float] is the binary64 format of IEEE 754: the
    [spec_float] of the Standard Library with 53 digits and exponents
    below 1024.  [float_of_int] is the conversion an [int] undergoes as
    the operand of [**] with a [float]: rounded to nearest, ties to even,
    and refused with [OverflowError] beyond the largest double. *)
Definition float_of_int (n : Z) : outcome SpecFloat.spec_float :=
  match SpecFloat.binary_normalize 53 1024 n 0 false with
  | SpecFloat.S754_infinity _ => Raised OverflowError
  | x => Done x
  end.

(** [int(x)] of a [float]: the integer part, toward zero. *)
Definition int_of_float (x : SpecFloat.spec_float) : outcome Z :=
  match x with
  | SpecFloat.S754_zero _ => Done 0
  | SpecFloat.S754_infinity _ => Raised OverflowError
  | SpecFloat.S754_nan => Raised ValueError
  | SpecFloat.S754_finite s m e =>
      let magnitude :=
        if decide (0 ≤ e) then Z.pos m * 2 ^ e else Z.pos m / 2 ^ (- e) in
      Done (if s then - magnitude else magnitude)
  end.

(** [int(size ** 0.5)].  [size] is converted first; the power of a
    negative number is a [complex], which [int] refuses with [TypeError];
    the power of another is taken to be the correctly rounded square root
    of the double. *)
Definition int_root (size : Z) : outcome Z :=
  x ← float_of_int size;
  if decide (size < 0) then Raised TypeError
  else int_of_float (SpecFloat.SFsqrt 53 1024 x).

(** [SudokuGrid.__init__] *)
Definition __init__ (size : Z) : outcome Sudoku :=
  root ← int_root size;
  if decide (root ^ 2 ≠ size) then Raised ValueError else
  box_size0 ← int_root size;
  Done {| grid := replicate (Z.to_nat size) (replicate (Z.to_nat size) 0);
          size := Z.to_nat size;
          box_size := Z.to_nat box_size0 |}.

(** [SudokuGrid.__init__] with the integer square root in the place of
    the double-precision one.  The two constructors agree on the sizes
    from 0 and below [(2 ^ 53 + 1) ^ 2], the first perfect square that
    the double-precision test refuses (lemma [init_exact] below); this
    one is the constructor of the loaders, of the copies and of the
    generators, which build a grid of as many rows as its size. *)
Definition init (size : Z) : outcome Sudoku :=
  if decide (size < 0) then Raised TypeError
  else if decide (Z.sqrt size ^ 2 ≠ size) then Raised ValueError
  else Done {| grid := replicate (Z.to_nat size) (replicate (Z.to_nat size) 0);
               size := Z.to_nat size;
               box_size := Z.to_nat (Z.sqrt size) |}.

Definition is_valid (self : Sudoku) (row col : nat) (num : Z) : outcome bool :=
  match grid self !! row with
  | None => Raised IndexError
  | Some r =>
      if bool_decide (num ∈ r) then Done false else
      in_col ← for_any (seq 0 (size self)) (fun i =>
                  v ← getitem (grid self) i col; Done (bool_decide (v = num)));
      if in_col : bool then Done false else
      qr ← floordiv row (box_size self);
      let box_row := (qr * box_size self)%nat in
      qc ← floordiv col (box_size self);
      let box_col := (qc * box_size self)%nat in
      in_box ← for_any (seq box_row (box_size self)) (fun i =>
                  for_any (seq box_col (box_size self)) (fun j =>
                    v ← getitem (grid self) i j; Done (bool_decide (v = num))));
      if in_box : bool then Done false else Done true
  end.

End Utils.

(** ** The generator of sudoku_generator.py and sudoku_solver_v1.py

    The two files hold the same [SudokuGenerator] text.  They differ in the
    [SudokuGrid.is_valid] that [_fill_grid] calls and in the difficulty
    multipliers of [create_puzzle], which are the parameters below.
    [random.shuffle] draws from the global generator: its state is threaded
    through the calls as [rng], and [shuffle] stands for any behaviour of
    the generator. *)

Section SudokuGenerator.

Context {R : Type}.
Variable shuffle : ∀ A : Type, list A → R → list A * R.
Variable grid_is_valid : Sudoku → nat → nat → Z → outcome bool.
Variable multiplier : string → Z.

(** The [for num in numbers] loop of [_fill_grid]. *)
Fixpoint fill_numbers (recurse : Sudoku → R → outcome (bool * Sudoku * R))
    (row col : nat) (numbers : list Z) (grid0 : Sudoku) (rng : R)
  : outcome (bool * Sudoku * R) :=
  match numbers with
  | [] => Done (false, grid0, rng)
  | num :: rest =>
      ok ← grid_is_valid grid0 row col num;
      if ok : bool then
        g1 ← setitem (grid grid0) row col num;
        '(filled, grid2, rng2) ← recurse (with_grid grid0 g1) rng;
        if filled : bool then Done (true, grid2, rng2)
        else
          g3 ← setitem (grid grid2) row col 0;
          fill_numbers recurse row col rest (with_grid grid2 g3) rng2
      else fill_numbers recurse row col rest grid0 rng
  end.

(** [_fill_grid]; [self_size] is the generator's own [size] attribute. *)
Fixpoint fill_grid_fuel (fuel : nat) (self_size : Z) (grid0 : Sudoku) (rng : R)
  : outcome (bool * Sudoku * R) :=
  match fuel with
  | O => OutOfFuel
  | S fuel' =>
      empty_cell ← find_empty_cell grid0;
      match empty_cell with
      | None => Done (true, grid0, rng)
      | Some (row, col) =>
          let '(numbers, rng1) := shuffle Z (candidates (Z.to_nat self_size)) rng in
          fill_numbers (fill_grid_fuel fuel' self_size) row col numbers grid0 rng1
      end
  end.

(** The result of [_fill_grid] is not looked at. *)
Definition generate_complete_grid_fuel (fuel : nat) (self_size : Z) (rng : R)
  : outcome (Sudoku * R) :=
  grid0 ← Utils.init self_size;
  '(_, grid1, rng1) ← fill_grid_fuel fuel self_size grid0 rng;
  Done (grid1, rng1).

(** [for i in range(cells_to_remove)]: blank [positions[i]]. *)
Fixpoint blank_cells (indices : list nat) (positions : list (nat * nat))
    (g : cells) : outcome cells :=
  match indices with
  | [] => Done g
  | i :: rest =>
      match positions !! i with
      | None => Raised IndexError
      | Some (row, col) =>
          g' ← setitem g row col 0;
          blank_cells rest positions g'
      end
  end.

Definition cells_to_remove (self_size : Z) (difficulty : string) : Z :=
  Z.min (self_size * multiplier difficulty) (self_size * self_size - self_size).

(** [[(i, j) for i in range(size) for j in range(size)]] *)
Definition all_positions (n : nat) : list (nat * nat) :=
  i ← seq 0 n; j ← seq 0 n; [(i, j)].

Definition create_puzzle_fuel (fuel : nat) (self_size : Z) (difficulty : string)
    (rng : R) : outcome (Sudoku * R) :=
  '(complete_grid, rng1) ← generate_complete_grid_fuel fuel self_size rng;
  let n := cells_to_remove self_size difficulty in
  let '(positions, rng2) :=
    shuffle (nat * nat)%type (all_positions (Z.to_nat self_size)) rng1 in
  g ← blank_cells (seq 0 (Z.to_nat n)) positions (grid complete_grid);
  Done (with_grid complete_grid g, rng2).

End SudokuGenerator.

Module Generator.

(** sudoku_generator.py: [size * 7], [size * 8], otherwise [size * 9]. *)
Definition multiplier (difficulty : string) : Z :=
  if String.eqb difficulty "easy"%string then 7
  else if String.eqb difficulty "medium"%string then 8
  else 9.

Definition _fill_grid {R} shuffle :=
  @fill_grid_fuel R shuffle Utils.is_valid.
Definition generate_complete_grid {R} shuffle :=
  @generate_complete_grid_fuel R shuffle Utils.is_valid.
Definition create_puzzle {R} shuffle :=
  @create_puzzle_fuel R shuffle Utils.is_valid multiplier.

End Generator.

Module V1.

(** sudoku_solver_v1.py: [size * 4], [size * 5], otherwise [size * 6];
    its [SudokuGrid.is_valid] is the three loops of the solver's. *)
Definition multiplier (difficulty : string) : Z :=
  if String.eqb difficulty "easy"%string then 4
  else if String.eqb difficulty "medium"%string then 5
  else 6.

Definition is_valid := Solver.is_valid.

Definition _fill_grid {R} shuffle :=
  @fill_grid_fuel R shuffle is_valid.
Definition generate_complete_grid {R} shuffle :=
  @generate_complete_grid_fuel R shuffle is_valid.
Definition create_puzzle {R} shuffle :=
  @create_puzzle_fuel R shuffle is_valid multiplier.

End V1.

(** ** utils.py: copies, text files and paths

    What is read from and written to a file is the list of its lines, as
    [readlines] returns them and as [write] is given them, each with its
    end of line; a path is a string, and the files that exist are a
    predicate on paths. *)

(** [for x in xs: body], the state going from one turn to the next. *)
Fixpoint for_each {A S} (xs : list A) (body : A → S → outcome S) (s : S) : outcome S :=
  match xs with
  | [] => Done s
  | x :: rest => s' ← body x s; for_each rest body s'
  end.

(** [enumerate(xs)] *)
Definition enumerate {A} (xs : list A) : list (nat * A) := zip (seq 0 (length xs)) xs.

(** [a % b] on non-negative operands *)
Definition modulo (a b : nat) : outcome nat :=
  if decide (b = 0)%nat then Raised ZeroDivisionError else Done (a mod b)%nat.

(** The decimal digits of a natural number, at most [fuel] of them. *)
Fixpoint decimal (fuel n : nat) : list ascii :=
  match fuel with
  | O => []
  | S fuel' =>
      (if decide (n < 10)%nat then [] else decimal fuel' (n / 10))
      ++ [ascii_of_nat (48 + n mod 10)]
  end.

(** [str(v)] of an [int]: its decimal digits, after ['-'] when it is
    negative. *)
Definition str (v : Z) : list ascii :=
  if decide (v < 0) then "-"%char :: decimal (S (Z.to_nat (- v))) (Z.to_nat (- v))
  else decimal (S (Z.to_nat v)) (Z.to_nat v).

Module UtilsFiles.

(** [SudokuGrid.copy]: a new grid object of the same size, then a copy of
    every row. *)
Definition copy (self : Sudoku) : outcome Sudoku :=
  new_grid ← Utils.init (Z.of_nat (size self));
  Done (with_grid new_grid (grid self)).

(** [SudokuGrid.display]: the strings given to [print], in order, when
    the call returns. *)
Definition display (self : Sudoku) : outcome (list (list ascii)) :=
  let header :=
    "010"%char :: list_ascii_of_string "Grille Sudoku "
    ++ str (Z.of_nat (size self)) ++ "x"%char :: str (Z.of_nat (size self))
    ++ [":"%char] in
  let cell_width := if decide (9 < size self)%nat then 3%nat else 2%nat in
  let separator_width := (size self * cell_width + box_size self + 1)%nat in
  let separator := replicate separator_width "-"%char in
  printed ← for_each (seq 0 (size self)) (fun i printed =>
    printed ← (if decide (0 < i)%nat then
                 r ← modulo i (box_size self);
                 Done (if decide (r = 0)%nat then printed ++ [separator] else printed)
               else Done printed);
    row_str ← for_each (seq 0 (size self)) (fun j row_str =>
      row_str ← (if decide (0 < j)%nat then
                   r ← modulo j (box_size self);
                   Done (if decide (r = 0)%nat then row_str ++ ["|"%char]
                         else row_str)
                 else Done row_str);
      v ← getitem (grid self) i j;
      cell_char ← Utils.value_to_char v;
      Done (if decide (9 < size self)%nat
            then row_str ++ [" "%char; " "%char; cell_char]
            else row_str ++ [" "%char; cell_char])) ["|"%char];
    Done (printed ++ [row_str ++ ["|"%char]])) [header; separator];
  Done (printed ++ [separator]).

(** [c.isspace()] on the code points below 256. *)
Definition isspace (c : ascii) : bool :=
  bool_decide (9 ≤ Utils.ord c ≤ 13) || bool_decide (28 ≤ Utils.ord c ≤ 32)
  || bool_decide (Utils.ord c = 133) || bool_decide (Utils.ord c = 160).

Fixpoint lstrip (s : list ascii) : list ascii :=
  match s with
  | [] => []
  | c :: rest => if isspace c then lstrip rest else s
  end.

(** [s.strip()] *)
Definition strip (s : list ascii) : list ascii := rev (lstrip (rev (lstrip s))).

(** [s.replace(' ', '')] *)
Definition remove_spaces (s : list ascii) : list ascii :=
  List.filter (fun c => negb (Ascii.eqb c " ")) s.

(** The truth value of a string or of a list. *)
Definition nonempty {A} (s : list A) : bool :=
  match s with [] => false | _ => true end.

(** [load_grid_from_file], from the lines of a file that exists.  The
    [except ValueError] around the body of the inner loop raises
    [ValueError] again. *)
Definition load_grid_from_file (file_lines : list (list ascii)) : outcome Sudoku :=
  let lines := List.filter nonempty (strip <$> file_lines) in
  if negb (nonempty lines) then Raised ValueError else
  let size0 := length lines in
  if decide (Nat.sqrt size0 ^ 2 ≠ size0)%nat then Raised ValueError else
  grid0 ← Utils.init (Z.of_nat size0);
  g ← for_each (enumerate lines) (fun '(i, line) g =>
        let chars := remove_spaces line in
        if decide (length chars ≠ size0) then Raised ValueError else
        for_each (enumerate chars) (fun '(j, char) g =>
          num ← Utils.char_to_value char;
          if bool_decide (num < 0 ∨ num > Z.of_nat size0) then Raised ValueError
          else setitem g i j num) g) (grid grid0);
  Done (with_grid grid0 g).

(** [save_grid_to_file]: the lines written. *)
Definition save_grid_to_file (grid0 : Sudoku) : outcome (list (list ascii)) :=
  mapM (fun row => line ← mapM Utils.value_to_char row; Done (line ++ ["010"%char]))
       (grid grid0).

(** [s.rfind(c)], [None] for -1. *)
Fixpoint rfind (c : ascii) (s : list ascii) : option nat :=
  match s with
  | [] => None
  | x :: rest =>
      match rfind c rest with
      | Some i => Some (S i)
      | None => if Ascii.eqb x c then Some 0%nat else None
      end
  end.

(** [os.path.basename(p)] *)
Definition basename (p : list ascii) : list ascii :=
  match rfind "/" p with
  | None => p
  | Some i => drop (S i) p
  end.

(** [os.path.splitext(p)[0]]: the path up to its last dot, when that dot
    comes after the last separator and after a character of the file name
    that is not a dot. *)
Definition splitext_root (p : list ascii) : list ascii :=
  let filename_index :=
    match rfind "/" p with None => 0%nat | Some i => S i end in
  match rfind "." p with
  | None => p
  | Some dot_index =>
      if decide (filename_index ≤ dot_index)%nat then
        if forallb (Ascii.eqb ".") (drop filename_index (take dot_index p))
        then p else take dot_index p
      else p
  end.

Definition get_solution_filename (original_filename : list ascii) : list ascii :=
  list_ascii_of_string "data/resolved/"
  ++ splitext_root (basename original_filename)
  ++ list_ascii_of_string "_solution.txt".

(** [s.startswith(prefix)] *)
Fixpoint startswith (s prefix : list ascii) : bool :=
  match prefix, s with
  | [], _ => true
  | c :: prefix', x :: s' => Ascii.eqb x c && startswith s' prefix'
  | _ :: _, [] => false
  end.

(** [os.path.isabs] *)
Definition isabs (p : list ascii) : bool := startswith p ["/"%char].

Definition find_file_in_raw (path_exists : list ascii → bool) (filename : list ascii)
  : list ascii :=
  if path_exists filename then filename
  else if negb (isabs filename)
          && negb (startswith filename (list_ascii_of_string "data/")) then
    let test_filename := list_ascii_of_string "data/raw/" ++ filename in
    if path_exists test_filename then test_filename else filename
  else filename.

End UtilsFiles.

(** ** parse_grid.py *)

Module ParseGrid.

(** [parse_line_to_grid]; [int(math.sqrt(n))] is the integer square
    root. *)
Definition parse_line_to_grid (line0 : list ascii) : outcome (Sudoku * nat) :=
  let line := UtilsFiles.remove_spaces (UtilsFiles.strip line0) in
  if negb (UtilsFiles.nonempty line) then Raised ValueError else
  let total_cells := length line in
  let size0 := Nat.sqrt total_cells in
  if decide (size0 * size0 ≠ total_cells)%nat then Raised ValueError else
  let box_size0 := Nat.sqrt size0 in
  if decide (box_size0 * box_size0 ≠ size0)%nat then Raised ValueError else
  grid0 ← Utils.init (Z.of_nat size0);
  g ← for_each (seq 0 size0) (fun i g =>
        for_each (seq 0 size0) (fun j g =>
          let idx := (i * size0 + j)%nat in
          match line !! idx with
          | None => Raised IndexError
          | Some char =>
              value ← Utils.char_to_value char;
              if bool_decide (value < 0 ∨ value > Z.of_nat size0) then Raised ValueError
              else setitem g i j value
          end) g) (grid grid0);
  Done (with_grid grid0 g, size0).

End ParseGrid.

(** ** sudoku_solver_v1.py: text files *)

Module V1Files.

(** [load_grid_from_file] of sudoku_solver_v1.py, from the lines of a
    file that exists; its [SudokuGrid] is built as the one of utils.py.
    The [except ValueError] around [int(char)] and the test of the number
    raises [ValueError] again. *)
Definition load_grid_from_file (file_lines : list (list ascii)) : outcome Sudoku :=
  let lines := List.filter UtilsFiles.nonempty (UtilsFiles.strip <$> file_lines) in
  if negb (UtilsFiles.nonempty lines) then Raised ValueError else
  let size0 := length lines in
  if decide (Nat.sqrt size0 ^ 2 ≠ size0)%nat then Raised ValueError else
  grid0 ← Utils.init (Z.of_nat size0);
  g ← for_each (enumerate lines) (fun '(i, line) g =>
        let chars := UtilsFiles.remove_spaces line in
        if decide (length chars ≠ size0) then Raised ValueError else
        for_each (enumerate chars) (fun '(j, char) g =>
          if Ascii.eqb char "." then setitem g i j 0
          else
            num ← Utils.int_of_char char;
            if bool_decide (1 ≤ num ≤ Z.of_nat size0) then setitem g i j num
            else Raised ValueError) g) (grid grid0);
  Done (with_grid grid0 g).

(** [save_grid_to_file] of sudoku_solver_v1.py: the lines written. *)
Definition save_grid_to_file (grid0 : Sudoku) : list (list ascii) :=
  (fun row =>
     fold_left (fun line cell =>
                  if decide (cell = 0) then line ++ ["."%char]
                  else line ++ str cell) row []
     ++ ["010"%char]) <$> grid grid0.

End V1Files.

(** ** main.py *)

Module Main.

(** [solve_grid] with the backtracking solver: the solver works on the
    rows of a copy, and the copy is displayed, then returned. *)
Definition solve_grid (fuel : nat) (grid0 : Sudoku) : outcome (option Sudoku) :=
  solver_grid ← UtilsFiles.copy grid0;
  '(solved, solver) ← Solver.solve fuel (Solver.init (grid solver_grid));
  if solved : bool then
    let solver_grid := with_grid solver_grid (grid solver) in
    _ ← UtilsFiles.display solver_grid;
    Done (Some solver_grid)
  else Done None.

End Main.

(** ** Notions of the specification *)

(** The content of cell [(r, c)], if the grid has one there. *)
Definition cell (g : cells) (r c : nat) : option Z :=
  row ← g !! r; row !! c.

(** A square grid of [size] rows of [size] cells whose boxes tile it. *)
Definition well_formed (self : Sudoku) : Prop :=
  size self = (box_size self * box_size self)%nat
  ∧ length (grid self) = size self
  ∧ Forall (fun row => length row = size self) (grid self).

(** Cells hold 0 (empty) or a value of [1 .. size]. *)
Definition in_range (self : Sudoku) : Prop :=
  ∀ r c v, cell (grid self) r c = Some v → 0 ≤ v ≤ Z.of_nat (size self).

Definition same_box (b r1 c1 r2 c2 : nat) : Prop :=
  (r1 / b = r2 / b ∧ c1 / b = c2 / b)%nat.

Definition in_row (g : cells) (row : nat) (v : Z) : Prop :=
  ∃ c, cell g row c = Some v.

Definition in_col (g : cells) (col : nat) (v : Z) : Prop :=
  ∃ r, cell g r col = Some v.

Definition in_box (self : Sudoku) (row col : nat) (v : Z) : Prop :=
  ∃ r c, same_box (box_size self) r c row col ∧ cell (grid self) r c = Some v.

(** [v] appears neither in the row, nor in the column, nor in the box of
    [(row, col)]. *)
Definition placeable (self : Sudoku) (row col : nat) (v : Z) : Prop :=
  ¬ in_row (grid self) row v ∧ ¬ in_col (grid self) col v ∧ ¬ in_box self row col v.

(** The invariant of a partially filled grid: two cells of one row, column
    or box that hold the same non-zero value are the same cell. *)
Definition partial_invariant (self : Sudoku) : Prop :=
  ∀ r1 c1 r2 c2 v,
    cell (grid self) r1 c1 = Some v → cell (grid self) r2 c2 = Some v → v ≠ 0 →
    r1 = r2 ∨ c1 = c2 ∨ same_box (box_size self) r1 c1 r2 c2 →
    r1 = r2 ∧ c1 = c2.

Definition no_empty_cell (g : cells) : Prop := ∀ r c, cell g r c ≠ Some 0.

Definition row_cells (n r : nat) : list (nat * nat) := (fun c => (r, c)) <$> seq 0 n.
Definition col_cells (n c : nat) : list (nat * nat) := (fun r => (r, c)) <$> seq 0 n.
Definition box_cells (b br bc : nat) : list (nat * nat) :=
  i ← seq (br * b) b; j ← seq (bc * b) b; [(i, j)].

Definition values_at (g : cells) (ps : list (nat * nat)) : list Z :=
  omap (fun p => cell g p.1 p.2) ps.

(** Each value of [1 .. n] occurs exactly once in [l]. *)
Definition each_once (n : nat) (l : list Z) : Prop :=
  ∀ v, 1 ≤ v ≤ Z.of_nat n → count_occ Z.eq_dec l v = 1%nat.

(** The invariant of a solved grid. *)
Definition solved (self : Sudoku) : Prop :=
  (∀ r, (r < size self)%nat →
        each_once (size self) (values_at (grid self) (row_cells (size self) r)))
  ∧ (∀ c, (c < size self)%nat →
        each_once (size self) (values_at (grid self) (col_cells (size self) c)))
  ∧ (∀ br bc, (br < box_size self)%nat → (bc < box_size self)%nat →
        each_once (size self) (values_at (grid self) (box_cells (box_size self) br bc))).

(** Number of empty cells. *)
Definition empty_count (g : cells) : nat :=
  length (filter (fun v => v = 0) (mjoin g)).

(** [g'] keeps every non-zero cell of [g]. *)
Definition keeps_filled (g g' : cells) : Prop :=
  ∀ r c v, cell g r c = Some v → v ≠ 0 → cell g' r c = Some v.

(** A completion of [self]: a conflict-free assignment of a value of
    [1 .. size] to every cell which agrees with the filled cells. *)
Record completion (self : Sudoku) (sol : Sudoku) : Prop := {
  completion_dims : size sol = size self ∧ box_size sol = box_size self;
  completion_keeps : keeps_filled (grid self) (grid sol);
  completion_full : ∀ r c, (r < size self)%nat → (c < size self)%nat →
      ∃ v, cell (grid sol) r c = Some v ∧ 1 ≤ v ≤ Z.of_nat (size self);
  completion_ok : partial_invariant sol
}.

(** The outcomes of the search, whichever order the candidates come in:
    a failed search hands the grid back as it was; a successful one is a
    chain of placements of placeable values at the first empty cell, down
    to a grid without empty cell. *)
Inductive search (valid : Sudoku → nat → nat → Z → outcome bool) (n : nat)
  : Sudoku → bool → Sudoku → Prop :=
  | search_fail self : search valid n self false self
  | search_full self :
      find_empty_cell self = Done None → search valid n self true self
  | search_place self row col num g1 self' :
      find_empty_cell self = Done (Some (row, col)) →
      1 ≤ num ≤ Z.of_nat n →
      valid self row col num = Done true →
      setitem (grid self) row col num = Done g1 →
      search valid n (with_grid self g1) true self' →
      search valid n self true self'.

(** A filled grid for every box size [b]: row [r] is the base row shifted
    by [(r mod b) * b + r / b]. *)
Definition pattern (b r c : nat) : Z :=
  Z.of_nat (((r mod b) * b + r / b + c) mod (b * b)) + 1.

Definition pattern_grid (b : nat) : Sudoku :=
  {| grid := (fun r => (fun c => pattern b r c) <$> seq 0 (b * b)) <$> seq 0 (b * b);
     size := b * b;
     box_size := b |}.

(** The candidate order of the solver, as a generator that never shuffles. *)
Definition ascending (A : Type) (l : list A) (rng : unit) : list A * unit := (l, rng).

(** The grid of the 4x4 scenario and the grid the solver turns it into. *)
Definition grid4 : cells :=
  [[1;2;0;0]; [3;4;0;0]; [0;0;1;2]; [0;0;3;4]].

Definition grid4_solved : cells :=
  [[1;2;4;3]; [3;4;2;1]; [4;3;1;2]; [2;1;3;4]].

(** The grid the scenario of the specification expects. *)
Definition grid4_expected : cells :=
  [[1;2;3;4]; [3;4;1;2]; [2;1;4;3]; [4;3;2;1]].

(** What the search asks of a validity check. *)
Definition valid_check (valid : Sudoku → nat → nat → Z → outcome bool) : Prop :=
  (∀ self row col v, valid self row col v ≠ OutOfFuel)
  ∧ ∀ self row col v,
      well_formed self → (row < size self)%nat → (col < size self)%nat →
      ∃ b, valid self row col v = Done b ∧ (b = true ↔ placeable self row col v).

(** A 4x4 grid without conflict and without solution: the last cell of the
    last row can only take 4, which its column already holds; the solver
    finds out after filling the rows above in every possible way. *)
Definition unsolvable4 : cells :=
  [[0;0;0;4]; [0;0;0;0]; [0;0;0;0]; [1;2;3;0]].

(** A solved 4x4 grid whose last row was given the value 2 twice, and
    whose first cell was then emptied. *)
Definition conflict4 : cells :=
  [[0;2;3;4]; [3;4;1;2]; [2;1;4;3]; [4;3;2;2]].

(** The grid of the scenario, solved, with its first cell emptied: the
    other cells of the first row leave 1 as the only value for it. *)
Definition one_missing4 : cells :=
  [[0;2;4;3]; [3;4;2;1]; [4;3;1;2]; [2;1;3;4]].

(** A generator whose shuffle reverses the list. *)
Definition descending (A : Type) (l : list A) (rng : unit) : list A * unit :=
  (rev l, rng).

(** ** Notions for the text of a grid *)

(** The value a character stands for, 0 when it stands for none. *)
Definition decode (c : ascii) : Z :=
  match Utils.char_to_value c with Done v => v | _ => 0 end.

(** The lines [load_grid_from_file] keeps: stripped, and not empty. *)
Definition clean_lines (file_lines : list (list ascii)) : list (list ascii) :=
  List.filter UtilsFiles.nonempty (UtilsFiles.strip <$> file_lines).

(** A character that stands for a value of [0 .. n]. *)
Definition good_char (n : nat) (c : ascii) : Prop :=
  ∃ v, Utils.char_to_value c = Done v ∧ v ≤ Z.of_nat n.

(** A line that holds, spaces apart, [n] characters for values of
    [0 .. n]. *)
Definition good_line (n : nat) (line : list ascii) : Prop :=
  length (UtilsFiles.remove_spaces line) = n
  ∧ Forall (good_char n) (UtilsFiles.remove_spaces line).

(** A text that is the text of a grid: a perfect-square number of lines,
    at least one, each of them good. *)
Definition good_text (lines : list (list ascii)) : Prop :=
  lines ≠ []
  ∧ (Nat.sqrt (length lines) * Nat.sqrt (length lines))%nat = length lines
  ∧ Forall (good_line (length lines)) lines.

(** The grid a good text stands for. *)
Definition text_grid (lines : list (list ascii)) : Sudoku :=
  {| grid := (fun line => decode <$> UtilsFiles.remove_spaces line) <$> lines;
     size := length lines;
     box_size := Nat.sqrt (length lines) |}.

(** The character a value of [0 .. 35] is written as, ['.'] for the
    others. *)
Definition encode (v : Z) : ascii :=
  match Utils.value_to_char v with Done c => c | _ => "."%char end.

(** The lines [save_grid_to_file] writes for rows with cells in
    [0 .. 35]. *)
Definition grid_text (g : cells) : list (list ascii) :=
  (fun row => (encode <$> row) ++ ["010"%char]) <$> g.

(** The characters the loader of sudoku_solver_v1.py reads as a cell:
    ['.'] and the digits ['1'] to ['9']. *)
Definition v1_char (c : ascii) : bool :=
  Ascii.eqb c "." || bool_decide (49 ≤ Utils.ord c ≤ 57).

(** What sudoku_solver_v1.py writes for a cell. *)
Definition v1_cell_text (v : Z) : list ascii :=
  if decide (v = 0) then ["."%char] else str v.

(** The characters [parse_line_to_grid] keeps of a line: the line
    stripped, without its spaces. *)
Definition clean_line (line0 : list ascii) : list ascii :=
  UtilsFiles.remove_spaces (UtilsFiles.strip line0).

(** The [n] rows of [n] characters a line of [n * n] characters is cut
    in. *)
Definition line_rows (n : nat) (line : list ascii) : list (list ascii) :=
  (fun i => take n (drop (i * n) line)) <$> seq 0 n.

(** A line that is the text of a grid: [n * n] characters, at least one,
    for [n] a perfect square, each of them standing for a value of
    [0 .. n]. *)
Definition good_flat_line (line : list ascii) : Prop :=
  let n := Nat.sqrt (length line) in
  line ≠ []
  ∧ (n * n)%nat = length line
  ∧ (Nat.sqrt n * Nat.sqrt n)%nat = n
  ∧ Forall (good_char n) line.

(** The grid such a line stands for, row after row. *)
Definition line_grid (line : list ascii) : Sudoku :=
  let n := Nat.sqrt (length line) in
  {| grid := (fun row : list ascii => decode <$> row) <$> line_rows n line;
     size := n;
     box_size := Nat.sqrt n |}.

(** * Properties *)

(** ** The error monad and the loops *)

Lemma for_first_Some {A B} (xs : list A) (body : A → outcome (option B)) y :
  for_first xs body = Done (Some y) → ∃ x, x ∈ xs ∧ body x = Done (Some y).
Proof.
  induction xs as [|x xs IH]; simpl; [discriminate|].
  destruct (body x) as [[b|]| |] eqn:E; simpl; try discriminate.
  - intros [= ->]. exists x. split; [left|done].
  - intros H. destruct (IH H) as (x' & ? & ?). exists x'. split; [by right|done].
Qed.

Lemma for_first_None {A B} (xs : list A) (body : A → outcome (option B)) :
  for_first xs body = Done None ↔ ∀ x, x ∈ xs → body x = Done None.
Proof.
  induction xs as [|x xs IH]; simpl.
  - split; [intros _ x Hx; by apply elem_of_nil in Hx|done].
  - destruct (body x) as [[b|]| |] eqn:E; simpl.
    + split; [discriminate|]. intros H. specialize (H x (list_elem_of_here _ _)). congruence.
    + rewrite IH. split.
      * intros H y [->|Hy]%elem_of_cons; [done|by apply H].
      * intros H y Hy. apply H. by right.
    + split; [discriminate|]. intros H. specialize (H x (list_elem_of_here _ _)). congruence.
    + split; [discriminate|]. intros H. specialize (H x (list_elem_of_here _ _)). congruence.
Qed.

Lemma for_first_total {A B} (xs : list A) (body : A → outcome (option B)) :
  (∀ x, x ∈ xs → ∃ o, body x = Done o) → ∃ o, for_first xs body = Done o.
Proof.
  induction xs as [|x xs IH]; simpl; intros H; [by eexists|].
  destruct (H x) as [[b|] ->]; [left| |]; simpl; [by eexists|].
  apply IH. intros y Hy. apply H. by right.
Qed.

Lemma for_any_spec {A} (xs : list A) (test : A → outcome bool) (f : A → bool) :
  (∀ x, x ∈ xs → test x = Done (f x)) → for_any xs test = Done (existsb f xs).
Proof.
  induction xs as [|x xs IH]; simpl; intros H; [done|].
  rewrite (H x) by left. simpl. destruct (f x); [done|].
  apply IH. intros y Hy. apply H. by right.
Qed.

(** ** Reading and writing cells *)

Lemma getitem_cell g r c v : getitem g r c = Done v ↔ cell g r c = Some v.
Proof.
  unfold getitem, cell. destruct (g !! r) as [row|]; simpl; [|split; discriminate].
  destruct (row !! c); split; congruence.
Qed.

Lemma getitem_total g r c : is_Some (cell g r c) → ∃ v, getitem g r c = Done v.
Proof. intros [v Hv]. exists v. by apply getitem_cell. Qed.

Lemma getitem_not_fuel g r c : getitem g r c ≠ OutOfFuel.
Proof. unfold getitem. by repeat case_match. Qed.

Lemma cell_setitem g r c v g' r' c' :
  setitem g r c v = Done g' →
  cell g' r' c' = if decide (r' = r ∧ c' = c) then Some v else cell g r' c'.
Proof.
  unfold setitem, cell. destruct (g !! r) as [row|] eqn:Hr; [|discriminate].
  case_decide as Hc; [|discriminate]. intros [= <-].
  destruct (decide (r' = r)) as [->|Hne].
  - rewrite list_lookup_insert_eq by (by eapply lookup_lt_Some). simpl.
    case_decide as Hd.
    + destruct Hd as [_ ->]. by rewrite list_lookup_insert_eq.
    + rewrite list_lookup_insert_ne by naive_solver. by rewrite Hr.
  - rewrite list_lookup_insert_ne by done. rewrite decide_False; [done|]. by intros [? _].
Qed.

Lemma setitem_total g r c v : is_Some (cell g r c) → ∃ g', setitem g r c v = Done g'.
Proof.
  unfold setitem, cell. intros [w Hw]. destruct (g !! r) as [row|]; [|discriminate].
  simpl in Hw. apply lookup_lt_Some in Hw. case_decide; [by eexists|lia].
Qed.

Lemma setitem_not_fuel g r c v : setitem g r c v ≠ OutOfFuel.
Proof. unfold setitem. by repeat case_match. Qed.

(** Writing back the value a cell held gives back the grid. *)
Lemma setitem_undo g r c v w g1 :
  cell g r c = Some w → setitem g r c v = Done g1 → setitem g1 r c w = Done g.
Proof.
  unfold setitem, cell. destruct (g !! r) as [row|] eqn:Hr; [|discriminate].
  simpl. intros Hw. case_decide as Hc; [|discriminate]. intros [= <-].
  rewrite list_lookup_insert_eq by (by eapply lookup_lt_Some).
  rewrite length_insert. case_decide; [|lia].
  rewrite !list_insert_insert_eq. f_equal.
  apply list_insert_id. rewrite Hr. f_equal.
  symmetry. by apply list_insert_id.
Qed.

Lemma setitem_shape g r c v g' :
  setitem g r c v = Done g' → length <$> g' = length <$> g.
Proof.
  unfold setitem. destruct (g !! r) as [row|] eqn:Hr; [|discriminate].
  case_decide; [|discriminate]. intros [= <-].
  rewrite list_fmap_insert, length_insert. by apply list_insert_id; rewrite list_lookup_fmap, Hr.
Qed.

Lemma well_formed_shape self g :
  length <$> g = length <$> grid self → well_formed self → well_formed (with_grid self g).
Proof.
  intros Hs (Hb & Hl & Hr). repeat split; simpl; [done| |].
  - rewrite <- Hl. rewrite <- (length_fmap length g), Hs. by rewrite length_fmap.
  - rewrite Forall_lookup in Hr. apply Forall_lookup. intros i row Hi.
    assert ((length <$> grid self) !! i = Some (length row)) as Hi'
      by (by rewrite <- Hs, list_lookup_fmap, Hi).
    rewrite list_lookup_fmap in Hi'. destruct (grid self !! i) as [row'|] eqn:E;
      [|discriminate].
    injection Hi' as <-. by eapply Hr.
Qed.

Lemma well_formed_setitem self r c v g' :
  setitem (grid self) r c v = Done g' → well_formed self → well_formed (with_grid self g').
Proof. intros H. apply well_formed_shape. by eapply setitem_shape. Qed.

Lemma well_formed_cell self r c :
  well_formed self → is_Some (cell (grid self) r c) ↔ (r < size self ∧ c < size self)%nat.
Proof.
  intros (_ & Hl & Hr). unfold cell. split.
  - intros [v Hv]. destruct (grid self !! r) as [row|] eqn:E; [|discriminate].
    simpl in Hv. rewrite <- Hl at 1. split; [by eapply lookup_lt_Some|].
    rewrite Forall_lookup in Hr. rewrite <- (Hr _ _ E). by eapply lookup_lt_Some.
  - intros [H1 H2]. rewrite <- Hl in H1. apply lookup_lt_is_Some in H1 as [row E].
    rewrite E. simpl. apply lookup_lt_is_Some. rewrite Forall_lookup in Hr.
    by rewrite (Hr _ _ E).
Qed.

(** ** Counting the empty cells *)

Lemma filter_insert_zero (row : list Z) c v :
  row !! c = Some 0 → v ≠ 0 →
  S (length (filter (fun x => x = 0) (<[c := v]> row)))
  = length (filter (fun x => x = 0) row).
Proof.
  revert c. induction row as [|x row IH]; intros [|c] Hc Hv; simpl in *; try discriminate.
  - injection Hc as ->. rewrite filter_cons_False by done. by rewrite filter_cons_True.
  - specialize (IH c Hc Hv). destruct (decide (x = 0)).
    + rewrite !filter_cons_True by done. simpl. by rewrite IH.
    + by rewrite !filter_cons_False.
Qed.

Lemma empty_count_setitem g r c v g' :
  cell g r c = Some 0 → v ≠ 0 → setitem g r c v = Done g' →
  S (empty_count g') = empty_count g.
Proof.
  unfold setitem, cell, empty_count. destruct (g !! r) as [row|] eqn:Hr; [|discriminate].
  simpl. intros Hc Hv. case_decide; [|discriminate]. intros [= <-].
  revert r Hr. induction g as [|x g IH]; intros [|r] Hr; csimpl in *; try discriminate.
  - injection Hr as ->. rewrite !list.filter_app, !length_app.
    rewrite <- (filter_insert_zero row c v) by done. done.
  - rewrite !list.filter_app, !length_app. rewrite <- (IH r Hr). lia.
Qed.

(** ** [find_empty_cell] *)

Lemma find_empty_cell_Some self row col :
  find_empty_cell self = Done (Some (row, col)) →
  cell (grid self) row col = Some 0 ∧ (row < size self ∧ col < size self)%nat.
Proof.
  unfold find_empty_cell. intros H.
  apply for_first_Some in H as (r & Hr & H).
  apply for_first_Some in H as (c & Hc & H).
  apply elem_of_seq in Hr, Hc.
  destruct (getitem (grid self) r c) as [v| |] eqn:E; simpl in H; try discriminate.
  case_decide; [|discriminate]. injection H as -> ->. subst v.
  apply getitem_cell in E. split; [done|lia].
Qed.

Lemma find_empty_cell_total self :
  well_formed self → ∃ o, find_empty_cell self = Done o.
Proof.
  intros Hwf. unfold find_empty_cell.
  apply for_first_total. intros r Hr. apply for_first_total. intros c Hc.
  apply elem_of_seq in Hr, Hc.
  destruct (getitem_total (grid self) r c) as [v ->].
  - apply well_formed_cell; [done|lia].
  - simpl. case_decide; by eexists.
Qed.

Lemma find_empty_cell_None self :
  well_formed self → find_empty_cell self = Done None → no_empty_cell (grid self).
Proof.
  intros Hwf H r c Hz.
  assert (r < size self ∧ c < size self)%nat as [Hr Hc]
    by (apply well_formed_cell; [done|by eexists]).
  unfold find_empty_cell in H. rewrite for_first_None in H.
  specialize (H r ltac:(apply elem_of_seq; lia)). rewrite for_first_None in H.
  specialize (H c ltac:(apply elem_of_seq; lia)). apply getitem_cell in Hz.
  rewrite Hz in H. simpl in H. by destruct (decide (0 = 0)).
Qed.

Lemma find_empty_cell_not_fuel self : find_empty_cell self ≠ OutOfFuel.
Proof.
  unfold find_empty_cell.
  assert (∀ A B (xs : list A) (body : A → outcome (option B)),
            (∀ x, body x ≠ OutOfFuel) → for_first xs body ≠ OutOfFuel) as Hff.
  { intros A B xs body Hb. induction xs as [|x xs IH]; simpl; [done|].
    specialize (Hb x). destruct (body x) as [[?|]| |]; simpl; done. }
  apply Hff. intros r. apply Hff. intros c.
  pose proof (getitem_not_fuel (grid self) r c).
  destruct (getitem (grid self) r c); simpl; [case_decide| |]; done.
Qed.

(** ** The validity checks *)

Lemma existsb_elem_of {A} (f : A → bool) (xs : list A) :
  existsb f xs = true ↔ ∃ x, x ∈ xs ∧ f x = true.
Proof.
  rewrite existsb_exists. by setoid_rewrite list_elem_of_In.
Qed.

Lemma test_cell g r c num :
  is_Some (cell g r c) →
  (v ← getitem g r c; Done (bool_decide (v = num)))
  = Done (bool_decide (cell g r c = Some num)).
Proof.
  intros [v Hv]. rewrite Hv. apply getitem_cell in Hv. rewrite Hv. simpl.
  f_equal. apply bool_decide_ext. split; congruence.
Qed.

Lemma box_range (b q r : nat) :
  b ≠ 0%nat → (q * b ≤ r < q * b + b ↔ r / b = q)%nat.
Proof.
  intros Hb. split.
  - intros H. symmetry. apply (Nat.div_unique r b q (r - q * b)); lia.
  - intros <-. pose proof (Nat.div_mod r b Hb). pose proof (Nat.mod_upper_bound r b Hb).
    lia.
Qed.

Lemma box_start_bound (b i : nat) :
  (i < b * b → i / b * b + b ≤ b * b)%nat.
Proof.
  intros H. assert (i / b < b)%nat by (apply Nat.Div0.div_lt_upper_bound; lia). nia.
Qed.

Lemma column_check self col num :
  well_formed self → (col < size self)%nat →
  ∃ b, for_any (seq 0 (size self)) (fun r =>
         v ← getitem (grid self) r col; Done (bool_decide (v = num))) = Done b
       ∧ (b = true ↔ in_col (grid self) col num).
Proof.
  intros Hwf Hc. eexists. split.
  - apply for_any_spec. intros r Hr. apply elem_of_seq in Hr. apply test_cell.
    apply well_formed_cell; [done|lia].
  - rewrite existsb_elem_of. unfold in_col. split.
    + intros (r & _ & Hr). apply bool_decide_eq_true in Hr. by exists r.
    + intros (r & Hr). exists r. split; [|by apply bool_decide_eq_true].
      apply elem_of_seq. assert (is_Some (cell (grid self) r col)) as Hs by by eexists.
      apply well_formed_cell in Hs; [lia|done].
Qed.

Lemma box_check self row col num :
  well_formed self → (row < size self)%nat → (col < size self)%nat →
  ∃ b, for_any (seq (row / box_size self * box_size self) (box_size self)) (fun r =>
         for_any (seq (col / box_size self * box_size self) (box_size self)) (fun c =>
           v ← getitem (grid self) r c; Done (bool_decide (v = num)))) = Done b
       ∧ (b = true ↔ in_box self row col num).
Proof.
  intros Hwf Hr Hc. pose proof Hwf as (Hb & _ & _).
  assert (box_size self ≠ 0)%nat as Hb0 by (intros E; rewrite E in Hb; lia).
  rewrite Hb in Hr, Hc.
  pose proof (box_start_bound _ _ Hr). pose proof (box_start_bound _ _ Hc).
  eexists. split.
  - apply for_any_spec. intros r Hr'. apply elem_of_seq in Hr'.
    apply for_any_spec. intros c Hc'. apply elem_of_seq in Hc'.
    apply test_cell. apply well_formed_cell; [done|lia].
  - rewrite existsb_elem_of. unfold in_box, same_box. split.
    + intros (r & Hr' & Hex). apply existsb_elem_of in Hex as (c & Hc' & Hv).
      apply elem_of_seq in Hr', Hc'. apply bool_decide_eq_true in Hv.
      exists r, c. split; [|done]. split; apply box_range; done || lia.
    + intros (r & c & [Hr' Hc'] & Hv). apply box_range in Hr', Hc'; [|done..].
      exists r. split; [apply elem_of_seq; lia|]. apply existsb_elem_of.
      exists c. split; [apply elem_of_seq; lia|]. by apply bool_decide_eq_true.
Qed.

Lemma for_any_not_fuel {A} (xs : list A) (test : A → outcome bool) :
  (∀ x, test x ≠ OutOfFuel) → for_any xs test ≠ OutOfFuel.
Proof.
  intros Ht. induction xs as [|x xs IH]; simpl; [done|].
  specialize (Ht x). destruct (test x) as [[|]| |]; simpl; done.
Qed.

Lemma test_not_fuel g r c num :
  (v ← getitem g r c; Done (bool_decide (v = num))) ≠ OutOfFuel.
Proof.
  pose proof (getitem_not_fuel g r c). by destruct (getitem g r c).
Qed.

Lemma row_check self row num :
  well_formed self → (row < size self)%nat →
  ∃ b, for_any (seq 0 (size self)) (fun c =>
         v ← getitem (grid self) row c; Done (bool_decide (v = num))) = Done b
       ∧ (b = true ↔ in_row (grid self) row num).
Proof.
  intros Hwf Hc. eexists. split.
  - apply for_any_spec. intros c Hr. apply elem_of_seq in Hr. apply test_cell.
    apply well_formed_cell; [done|lia].
  - rewrite existsb_elem_of. unfold in_row. split.
    + intros (c & _ & Hr). apply bool_decide_eq_true in Hr. by exists c.
    + intros (c & Hr). exists c. split; [|by apply bool_decide_eq_true].
      apply elem_of_seq. assert (is_Some (cell (grid self) row c)) as Hs by by eexists.
      apply well_formed_cell in Hs; [lia|done].
Qed.

Lemma floordiv_box self i :
  well_formed self → (i < size self)%nat →
  floordiv i (box_size self) = Done (i / box_size self)%nat.
Proof.
  intros (Hb & _) Hi. unfold floordiv. case_decide as E; [|done].
  rewrite E in Hb. lia.
Qed.

Local Ltac check_done :=
  split; [reflexivity|]; intuition (try discriminate; auto).

Lemma Solver_is_valid_check : valid_check Solver.is_valid.
Proof.
  split.
  - intros self row col v. unfold Solver.is_valid.
    repeat (match goal with
            | |- context [for_any ?xs ?t] =>
                let H := fresh in
                assert (for_any xs t ≠ OutOfFuel) as H
                  by (repeat (apply for_any_not_fuel; intros ?); apply test_not_fuel);
                destruct (for_any xs t) as [[|]| |]; simpl; try done; clear H
            | |- context [floordiv ?a ?b] =>
                unfold floordiv; destruct (decide (b = 0%nat)); simpl; try done
            end).
  - intros self row col v Hwf Hr Hc. unfold Solver.is_valid, placeable.
    destruct (row_check self row v Hwf Hr) as (b1 & -> & H1).
    destruct (column_check self col v Hwf Hc) as (b2 & E2 & H2).
    destruct (box_check self row col v Hwf Hr Hc) as (b3 & E3 & H3).
    simpl. destruct b1; [exists false; check_done|].
    rewrite E2. simpl. destruct b2; [exists false; check_done|].
    rewrite !floordiv_box by done. simpl. rewrite E3. simpl.
    destruct b3; [exists false; check_done|]. exists true. check_done.
Qed.

Lemma Utils_is_valid_check : valid_check Utils.is_valid.
Proof.
  split.
  - intros self row col v. unfold Utils.is_valid.
    destruct (grid self !! row); [|done]. case_bool_decide; [done|].
    repeat (match goal with
            | |- context [for_any ?xs ?t] =>
                let H := fresh in
                assert (for_any xs t ≠ OutOfFuel) as H
                  by (repeat (apply for_any_not_fuel; intros ?); apply test_not_fuel);
                destruct (for_any xs t) as [[|]| |]; simpl; try done; clear H
            | |- context [floordiv ?a ?b] =>
                unfold floordiv; destruct (decide (b = 0%nat)); simpl; try done
            end).
  - intros self row col v Hwf Hr Hc. unfold Utils.is_valid, placeable.
    destruct (column_check self col v Hwf Hc) as (b2 & E2 & H2).
    destruct (box_check self row col v Hwf Hr Hc) as (b3 & E3 & H3).
    assert (is_Some (cell (grid self) row col)) as [w Hw]
      by (by apply well_formed_cell).
    unfold cell in Hw. destruct (grid self !! row) as [r|] eqn:Er; [|discriminate].
    assert (v ∈ r ↔ in_row (grid self) row v) as H1.
    { unfold in_row, cell. rewrite Er. simpl. apply list_elem_of_lookup. }
    case_bool_decide; [exists false; check_done|].
    rewrite E2. simpl. destruct b2; [exists false; check_done|].
    rewrite !floordiv_box by done. simpl. rewrite E3. simpl.
    destruct b3; [exists false; check_done|]. exists true. check_done.
Qed.

(** ** Outcomes of the search *)

Lemma with_grid_id self : with_grid self (grid self) = self.
Proof. by destruct self. Qed.

Lemma with_grid_twice self g g' : with_grid (with_grid self g) g' = with_grid self g'.
Proof. done. Qed.

Lemma elem_of_candidates n v : v ∈ candidates n ↔ 1 ≤ v ≤ Z.of_nat n.
Proof.
  unfold candidates. rewrite list_elem_of_fmap. split.
  - intros (k & -> & Hk). apply elem_of_seq in Hk. lia.
  - intros Hv. exists (Z.to_nat v). split; [lia|]. apply elem_of_seq. lia.
Qed.

Lemma search_false valid n self self' : search valid n self false self' → self' = self.
Proof. by inversion 1. Qed.

Lemma search_keeps valid n self b self' :
  search valid n self b self' →
  keeps_filled (grid self) (grid self')
  ∧ size self' = size self ∧ box_size self' = box_size self
  ∧ length <$> grid self' = length <$> grid self.
Proof.
  induction 1 as [self|self Hf|self row col num g1 self' Hf Hn Hv Hs _ IH];
    [by repeat split; intros ???..|].
  destruct IH as (Hk & -> & -> & ->). simpl. repeat split; [|by eapply setitem_shape].
  intros r c v Hc Hne. apply Hk; [|done]. simpl.
  rewrite (cell_setitem _ _ _ _ _ r c Hs). case_decide as Hd; [|done].
  destruct Hd as [-> ->]. apply find_empty_cell_Some in Hf as [Hf _]. congruence.
Qed.

Lemma search_true_full valid n self self' :
  search valid n self true self' → find_empty_cell self' = Done None.
Proof.
  intros H. remember true as b eqn:Hb.
  induction H; [discriminate|done|auto].
Qed.

Lemma search_well_formed valid n self b self' :
  search valid n self b self' → well_formed self → well_formed self'.
Proof.
  intros H Hwf. apply search_keeps in H as (_ & Hs & Hb & Hsh).
  destruct Hwf as (H1 & H2 & H3). unfold well_formed. rewrite Hs, Hb.
  assert (well_formed (with_grid self (grid self'))) as (_ & ? & ?); [|done].
  by apply well_formed_shape.
Qed.

Lemma same_box_sym b r1 c1 r2 c2 : same_box b r1 c1 r2 c2 → same_box b r2 c2 r1 c1.
Proof. unfold same_box. intuition. Qed.

(** Placing a placeable value keeps the invariant of a partial grid. *)
Lemma place_partial_invariant self row col num g1 :
  partial_invariant self → placeable self row col num →
  setitem (grid self) row col num = Done g1 →
  partial_invariant (with_grid self g1).
Proof.
  intros Hinv (Hrow & Hcol & Hbox) Hs r1 c1 r2 c2 v. simpl.
  rewrite (cell_setitem _ _ _ _ _ r1 c1 Hs), (cell_setitem _ _ _ _ _ r2 c2 Hs).
  destruct (decide (r1 = row ∧ c1 = col)) as [[-> ->]|N1],
           (decide (r2 = row ∧ c2 = col)) as [[-> ->]|N2]; try done.
  - intros [= <-] H2 _ [<-|[<-|Hb]]; exfalso.
    + apply Hrow. by exists c2.
    + apply Hcol. by exists r2.
    + apply Hbox. exists r2, c2. split; [by apply same_box_sym|done].
  - intros H1 [= <-] _ [->|[->|Hb]]; exfalso.
    + apply Hrow. by exists c1.
    + apply Hcol. by exists r1.
    + apply Hbox. by exists r1, c1.
  - apply Hinv.
Qed.

Lemma search_partial_invariant valid n self self' :
  valid_check valid → search valid n self true self' →
  well_formed self → partial_invariant self → partial_invariant self'.
Proof.
  intros [_ Hvalid] H. remember true as b eqn:Hb.
  induction H as [self|self Hf|self row col num g1 self' Hf Hn Hv Hs _ IH];
    [discriminate|done|]. intros Hwf Hinv.
  apply IH; [done|done|by eapply well_formed_setitem|].
  eapply place_partial_invariant; [done| |done].
  apply find_empty_cell_Some in Hf as [_ [Hr Hc]].
  destruct (Hvalid self row col num Hwf Hr Hc) as (b' & Hb' & Hp).
  apply Hp. congruence.
Qed.

Lemma search_in_range valid n self b self' :
  search valid n self b self' → (n ≤ size self)%nat → in_range self → in_range self'.
Proof.
  induction 1 as [self|self Hf|self row col num g1 self' Hf Hn Hv Hs _ IH]; [done..|].
  intros Hle Hin. apply IH; [done|]. intros r c v. simpl.
  rewrite (cell_setitem _ _ _ _ _ r c Hs). case_decide.
  - intros [= <-]. lia.
  - apply Hin.
Qed.

(** ** Completions *)

Lemma completion_placeable self sol row col v :
  completion self sol → cell (grid self) row col = Some 0 →
  (row < size self)%nat → (col < size self)%nat →
  cell (grid sol) row col = Some v → placeable self row col v.
Proof.
  intros [[_ Hb] Hk Hfull Hok] Hz Hr Hc Hv.
  destruct (Hfull row col Hr Hc) as (v' & Hv' & Hpos).
  assert (v' = v) as -> by congruence. assert (v ≠ 0) as Hne by lia.
  repeat split.
  - intros [c Hc']. pose proof (Hk _ _ _ Hc' Hne) as Hs.
    destruct (Hok row c row col v Hs Hv Hne) as [_ ->]; [by left|]. congruence.
  - intros [r Hr']. pose proof (Hk _ _ _ Hr' Hne) as Hs.
    destruct (Hok r col row col v Hs Hv Hne) as [-> _]; [by right; left|]. congruence.
  - intros (r & c & Hbox & Hc'). pose proof (Hk _ _ _ Hc' Hne) as Hs.
    destruct (Hok r c row col v Hs Hv Hne) as [-> ->]; [right; right; by rewrite Hb|].
    congruence.
Qed.

Lemma completion_place self sol row col v g1 :
  completion self sol → cell (grid sol) row col = Some v →
  setitem (grid self) row col v = Done g1 → completion (with_grid self g1) sol.
Proof.
  intros [Hd Hk Hfull Hok] Hv Hs. split; [done| |done..].
  intros r c w. simpl. rewrite (cell_setitem _ _ _ _ _ r c Hs). case_decide as Hrc.
  - destruct Hrc as [-> ->]. by intros [= <-].
  - apply Hk.
Qed.

(** ** The randomised fill *)

Section Fill.

Context {R : Type}.
Variable shuffle : ∀ A : Type, list A → R → list A * R.
Variable valid : Sudoku → nat → nat → Z → outcome bool.
Hypothesis shuffle_perm : ∀ A (l : list A) rng, (shuffle A l rng).1 ≡ₚ l.

Lemma fill_numbers_search n (recurse : Sudoku → R → outcome (bool * Sudoku * R))
    row col nums self rng b self' rng' :
  (∀ s r b s' r', recurse s r = Done (b, s', r') → search valid n s b s') →
  find_empty_cell self = Done (Some (row, col)) →
  Forall (fun v => 1 ≤ v ≤ Z.of_nat n) nums →
  fill_numbers valid recurse row col nums self rng = Done (b, self', rng') →
  search valid n self b self'.
Proof.
  intros Hrec Hf Hnums. revert rng.
  induction Hnums as [|num rest Hnum Hrest IH]; simpl; intros rng.
  { intros [= <- <- <-]. constructor. }
  destruct (valid self row col num) as [[|]| |] eqn:Hv; simpl; try discriminate; [|apply IH].
  destruct (setitem (grid self) row col num) as [g1| |] eqn:Hs; simpl; try discriminate.
  destruct (recurse (with_grid self g1) rng) as [[[filled grid2] rng2]| |] eqn:Hr;
    simpl; try discriminate.
  apply Hrec in Hr. destruct filled.
  - intros [= <- <- <-]. by eapply search_place.
  - apply search_false in Hr as ->. simpl.
    apply find_empty_cell_Some in Hf as Hz. destruct Hz as [Hz _].
    rewrite (setitem_undo _ _ _ _ _ _ Hz Hs). simpl.
    rewrite with_grid_twice, with_grid_id. apply IH.
Qed.

Lemma shuffled_candidates m rng :
  Forall (fun v => 1 ≤ v ≤ Z.of_nat m) (shuffle Z (candidates m) rng).1.
Proof.
  apply Forall_forall. intros v Hv. apply list_elem_of_In in Hv.
  rewrite shuffle_perm in Hv. by apply elem_of_candidates.
Qed.

(** Every outcome of [_fill_grid] is an outcome of the search. *)
Lemma fill_grid_search fuel self_size self rng b self' rng' :
  fill_grid_fuel shuffle valid fuel self_size self rng = Done (b, self', rng') →
  search valid (Z.to_nat self_size) self b self'.
Proof.
  revert self rng b self' rng'.
  induction fuel as [|fuel IH]; intros self rng b self' rng'; simpl; [discriminate|].
  destruct (find_empty_cell self) as [[[row col]|]| |] eqn:Hf; simpl; try discriminate.
  - pose proof (shuffled_candidates (Z.to_nat self_size) rng) as Hc.
    destruct (shuffle Z _ rng) as [numbers rng1]. simpl in Hc.
    by apply fill_numbers_search.
  - intros [= <- <- <-]. by constructor.
Qed.

Lemma fill_numbers_mono (rec1 rec2 : Sudoku → R → outcome (bool * Sudoku * R))
    row col nums self rng out :
  (∀ s r x, rec1 s r = Done x → rec2 s r = Done x) →
  fill_numbers valid rec1 row col nums self rng = Done out →
  fill_numbers valid rec2 row col nums self rng = Done out.
Proof.
  intros Hrec. revert self rng. induction nums as [|num rest IH]; simpl; [done|].
  intros self rng.
  destruct (valid self row col num) as [[|]| |]; simpl; try discriminate; [|apply IH].
  destruct (setitem (grid self) row col num) as [g1| |]; simpl; try discriminate.
  destruct (rec1 (with_grid self g1) rng) as [[[filled grid2] rng2]| |] eqn:Hr;
    simpl; try discriminate.
  rewrite (Hrec _ _ _ Hr). simpl. destruct filled; [done|].
  destruct (setitem (grid grid2) row col 0); simpl; try discriminate. apply IH.
Qed.

(** More fuel does not change a result. *)
Lemma fill_grid_mono fuel fuel' self_size self rng out :
  (fuel ≤ fuel')%nat →
  fill_grid_fuel shuffle valid fuel self_size self rng = Done out →
  fill_grid_fuel shuffle valid fuel' self_size self rng = Done out.
Proof.
  revert fuel' self rng out.
  induction fuel as [|fuel IH]; intros [|fuel'] self rng out Hle; simpl;
    try discriminate; [lia|].
  destruct (find_empty_cell self) as [[[row col]|]| |]; simpl; try done.
  destruct (shuffle Z _ rng) as [numbers rng1].
  apply fill_numbers_mono. intros s r x. apply IH. lia.
Qed.

Hypothesis valid_ok : valid_check valid.

Lemma fill_numbers_complete fuel self_size row col nums self rng :
  (∀ s r, well_formed s → size s = size self →
          (empty_count (grid s) < fuel)%nat →
          ∃ b s' r', fill_grid_fuel shuffle valid fuel self_size s r = Done (b, s', r')
                     ∧ ((∃ sol, completion s sol) → b = true)) →
  well_formed self →
  find_empty_cell self = Done (Some (row, col)) →
  (empty_count (grid self) ≤ fuel)%nat →
  Forall (fun v => 1 ≤ v ≤ Z.of_nat (Z.to_nat self_size)) nums →
  ∃ b self' rng',
    fill_numbers valid (fill_grid_fuel shuffle valid fuel self_size)
      row col nums self rng = Done (b, self', rng')
    ∧ (∀ sol v, completion self sol → cell (grid sol) row col = Some v →
                v ∈ nums → b = true).
Proof.
  intros Hrec Hwf Hf Hcount Hnums. revert rng.
  pose proof (find_empty_cell_Some _ _ _ Hf) as (Hz & Hr & Hc).
  induction Hnums as [|num rest Hnum Hrest IH]; simpl; intros rng.
  { eexists _, _, _. split; [done|]. intros sol v _ _ Hv. by apply elem_of_nil in Hv. }
  destruct valid_ok as [_ Hvalid].
  destruct (Hvalid self row col num Hwf Hr Hc) as (ok & -> & Hok). simpl.
  destruct ok.
  - destruct (setitem_total (grid self) row col num) as [g1 Hs]; [by eexists|].
    rewrite Hs. simpl.
    pose proof (empty_count_setitem _ _ _ num _ Hz ltac:(lia) Hs) as Hcnt.
    destruct (Hrec (with_grid self g1) rng) as (filled & grid2 & rng2 & Hfill & Hcompl);
      [by eapply well_formed_setitem|done|simpl; lia|].
    rewrite Hfill. simpl. destruct filled.
    + eexists _, _, _. split; done.
    + apply fill_grid_search in Hfill. apply search_false in Hfill as ->. simpl.
      rewrite (setitem_undo _ _ _ _ _ _ Hz Hs). simpl.
      rewrite with_grid_twice, with_grid_id.
      destruct (IH rng2) as (b & self' & rng' & -> & Hb).
      eexists _, _, _. split; [done|]. intros sol v Hsol Hv Hin.
      apply elem_of_cons in Hin as [->|Hin]; [|by eapply Hb].
      discriminate Hcompl. exists sol. by eapply completion_place.
  - destruct (IH rng) as (b & self' & rng' & -> & Hb).
    eexists _, _, _. split; [done|]. intros sol v Hsol Hv Hin.
    apply elem_of_cons in Hin as [->|Hin]; [|by eapply Hb].
    assert (placeable self row col num) as Hp by by eapply completion_placeable.
    apply Hok in Hp. discriminate.
Qed.

(** On a well-formed grid [_fill_grid] returns, and it returns [True]
    whenever the grid has a completion. *)
Lemma fill_grid_complete fuel self_size self rng :
  well_formed self → size self = Z.to_nat self_size →
  (empty_count (grid self) < fuel)%nat →
  ∃ b self' rng',
    fill_grid_fuel shuffle valid fuel self_size self rng = Done (b, self', rng')
    ∧ ((∃ sol, completion self sol) → b = true).
Proof.
  revert self rng. induction fuel as [|fuel IH]; intros self rng Hwf Hsize Hcount;
    [lia|]. simpl.
  destruct (find_empty_cell_total self Hwf) as [[[row col]|] Hf]; rewrite Hf; simpl.
  - pose proof (shuffled_candidates (Z.to_nat self_size) rng) as Hnums.
    pose proof (shuffle_perm Z (candidates (Z.to_nat self_size)) rng) as Hperm.
    destruct (shuffle Z _ rng) as [numbers rng1]. simpl in Hnums, Hperm.
    destruct (fill_numbers_complete fuel self_size row col numbers self rng1)
      as (b & self' & rng' & Hfill & Hb); [|done|done|lia|done|].
    { intros s r Hs Hsz Hc. apply IH; [done|congruence|done]. }
    eexists _, _, _. split; [done|]. intros [sol Hsol].
    pose proof (find_empty_cell_Some _ _ _ Hf) as (_ & Hr & Hc).
    destruct (completion_full _ _ Hsol row col Hr Hc) as (v & Hv & Hrange).
    eapply Hb; [done..|]. rewrite Hperm. apply elem_of_candidates. lia.
  - eexists _, _, _. split; done.
Qed.

End Fill.

(** ** The solver is the fill that never shuffles *)

Lemma ascending_perm A (l : list A) rng : (ascending A l rng).1 ≡ₚ l.
Proof. done. Qed.

Lemma try_numbers_fill n rec1 (rec2 : Sudoku → unit → outcome (bool * Sudoku * unit))
    row col nums self :
  (∀ s, size s = n → rec1 s = fst <$> rec2 s ()) →
  (∀ s r b s' r', rec2 s r = Done (b, s', r') → size s' = size s) →
  size self = n →
  Solver.try_numbers rec1 row col nums self
  = fst <$> fill_numbers Solver.is_valid rec2 row col nums self ().
Proof.
  intros Hrec Hsize. revert self. induction nums as [|num rest IH]; intros self Hn;
    simpl; [done|].
  destruct (Solver.is_valid self row col num) as [[|]| |]; simpl; try done; [|by apply IH].
  destruct (setitem (grid self) row col num) as [g1| |]; simpl; try done.
  rewrite Hrec by done.
  destruct (rec2 (with_grid self g1) ()) as [[[filled grid2] []]| |] eqn:Hr; simpl;
    try done.
  destruct filled; [done|].
  destruct (setitem (grid grid2) row col 0) as [g3| |]; simpl; try done.
  apply IH. simpl. by rewrite (Hsize _ _ _ _ _ Hr).
Qed.

Lemma solve_fuel_fill fuel self :
  Solver.solve fuel self
  = fst <$> fill_grid_fuel ascending Solver.is_valid fuel (Z.of_nat (size self)) self ().
Proof.
  revert self. induction fuel as [|fuel IH]; intros self; simpl; [done|].
  destruct (find_empty_cell self) as [[[row col]|]| |]; simpl; try done.
  rewrite Nat2Z.id. apply try_numbers_fill with (n := size self); [|.. |done].
  - intros s Hs. by rewrite IH, Hs.
  - intros s r b s' r' H. apply fill_grid_search in H; [|apply ascending_perm].
    by apply search_keeps in H as (_ & ? & _).
Qed.

Lemma solve_fuel_search fuel self b self' :
  Solver.solve fuel self = Done (b, self') →
  search Solver.is_valid (size self) self b self'.
Proof.
  rewrite solve_fuel_fill.
  destruct (fill_grid_fuel _ _ _ _ _ _) as [[[b' s'] []]| |] eqn:H; simpl; try discriminate.
  intros [= <- <-]. apply fill_grid_search in H; [|apply ascending_perm].
  by rewrite Nat2Z.id in H.
Qed.

Lemma solve_fuel_mono fuel fuel' self out :
  (fuel ≤ fuel')%nat →
  Solver.solve fuel self = Done out → Solver.solve fuel' self = Done out.
Proof.
  intros Hle. rewrite !solve_fuel_fill.
  destruct (fill_grid_fuel _ _ fuel _ _ _) as [x| |] eqn:H; simpl; try discriminate.
  by rewrite (fill_grid_mono _ _ _ _ _ _ _ _ Hle H).
Qed.

(** On a well-formed grid the solver returns. *)
Lemma solve_fuel_total fuel self :
  well_formed self → (empty_count (grid self) < fuel)%nat →
  ∃ b self', Solver.solve fuel self = Done (b, self').
Proof.
  intros Hwf Hc. rewrite solve_fuel_fill.
  destruct (fill_grid_complete ascending Solver.is_valid ascending_perm
              Solver_is_valid_check fuel (Z.of_nat (size self)) self ())
    as (b & self' & rng' & -> & _); [done|by rewrite Nat2Z.id|done|].
  by eexists _, _.
Qed.

(** ** From a full, conflict-free grid to the solved invariant *)

Lemma elem_of_pairs (xs ys : list nat) (p : nat * nat) :
  p ∈ (i ← xs; j ← ys; [(i, j)]) ↔ p.1 ∈ xs ∧ p.2 ∈ ys.
Proof.
  rewrite list_elem_of_bind. split.
  - intros (i & Hp & Hi). apply list_elem_of_bind in Hp as (j & Hp & Hj).
    apply list_elem_of_singleton in Hp as ->. done.
  - intros [Hi Hj]. exists p.1. split; [|done]. apply list_elem_of_bind.
    exists p.2. split; [|done]. destruct p. apply list_elem_of_singleton. done.
Qed.

Lemma NoDup_pairs (xs ys : list nat) :
  NoDup xs → NoDup ys → NoDup (i ← xs; j ← ys; [(i, j)]).
Proof.
  intros Hx Hy. apply NoDup_bind; [| |done].
  - intros i1 i2 p _ _ H1 H2.
    apply list_elem_of_bind in H1 as (j1 & H1 & _), H2 as (j2 & H2 & _).
    apply list_elem_of_singleton in H1, H2. congruence.
  - intros i _. apply NoDup_bind; [| |done].
    + intros j1 j2 p _ _ H1 H2. apply list_elem_of_singleton in H1, H2. congruence.
    + intros j _. apply NoDup_singleton.
Qed.

Lemma length_pairs (xs ys : list nat) :
  length (i ← xs; j ← ys; [(i, j)]) = (length xs * length ys)%nat.
Proof.
  induction xs as [|x xs IH]; [done|]. rewrite bind_cons, length_app, IH. simpl.
  f_equal. clear. induction ys as [|y ys IH]; [done|]. rewrite bind_cons. simpl.
  by rewrite IH.
Qed.

Lemma each_once_intro n (l : list Z) :
  NoDup l → length l = n → (∀ v, v ∈ l → 1 ≤ v ≤ Z.of_nat n) → each_once n l.
Proof.
  intros Hnd Hlen Hrange v Hv. apply NoDup_ListNoDup in Hnd.
  apply NoDup_count_occ'; [done|].
  apply (NoDup_length_incl Hnd (l' := candidates n)).
  - unfold candidates. rewrite length_fmap, length_seq. lia.
  - intros x Hx. apply list_elem_of_In, elem_of_candidates, Hrange.
    by apply list_elem_of_In.
  - by apply list_elem_of_In, elem_of_candidates.
Qed.

Lemma length_values_at g ps :
  (∀ p, p ∈ ps → is_Some (cell g p.1 p.2)) → length (values_at g ps) = length ps.
Proof.
  unfold values_at. induction ps as [|p ps IH]; intros H; [done|]. simpl.
  destruct (H p) as [v ->]; [left|]. simpl. f_equal. apply IH.
  intros q Hq. apply H. by right.
Qed.

Lemma NoDup_values_at g ps :
  (∀ p q v, p ∈ ps → q ∈ ps → cell g p.1 p.2 = Some v → cell g q.1 q.2 = Some v → p = q) →
  NoDup ps → NoDup (values_at g ps).
Proof.
  unfold values_at. intros Hinj. induction 1 as [|p ps Hp Hps IH]; simpl; [constructor|].
  assert (NoDup (omap (fun p => cell g p.1 p.2) ps)) as IH'.
  { apply IH. intros q1 q2 v H1 H2. apply Hinj; by right. }
  destruct (cell g p.1 p.2) as [v|] eqn:Hv; [|done].
  constructor; [|done]. intros Hin. apply list_elem_of_omap in Hin as (q & Hq & Hqv).
  rewrite (Hinj p q v) in Hp; [done|left|by right|done..].
Qed.

(** A unit: [size] distinct cells of the grid, any two of them in one row,
    one column or one box. *)
Lemma unit_each_once self ps :
  well_formed self → in_range self → partial_invariant self →
  no_empty_cell (grid self) →
  NoDup ps → length ps = size self →
  (∀ p, p ∈ ps → (p.1 < size self ∧ p.2 < size self)%nat) →
  (∀ p q, p ∈ ps → q ∈ ps →
          p.1 = q.1 ∨ p.2 = q.2 ∨ same_box (box_size self) p.1 p.2 q.1 q.2) →
  each_once (size self) (values_at (grid self) ps).
Proof.
  intros Hwf Hrange Hinv Hfull Hnd Hlen Hin Hpeer. apply each_once_intro.
  - apply NoDup_values_at; [|done]. intros [r1 c1] [r2 c2] v Hp Hq H1 H2. simpl in *.
    assert (v ≠ 0) as Hv by (intros ->; by eapply Hfull).
    destruct (Hinv r1 c1 r2 c2 v H1 H2 Hv) as [-> ->]; [|done].
    apply (Hpeer (r1, c1) (r2, c2)); done.
  - rewrite length_values_at; [done|]. intros p Hp. apply well_formed_cell; auto.
  - intros v Hv. apply list_elem_of_omap in Hv as (p & Hp & Hv).
    pose proof (Hrange _ _ _ Hv). assert (v ≠ 0) by (intros ->; by eapply Hfull). lia.
Qed.

Lemma full_grid_solved self :
  well_formed self → in_range self → partial_invariant self →
  no_empty_cell (grid self) → solved self.
Proof.
  intros Hwf Hrange Hinv Hfull. pose proof Hwf as (Hb & _).
  repeat split.
  - intros r Hr. apply unit_each_once; try done.
    + apply NoDup_fmap_2; [by intros ?? [=]|apply NoDup_seq].
    + unfold row_cells. by rewrite length_fmap, length_seq.
    + intros p Hp. apply list_elem_of_fmap in Hp as (c & -> & Hc).
      apply elem_of_seq in Hc. simpl. lia.
    + intros p q Hp Hq. apply list_elem_of_fmap in Hp as (? & -> & _), Hq as (? & -> & _).
      by left.
  - intros c Hc. apply unit_each_once; try done.
    + apply NoDup_fmap_2; [by intros ?? [=]|apply NoDup_seq].
    + unfold col_cells. by rewrite length_fmap, length_seq.
    + intros p Hp. apply list_elem_of_fmap in Hp as (r & -> & Hr).
      apply elem_of_seq in Hr. simpl. lia.
    + intros p q Hp Hq. apply list_elem_of_fmap in Hp as (? & -> & _), Hq as (? & -> & _).
      by right; left.
  - intros br bc Hbr Hbc.
    assert (box_size self ≠ 0)%nat as Hb0 by lia.
    apply unit_each_once; try done.
    + apply NoDup_pairs; apply NoDup_seq.
    + unfold box_cells. by rewrite length_pairs, !length_seq.
    + intros p Hp. apply elem_of_pairs in Hp as [H1 H2]. apply elem_of_seq in H1, H2.
      rewrite Hb. nia.
    + intros p q Hp Hq. apply elem_of_pairs in Hp as [Hp1 Hp2], Hq as [Hq1 Hq2].
      apply elem_of_seq in Hp1, Hp2, Hq1, Hq2. right; right. unfold same_box.
      rewrite (proj1 (box_range _ br p.1 Hb0)), (proj1 (box_range _ br q.1 Hb0)),
              (proj1 (box_range _ bc p.2 Hb0)), (proj1 (box_range _ bc q.2 Hb0)); [done|lia..].
Qed.

(** ** The solver *)

Lemma init_well_formed_cell g r c :
  well_formed (Solver.init g) → is_Some (cell g r c) ↔ (r < length g ∧ c < length g)%nat.
Proof. intros Hwf. by rewrite (well_formed_cell (Solver.init g)). Qed.

(** C1: on a grid whose filled cells are free of conflicts, [solve]
    returns, and when it returns [True] it leaves a grid without empty
    cell in which every row, every column and every box holds each value
    of [1 .. size] exactly once.  The grid is a grid of the data model:
    square, of a perfect-square size, with cells in [0 .. size]. *)
Theorem solve_true_solved (g : cells) (fuel : nat) :
  well_formed (Solver.init g) → in_range (Solver.init g) →
  partial_invariant (Solver.init g) →
  (empty_count g < fuel)%nat →
  ∃ b self',
    Solver.solve fuel (Solver.init g) = Done (b, self')
    ∧ (b = true → no_empty_cell (grid self') ∧ solved self').
Proof.
  intros Hwf Hrange Hinv Hfuel.
  destruct (solve_fuel_total fuel (Solver.init g) Hwf Hfuel) as (b & self' & Hsolve).
  exists b, self'. split; [done|]. intros ->. apply solve_fuel_search in Hsolve.
  pose proof (search_well_formed _ _ _ _ _ Hsolve Hwf) as Hwf'.
  assert (no_empty_cell (grid self')) as Hfull.
  { apply find_empty_cell_None; [done|]. by eapply search_true_full. }
  split; [done|]. apply full_grid_solved; [done| | |done].
  - by eapply search_in_range.
  - eapply search_partial_invariant; [apply Solver_is_valid_check|done..].
Qed.

(** C2: a call of [solve] that returns [False] leaves the grid as it was
    before the call. *)
Theorem solve_false_restores (g : cells) (fuel : nat) (self' : Sudoku) :
  Solver.solve fuel (Solver.init g) = Done (false, self') →
  grid self' = g.
Proof.
  intros Hsolve. apply solve_fuel_search, search_false in Hsolve. by subst.
Qed.

(** C10: whatever [solve] returns, every cell that was filled before the
    call holds the same value after it. *)
Theorem solve_keeps_filled (g : cells) (fuel : nat) (b : bool) (self' : Sudoku) :
  Solver.solve fuel (Solver.init g) = Done (b, self') →
  ∀ r c v, cell g r c = Some v → v ≠ 0 → cell (grid self') r c = Some v.
Proof.
  intros Hsolve. apply solve_fuel_search, search_keeps in Hsolve as (Hk & _). apply Hk.
Qed.

(** C3, as the code has it: the solver never looks at two filled cells
    together.  When a row holds the same non-zero value twice, both cells
    still hold it after the call, whatever the call returns, so that the
    grid left behind breaks the invariant, and a call that returns [False]
    leaves the grid unchanged.  The call does not always return [False]:
    there is such a grid on which it returns [True]. *)
Theorem solve_row_conflict :
  (∀ (g : cells) (r c1 c2 : nat) (v : Z) (fuel : nat) (b : bool) (self' : Sudoku),
     cell g r c1 = Some v → cell g r c2 = Some v → c1 ≠ c2 → v ≠ 0 →
     Solver.solve fuel (Solver.init g) = Done (b, self') →
     cell (grid self') r c1 = Some v ∧ cell (grid self') r c2 = Some v
     ∧ ¬ partial_invariant self'
     ∧ (b = false → grid self' = g))
  ∧ (∃ (g : cells) (r c1 c2 : nat) (v : Z) (fuel : nat) (self' : Sudoku),
       cell g r c1 = Some v ∧ cell g r c2 = Some v ∧ c1 ≠ c2 ∧ v ≠ 0
       ∧ Solver.solve fuel (Solver.init g) = Done (true, self')).
Proof.
  split.
  - intros g r c1 c2 v fuel b self' H1 H2 Hne Hv Hsolve.
    apply solve_fuel_search in Hsolve.
    pose proof (search_keeps _ _ _ _ _ Hsolve) as (Hk & _).
    pose proof (Hk _ _ _ H1 Hv) as H1'. pose proof (Hk _ _ _ H2 Hv) as H2'.
    repeat split; [done..| |].
    + intros Hinv. destruct (Hinv r c1 r c2 v H1' H2' Hv) as [_ ?]; [by left|done].
    + intros ->. apply search_false in Hsolve. by subst.
  - exists conflict4, 3%nat, 2%nat, 3%nat, 2, 2%nat,
      (Solver.init [[1;2;3;4]; [3;4;1;2]; [2;1;4;3]; [4;3;2;2]]).
    split; [done|]. split; [done|]. split; [lia|]. split; [lia|]. by vm_compute.
Qed.

(** C3, as the claim has it, fails: the row [4 3 2 2] holds 2 twice, and
    the solver fills the empty cell and returns [True]; no amount of fuel
    makes it return [False]. *)
Lemma solve_row_conflict_accepted :
  cell conflict4 3 2 = Some 2 ∧ cell conflict4 3 3 = Some 2
  ∧ Solver.solve 2 (Solver.init conflict4)
    = Done (true, Solver.init [[1;2;3;4]; [3;4;1;2]; [2;1;4;3]; [4;3;2;2]])
  ∧ ∀ fuel self', Solver.solve fuel (Solver.init conflict4) ≠ Done (false, self').
Proof.
  repeat split; [done..|]. intros fuel self' H.
  apply (solve_fuel_mono _ (fuel + 2)) in H; [|lia].
  assert (Solver.solve 2 (Solver.init conflict4)
          = Done (true, Solver.init [[1;2;3;4]; [3;4;1;2]; [2;1;4;3]; [4;3;2;2]])) as H2
    by done.
  apply (solve_fuel_mono _ (fuel + 2)) in H2; [|lia]. congruence.
Qed.

Lemma solve_grid4_run (fuel : nat) :
  Solver.solve (9 + fuel) (Solver.init grid4) = Done (true, Solver.init grid4_solved).
Proof. apply (solve_fuel_mono 9); [lia|]. by vm_compute. Qed.

(** C4, as the code has it: the first empty cell of the scenario grid is
    [(0, 2)], and the solver turns the grid into
    [1 2 4 3 / 3 4 2 1 / 4 3 1 2 / 2 1 3 4]. *)
Theorem solve_grid4 (fuel : nat) :
  find_empty_cell (Solver.init grid4) = Done (Some (0, 2)%nat)
  ∧ Solver.solve (9 + fuel) (Solver.init grid4)
    = Done (true, Solver.init grid4_solved).
Proof. split; [done|apply solve_grid4_run]. Qed.

(** C4, as the claim has it, fails: the expected grid puts 3 at [(0, 2)],
    in the column of the 3 given at [(3, 2)], and overwrites the given rows
    [. . 1 2] and [. . 3 4]; the solver never returns it. *)
Lemma solve_grid4_not_expected :
  Solver.solve 9 (Solver.init grid4) = Done (true, Solver.init grid4_solved)
  ∧ grid4_solved ≠ grid4_expected
  ∧ ¬ ∃ fuel b self',
        Solver.solve fuel (Solver.init grid4) = Done (b, self')
        ∧ grid self' = grid4_expected.
Proof.
  split; [apply (solve_grid4_run 0)|]. split; [done|].
  intros (fuel & b & self' & H & Hgrid).
  apply (solve_fuel_mono _ (9 + fuel)) in H; [|lia].
  rewrite solve_grid4_run in H. injection H as <- <-. done.
Qed.

(** ** A completion of the empty grid *)

Section Pattern.

Local Open Scope nat_scope.

Lemma mod_add_cancel n x a a' :
  a < n → a' < n → (x + a) mod n = (x + a') mod n → a = a'.
Proof.
  intros Ha Ha' H. assert (n ≠ 0) as Hn by lia.
  pose proof (Nat.div_mod (x + a) n Hn) as E1.
  pose proof (Nat.div_mod (x + a') n Hn) as E2.
  rewrite H in E1. set (q := (x + a) / n) in *. set (q' := (x + a') / n) in *.
  set (m := (x + a') mod n) in *.
  assert (q = q') by nia. nia.
Qed.

Lemma digits b r :
  r < b * b → r = b * (r / b) + r mod b ∧ r mod b < b ∧ r / b < b.
Proof.
  intros Hr. assert (b ≠ 0) as Hb by lia. repeat split.
  - by apply Nat.div_mod.
  - by apply Nat.mod_upper_bound.
  - by apply Nat.Div0.div_lt_upper_bound.
Qed.

Lemma two_digits_inj b m1 d1 m2 d2 :
  d1 < b → d2 < b → m1 * b + d1 = m2 * b + d2 → m1 = m2 ∧ d1 = d2.
Proof. intros H1 H2 H. assert (m1 = m2) by nia. split; [done|nia]. Qed.

Lemma pattern_inj b r1 c1 r2 c2 :
  r1 < b * b → c1 < b * b → r2 < b * b → c2 < b * b →
  r1 = r2 ∨ c1 = c2 ∨ same_box b r1 c1 r2 c2 →
  pattern b r1 c1 = pattern b r2 c2 → r1 = r2 ∧ c1 = c2.
Proof.
  intros Hr1 Hc1 Hr2 Hc2 Hpeer Heq. unfold pattern in Heq.
  assert (((r1 mod b) * b + r1 / b + c1) mod (b * b)
          = ((r2 mod b) * b + r2 / b + c2) mod (b * b)) as H by lia.
  clear Heq.
  destruct (digits b r1 Hr1) as (E1 & M1 & D1), (digits b r2 Hr2) as (E2 & M2 & D2).
  destruct (digits b c1 Hc1) as (F1 & N1 & G1), (digits b c2 Hc2) as (F2 & N2 & G2).
  destruct Hpeer as [->|[->|[Hr Hc]]].
  - split; [done|]. by apply mod_add_cancel in H.
  - split; [|done].
    replace (r1 mod b * b + r1 / b + c2) with (c2 + (r1 mod b * b + r1 / b)) in H by lia.
    replace (r2 mod b * b + r2 / b + c2) with (c2 + (r2 mod b * b + r2 / b)) in H by lia.
    apply mod_add_cancel in H; [|nia..].
    apply two_digits_inj in H as [Hm Hd]; [|done..]. congruence.
  - rewrite Hc in F1. rewrite Hr in H.
    assert ((r2 / b + b * (c2 / b) + (r1 mod b * b + c1 mod b)) mod (b * b)
            = (r2 / b + b * (c2 / b) + (r2 mod b * b + c2 mod b)) mod (b * b)) as H'.
    { replace (r2 / b + b * (c2 / b) + (r1 mod b * b + c1 mod b))
        with (r1 mod b * b + r2 / b + c1) by lia.
      replace (r2 / b + b * (c2 / b) + (r2 mod b * b + c2 mod b))
        with (r2 mod b * b + r2 / b + c2) by lia.
      done. }
    apply mod_add_cancel in H'; [|nia..].
    apply two_digits_inj in H' as [Hm Hd]; [|done..]. split; congruence.
Qed.

Lemma pattern_range b r c : r < b * b → (1 ≤ pattern b r c ≤ Z.of_nat (b * b))%Z.
Proof.
  intros Hr. unfold pattern.
  pose proof (Nat.mod_upper_bound ((r mod b) * b + r / b + c) (b * b)). lia.
Qed.

Lemma pattern_cell b r c :
  cell (grid (pattern_grid b)) r c
  = if decide (r < b * b ∧ c < b * b) then Some (pattern b r c) else None.
Proof.
  unfold cell. simpl. rewrite list_lookup_fmap.
  destruct (decide (r < b * b)) as [Hr|Hr].
  - rewrite lookup_seq_lt by done. simpl. rewrite list_lookup_fmap.
    destruct (decide (c < b * b)) as [Hc|Hc].
    + rewrite lookup_seq_lt by done. simpl. by rewrite decide_True.
    + rewrite lookup_seq_ge by lia. simpl. rewrite decide_False; [done|lia].
  - rewrite lookup_seq_ge by lia. simpl. rewrite decide_False; [done|lia].
Qed.

Lemma pattern_partial_invariant b : partial_invariant (pattern_grid b).
Proof.
  intros r1 c1 r2 c2 v. rewrite !pattern_cell.
  repeat case_decide; try discriminate. intros [= <-] [= Heq] _ Hpeer.
  apply (pattern_inj b); [lia..|done|done].
Qed.

End Pattern.

Lemma cell_replicate n m r c :
  cell (replicate n (replicate m 0)) r c
  = if decide (r < n ∧ c < m)%nat then Some 0 else None.
Proof.
  unfold cell. destruct (decide (r < n)%nat) as [Hr|Hr].
  - rewrite lookup_replicate_2 by done. simpl.
    destruct (decide (c < m)%nat) as [Hc|Hc].
    + rewrite lookup_replicate_2 by done. by rewrite decide_True.
    + rewrite decide_False by lia. apply lookup_replicate_None. lia.
  - rewrite decide_False by lia.
    replace (replicate n (replicate m 0) !! r) with (@None (list Z)); [done|].
    symmetry. apply lookup_replicate_None. lia.
Qed.

(** The empty grid of [Utils.init] has a completion. *)
Lemma empty_grid_completion (b : nat) :
  completion {| grid := replicate (b * b) (replicate (b * b) 0);
                size := b * b; box_size := b |} (pattern_grid b).
Proof.
  split; cbn [grid size box_size].
  - done.
  - intros r c v. cbn [grid]. rewrite cell_replicate. case_decide; [|done]. by intros [= <-].
  - intros r c Hr Hc. exists (pattern b r c). rewrite pattern_cell.
    rewrite decide_True by done. split; [done|]. by apply pattern_range.
  - apply pattern_partial_invariant.
Qed.

(** ** Construction of a grid *)

Lemma init_square (b : nat) :
  Utils.init (Z.of_nat (b * b))
  = Done {| grid := replicate (b * b) (replicate (b * b) 0);
            size := b * b; box_size := b |}.
Proof.
  unfold Utils.init. rewrite decide_False by lia.
  assert (Z.sqrt (Z.of_nat (b * b)) = Z.of_nat b) as ->.
  { rewrite Nat2Z.inj_mul. apply Z.sqrt_square. lia. }
  rewrite decide_False by lia. by rewrite !Nat2Z.id.
Qed.

Lemma perfect_square_nat (size : Z) :
  (∃ b, b * b = size) → ∃ n : nat, size = Z.of_nat (n * n).
Proof.
  intros [b <-]. exists (Z.to_nat (Z.abs b)). lia.
Qed.

Lemma empty_grid_well_formed (b : nat) :
  well_formed {| grid := replicate (b * b) (replicate (b * b) 0);
                 size := b * b; box_size := b |}.
Proof.
  repeat split; simpl; [by rewrite length_replicate|].
  apply Forall_replicate. by rewrite length_replicate.
Qed.

Lemma init_cases (size0 : Z) :
  0 ≤ size0 →
  ((∃ b, b * b = size0) →
     Utils.init size0
     = Done {| grid := replicate (Z.to_nat size0) (replicate (Z.to_nat size0) 0);
               size := Z.to_nat size0;
               box_size := Z.to_nat (Z.sqrt size0) |}
     ∧ Z.sqrt size0 * Z.sqrt size0 = size0)
  ∧ ((¬ ∃ b, b * b = size0) → Utils.init size0 = Raised ValueError).
Proof.
  intros Hpos. split.
  - intros [b <-]. assert (Z.sqrt (b * b) = Z.abs b) as Hs.
    { rewrite <- Z.abs_square. apply Z.sqrt_square. lia. }
    unfold Utils.init. rewrite decide_False by lia. rewrite Hs.
    rewrite decide_False by lia. split; [done|lia].
  - intros Hno. unfold Utils.init. rewrite decide_False by lia.
    rewrite decide_True; [done|]. intros E. apply Hno. exists (Z.sqrt size0). lia.
Qed.

(** ** The root in double precision *)

Module Float.
Import SpecFloat.

Lemma digits2_size p : digits2_pos p = Pos.size p.
Proof. induction p; simpl; congruence. Qed.

Lemma Zdigits2_log2 p : Zdigits2 (Z.pos p) = Z.log2 (Z.pos p) + 1.
Proof. simpl. rewrite digits2_size. destruct p; simpl; lia. Qed.

Lemma iter_xO (a d : positive) : Z.pos (Pos.iter xO a d) = Z.pos a * 2 ^ Z.pos d.
Proof.
  apply (Pos.iter_ind _ xO a (fun p a' => Z.pos a' = Z.pos a * 2 ^ Z.pos p)).
  - lia.
  - intros p a' IH. rewrite Pos2Z.inj_succ, Z.pow_succ_r by lia. lia.
Qed.

Lemma log2_52 m : 2 ^ 52 ≤ m < 2 ^ 53 → Z.log2 m = 52.
Proof. intros H. apply Z.log2_unique; [lia|]. exact H. Qed.

(** Rounding a mantissa of 53 digits, at an exponent of the format,
    changes nothing. *)
Lemma round_exact (s : bool) (m : positive) (e : Z) :
  2 ^ 52 ≤ Z.pos m < 2 ^ 53 → -1074 ≤ e ≤ 971 →
  binary_round_aux 53 1024 s (Z.pos m) e loc_Exact = S754_finite s m e.
Proof.
  intros Hm He. unfold binary_round_aux, shr_fexp.
  rewrite Zdigits2_log2, (log2_52 _ Hm).
  replace (fexp 53 1024 (52 + 1 + e) - e) with 0 by (unfold fexp, emin; lia).
  cbn [shr shr_record_of_loc shr_m loc_of_shr_record round_nearest_even].
  rewrite Zdigits2_log2, (log2_52 _ Hm).
  replace (fexp 53 1024 (52 + 1 + e) - e) with 0 by (unfold fexp, emin; lia).
  cbn [shr shr_record_of_loc shr_m].
  destruct (Z.leb_spec e (1024 - 53)); [done|lia].
Qed.

(** An integer of less than 54 digits is a double. *)
Lemma round_small (s : bool) (p : positive) :
  Z.pos p < 2 ^ 53 →
  ∃ m, binary_round 53 1024 s p 0 = S754_finite s m (Z.log2 (Z.pos p) - 52)
       ∧ Z.pos m = Z.pos p * 2 ^ (52 - Z.log2 (Z.pos p))
       ∧ 2 ^ 52 ≤ Z.pos m < 2 ^ 53.
Proof.
  intros Hx.
  pose proof (Z.log2_spec (Z.pos p) ltac:(lia)) as Hlog.
  pose proof (Z.log2_nonneg (Z.pos p)) as Hnn.
  assert (Z.log2 (Z.pos p) ≤ 52) as Hle.
  { apply Z.lt_succ_r, (Z.pow_lt_mono_r_iff 2); lia. }
  set (L := Z.log2 (Z.pos p)) in *.
  assert (2 ^ 52 = 2 ^ L * 2 ^ (52 - L)) as Hpow.
  { rewrite <- Z.pow_add_r by lia. f_equal. lia. }
  assert (0 < 2 ^ (52 - L)) as Hpos by (apply Z.pow_pos_nonneg; lia).
  assert (2 ^ 52 ≤ Z.pos p * 2 ^ (52 - L) < 2 ^ 53) as Hm.
  { replace (2 ^ 53) with (2 ^ (Z.succ L) * 2 ^ (52 - L)).
    2:{ rewrite <- Z.pow_add_r by lia. f_equal. lia. }
    rewrite Hpow. nia. }
  unfold binary_round, shl_align.
  change (Z.pos (digits2_pos p)) with (Zdigits2 (Z.pos p)). rewrite Zdigits2_log2.
  fold L.
  replace (fexp 53 1024 (L + 1 + 0)) with (L - 52) by (unfold fexp, emin; lia).
  destruct (L - 52 - 0) as [|d|d] eqn:Hd; [|lia|].
  - assert (L = 52) as HL by lia. rewrite HL in *. exists p.
    split; [apply round_exact; lia|].
    rewrite Z.sub_diag, Z.pow_0_r, Z.mul_1_r in *. lia.
  - exists (Pos.iter xO p d).
    assert (Z.pos (Pos.iter xO p d) = Z.pos p * 2 ^ (52 - L)) as Hiter.
    { rewrite iter_xO. f_equal. f_equal. lia. }
    split; [apply round_exact; lia|]. split; [done|lia].
Qed.

(** [iter_pos] is iteration. *)
Lemma iter_pos_nat {A} (f : A → A) (p : positive) (x : A) :
  iter_pos f p x = Nat.iter (Pos.to_nat p) f x.
Proof.
  revert x. induction p as [p IH|p IH|]; intros x; cbn [iter_pos].
  - rewrite !IH, Pos2Nat.inj_xI.
    replace (S (2 * Pos.to_nat p)) with (Pos.to_nat p + S (Pos.to_nat p))%nat by lia.
    by rewrite Nat.iter_add, Nat.iter_succ_r.
  - rewrite !IH, Pos2Nat.inj_xO.
    replace (2 * Pos.to_nat p)%nat with (Pos.to_nat p + Pos.to_nat p)%nat by lia.
    by rewrite Nat.iter_add.
  - done.
Qed.

(** [k] shifts to the right leave the quotient by [2 ^ k], and remember
    where the remainder stands with respect to the half of [2 ^ k]. *)
Lemma shr_1_iter (m0 : Z) (k : nat) :
  0 ≤ m0 →
  ∃ m rest,
    Nat.iter k shr_1 {| shr_m := m0; shr_r := false; shr_s := false |}
    = {| shr_m := m;
         shr_r := 2 ^ Z.of_nat k <=? 2 * rest;
         shr_s := negb (rest =? 0) && negb (2 * rest =? 2 ^ Z.of_nat k) |}
    ∧ 0 ≤ m ∧ m0 = m * 2 ^ Z.of_nat k + rest ∧ 0 ≤ rest < 2 ^ Z.of_nat k.
Proof.
  intros Hm0. induction k as [|k IH].
  - exists m0, 0. split; [done|]. simpl. lia.
  - destruct IH as (m & rest & IH & Hm & Hv & Hrest).
    rewrite Nat2Z.inj_succ, Z.pow_succ_r by lia.
    set (P := 2 ^ Z.of_nat k) in *. rewrite Nat.iter_succ, IH.
    assert (∀ (bit : bool) (m' : Z),
              m = 2 * m' + (if bit then 1 else 0) → 0 ≤ m' →
              ∃ m1 rest1,
                {| shr_m := m'; shr_r := bit;
                   shr_s := (P <=? 2 * rest)
                            || negb (rest =? 0) && negb (2 * rest =? P) |}
                = {| shr_m := m1; shr_r := 2 * P <=? 2 * rest1;
                     shr_s := negb (rest1 =? 0) && negb (2 * rest1 =? 2 * P) |}
                ∧ 0 ≤ m1 ∧ m0 = m1 * (2 * P) + rest1 ∧ 0 ≤ rest1 < 2 * P) as Hstep.
    { intros bit m' Hbit Hm'. exists m', ((if bit then P else 0) + rest).
      split; [|destruct bit; lia]. f_equal.
      - destruct bit; destruct (Z.leb_spec (2 * P) (2 * (P + rest)));
          destruct (Z.leb_spec (2 * P) (2 * (0 + rest))); try done; lia.
      - destruct bit;
          repeat match goal with
                 | |- context [Z.leb ?a ?b] => destruct (Z.leb_spec a b)
                 | |- context [Z.eqb ?a ?b] => destruct (Z.eqb_spec a b)
                 end; simpl; try done; lia. }
    destruct m as [|[p|p|]|p]; cbn [shr_1]; [|..|lia].
    + apply (Hstep false 0); lia.
    + apply (Hstep true (Z.pos p)); lia.
    + apply (Hstep false (Z.pos p)); lia.
    + apply (Hstep true 0); lia.
Qed.

(** The second rounding, of a mantissa that the first left with 53
    digits or at [2 ^ 53]. *)
Lemma second_round (sx : bool) (m1 e : Z) :
  2 ^ 52 ≤ m1 ≤ 2 ^ 53 → -1074 ≤ e →
  (let '(mrs'', e'') := shr_fexp 53 1024 m1 e loc_Exact in
   match shr_m mrs'' with
   | Z0 => S754_zero sx
   | Z.pos m => if Z.leb e'' (1024 - 53) then S754_finite sx m e''
                else S754_infinity sx
   | Z.neg _ => S754_nan
   end)
  = if decide (m1 = 2 ^ 53)
    then (if decide (e + 1 ≤ 971) then S754_finite sx (Z.to_pos (2 ^ 52)) (e + 1)
          else S754_infinity sx)
    else (if decide (e ≤ 971) then S754_finite sx (Z.to_pos m1) e
          else S754_infinity sx).
Proof.
  intros Hm He. destruct (decide (m1 = 2 ^ 53)) as [->|Hne].
  - unfold shr_fexp.
    replace (fexp 53 1024 (Zdigits2 (2 ^ 53) + e) - e) with 1
      by (change (Zdigits2 (2 ^ 53)) with 54; unfold fexp, emin; lia).
    cbn [shr shr_record_of_loc iter_pos].
    change (2 ^ 53) with (Z.pos (xO (Z.to_pos (2 ^ 52)))).
    cbn [shr_1 shr_m orb].
    destruct (Z.leb_spec (e + 1) (1024 - 53)); case_decide; try lia; done.
  - destruct m1 as [|p|p]; [lia| |lia]. unfold shr_fexp.
    rewrite Zdigits2_log2, (log2_52 (Z.pos p)) by lia.
    replace (fexp 53 1024 (52 + 1 + e) - e) with 0 by (unfold fexp, emin; lia).
    cbn [shr shr_record_of_loc shr_m].
    destruct (Z.leb_spec e (1024 - 53)); case_decide; try lia; done.
Qed.

Lemma loc_of_record_of_loc (m : Z) (l : location) :
  loc_of_shr_record (shr_record_of_loc m l) = l.
Proof. by destruct l as [|[]]. Qed.

Lemma shr_m_record_of_loc (m : Z) (l : location) : shr_m (shr_record_of_loc m l) = m.
Proof. by destruct l as [|[]]. Qed.

(** Rounding a mantissa of 53 digits, whatever was lost below it. *)
Lemma round_aux_53 (sx : bool) (m : positive) (e : Z) (l : location) :
  2 ^ 52 ≤ Z.pos m < 2 ^ 53 → -1074 ≤ e →
  binary_round_aux 53 1024 sx (Z.pos m) e l
  = if decide (round_nearest_even (Z.pos m) l = 2 ^ 53)
    then (if decide (e + 1 ≤ 971) then S754_finite sx (Z.to_pos (2 ^ 52)) (e + 1)
          else S754_infinity sx)
    else (if decide (e ≤ 971)
          then S754_finite sx (Z.to_pos (round_nearest_even (Z.pos m) l)) e
          else S754_infinity sx).
Proof.
  intros Hm He. unfold binary_round_aux. unfold shr_fexp at 1.
  rewrite Zdigits2_log2, (log2_52 _ Hm).
  replace (fexp 53 1024 (52 + 1 + e) - e) with 0 by (unfold fexp, emin; lia).
  cbn [shr]. rewrite loc_of_record_of_loc, shr_m_record_of_loc.
  apply second_round; [|done].
  destruct l as [|[]]; cbn [round_nearest_even]; try lia.
  destruct (Z.even (Z.pos m)); lia.
Qed.

(** The conversion of an integer of more than 53 digits: the quotient
    by [2 ^ d] rounded to nearest, ties to even. *)
Lemma round_large (sx : bool) (p : positive) :
  2 ^ 53 ≤ Z.pos p →
  ∃ m rest m1,
    Z.pos p = m * 2 ^ (Z.log2 (Z.pos p) - 52) + rest
    ∧ 0 ≤ rest < 2 ^ (Z.log2 (Z.pos p) - 52)
    ∧ 2 ^ 52 ≤ m < 2 ^ 53
    ∧ (2 * rest < 2 ^ (Z.log2 (Z.pos p) - 52) → m1 = m)
    ∧ (2 ^ (Z.log2 (Z.pos p) - 52) < 2 * rest → m1 = m + 1)
    ∧ (2 * rest = 2 ^ (Z.log2 (Z.pos p) - 52) →
         m1 = if Z.even m then m else m + 1)
    ∧ (m1 = m ∨ m1 = m + 1)
    ∧ 2 * Z.abs (m1 * 2 ^ (Z.log2 (Z.pos p) - 52) - Z.pos p)
      ≤ 2 ^ (Z.log2 (Z.pos p) - 52)
    ∧ binary_round 53 1024 sx p 0
      = if decide (m1 = 2 ^ 53)
        then (if decide (Z.log2 (Z.pos p) - 52 + 1 ≤ 971)
              then S754_finite sx (Z.to_pos (2 ^ 52)) (Z.log2 (Z.pos p) - 52 + 1)
              else S754_infinity sx)
        else (if decide (Z.log2 (Z.pos p) - 52 ≤ 971)
              then S754_finite sx (Z.to_pos m1) (Z.log2 (Z.pos p) - 52)
              else S754_infinity sx).
Proof.
  intros Hp.
  pose proof (Z.log2_spec (Z.pos p) ltac:(lia)) as Hlog.
  assert (53 ≤ Z.log2 (Z.pos p)) as HL.
  { apply Z.log2_le_pow2; lia. }
  set (L := Z.log2 (Z.pos p)) in *. set (d := L - 52).
  assert (0 < d) as Hd by (unfold d; lia).
  destruct (shr_1_iter (Z.pos p) (Z.to_nat d) ltac:(lia)) as (m & rest & Hit & Hm0 & Hv & Hrest).
  rewrite Z2Nat.id in Hit, Hv, Hrest by lia.
  assert (2 ^ Z.succ L = 2 ^ 53 * 2 ^ d) as Hpow1.
  { rewrite <- Z.pow_add_r by lia. f_equal. unfold d. lia. }
  assert (2 ^ L = 2 ^ 52 * 2 ^ d) as Hpow2.
  { rewrite <- Z.pow_add_r by lia. f_equal. unfold d. lia. }
  set (P := 2 ^ d) in *.
  assert (2 ^ 52 ≤ m < 2 ^ 53) as Hm by nia.
  set (l := loc_of_shr_record
              {| shr_m := m; shr_r := P <=? 2 * rest;
                 shr_s := negb (rest =? 0) && negb (2 * rest =? P) |}).
  exists m, rest, (round_nearest_even m l).
  assert (round_nearest_even m l = m ∨ round_nearest_even m l = m + 1) as Hcases.
  { destruct l as [|[]]; cbn [round_nearest_even]; try (by left); try (by right).
    destruct (Z.even m); [by left|by right]. }
  assert (2 * rest < P → round_nearest_even m l = m) as Hlow.
  { intros Hlt. unfold l. destruct (Z.leb_spec P (2 * rest)); [lia|].
    cbn [loc_of_shr_record]. by destruct (negb _ && negb _). }
  assert (P < 2 * rest → round_nearest_even m l = m + 1) as Hhigh.
  { intros Hlt. unfold l. destruct (Z.leb_spec P (2 * rest)); [|lia].
    destruct (Z.eqb_spec rest 0); [lia|]. destruct (Z.eqb_spec (2 * rest) P); [lia|].
    done. }
  assert (2 * rest = P → round_nearest_even m l = if Z.even m then m else m + 1)
    as Htie.
  { intros Heq. unfold l. destruct (Z.leb_spec P (2 * rest)); [|lia].
    destruct (Z.eqb_spec rest 0); [lia|]. destruct (Z.eqb_spec (2 * rest) P); [|lia].
    done. }
  do 7 (split; [done|]). split.
  { destruct (Z.lt_trichotomy (2 * rest) P) as [H|[H|H]].
    - rewrite (Hlow H). lia.
    - destruct Hcases as [-> | ->]; lia.
    - rewrite (Hhigh H). lia. }
  unfold binary_round, shl_align.
  change (Z.pos (digits2_pos p)) with (Zdigits2 (Z.pos p)). rewrite Zdigits2_log2.
  fold L. replace (fexp 53 1024 (L + 1 + 0)) with d by (unfold fexp, emin, d; lia).
  destruct (d - 0) eqn:Hd0; [lia| |lia].
  unfold binary_round_aux. unfold shr_fexp at 1. rewrite Zdigits2_log2. fold L.
  replace (fexp 53 1024 (L + 1 + 0) - 0) with d by (unfold fexp, emin, d; lia).
  destruct d as [|dp|dp] eqn:Hdp; [lia| |lia].
  cbn [shr shr_record_of_loc]. rewrite iter_pos_nat.
  change (Pos.to_nat dp) with (Z.to_nat (Z.pos dp)). rewrite Hit.
  fold l. cbn [shr_m]. rewrite Z.add_0_l.
  apply second_round; lia.
Qed.

(** An integer of more than 53 digits is rounded to a double when it is
    below [2 ^ 1024 - 2 ^ 970], the middle of the largest double and
    [2 ^ 1024]; from there on it is rounded to infinity. *)
Lemma round_large_cases (sx : bool) (p : positive) :
  2 ^ 53 ≤ Z.pos p →
  (Z.pos p < 2 ^ 1024 - 2 ^ 970 →
     ∃ m e, binary_round 53 1024 sx p 0 = S754_finite sx m e
            ∧ 2 ^ 52 ≤ Z.pos m < 2 ^ 53 ∧ 1 ≤ e ≤ 971
            ∧ Z.log2 (Z.pos p) - 52 ≤ e ≤ Z.log2 (Z.pos p) - 51
            ∧ 2 * Z.abs (Z.pos m * 2 ^ e - Z.pos p) ≤ 2 ^ e)
  ∧ (2 ^ 1024 - 2 ^ 970 ≤ Z.pos p → binary_round 53 1024 sx p 0 = S754_infinity sx).
Proof.
  intros Hp.
  destruct (round_large sx p Hp)
    as (m & rest & m1 & Hv & Hrest & Hm & Hlow & Hhigh & Htie & Hcases & Herr & ->).
  pose proof (Z.log2_spec (Z.pos p) ltac:(lia)) as Hlog.
  assert (53 ≤ Z.log2 (Z.pos p)) as HL by (apply Z.log2_le_pow2; lia).
  set (L := Z.log2 (Z.pos p)) in *. set (d := L - 52) in *.
  assert (2 ^ (d + 1) = 2 * 2 ^ d) as Hsucc by (rewrite Z.pow_add_r by lia; lia).
  assert (2 ^ Z.succ L = 2 ^ 53 * 2 ^ d) as Hpow1.
  { rewrite <- Z.pow_add_r by lia. f_equal. unfold d. lia. }
  assert (2 ^ L = 2 ^ 52 * 2 ^ d) as Hpow2.
  { rewrite <- Z.pow_add_r by lia. f_equal. unfold d. lia. }
  split.
  - intros Hlt. assert (L < 1024) as HL'.
    { apply (Z.pow_lt_mono_r_iff 2); lia. }
    assert (d ≤ 971) as Hd by (unfold d; lia).
    assert (d = 971 → m1 < 2 ^ 53) as Htop.
    { intros Hd'. rewrite Hd' in *. 
      destruct (decide (m = 2 ^ 53 - 1)) as [Hmax|Hmax]; [|lia].
      rewrite Hlow; lia. }
    case_decide as Hc.
    + rewrite decide_True by lia. eexists _, _. split; [done|].
      rewrite Z2Pos.id by lia. rewrite Hc in Herr. lia.
    + rewrite decide_True by lia. eexists _, _. split; [done|].
      rewrite Z2Pos.id by lia. lia.
  - intros Hge. destruct (decide (L < 1023)) as [Hs|Hs].
    { assert (Z.succ L ≤ 1023) as Hs' by lia.
      apply (Z.pow_le_mono_r 2) in Hs'; lia. }
    destruct (decide (L = 1023)) as [HL1|HL1].
    + assert (d = 971) as Hd by (unfold d; lia). rewrite Hd in *.
      assert (m = 2 ^ 53 - 1) as Hm1 by lia.
      assert (m1 = 2 ^ 53) as ->.
      { destruct (decide (2 * rest = 2 ^ 971)) as [Heq|Hne]; [|rewrite Hhigh; lia].
        rewrite (Htie Heq), Hm1. done. }
      rewrite decide_True by done. by rewrite decide_False by lia.
    + assert (971 < d) by (unfold d; lia).
      case_decide; by rewrite decide_False by lia.
Qed.

(** The root of a double with 53 digits is a finite double; and it is
    [c], when the double is within half a unit in its last place of the
    square of [c]. *)
Lemma sqrt_round (m : positive) (e : Z) :
  2 ^ 52 ≤ Z.pos m < 2 ^ 53 → -52 ≤ e ≤ 971 →
  (∃ m' e', SFsqrt 53 1024 (S754_finite false m e) = S754_finite false m' e')
  ∧ ∀ c : Z,
      0 < c →
      2 * Z.abs (Z.pos m * 2 ^ (e + 2 * (53 - (e + 54) / 2)) - c * c)
      ≤ 2 ^ (e + 2 * (53 - (e + 54) / 2)) →
      ∃ m' e', SFsqrt 53 1024 (S754_finite false m e) = S754_finite false m' e'
               ∧ 0 ≤ e' + (53 - (e + 54) / 2)
               ∧ Z.pos m' * 2 ^ (e' + (53 - (e + 54) / 2)) = c.
Proof.
  intros Hm He.
  pose proof (Z.div_mod (e + 54) 2 ltac:(lia)) as Hdiv.
  pose proof (Z.mod_pos_bound (e + 54) 2 ltac:(lia)) as Hmod.
  pose proof (Z.div_mod e 2 ltac:(lia)) as Hdiv'.
  pose proof (Z.mod_pos_bound e 2 ltac:(lia)) as Hmod'.
  set (k := 53 - (e + 54) / 2).
  assert (-459 ≤ k ≤ 52) as Hk by (unfold k; lia).
  assert (e + 2 * k = 52 ∨ e + 2 * k = 53) as Hs by (unfold k; lia).
  unfold SFsqrt, SFsqrt_core_binary.
  rewrite Zdigits2_log2, (log2_52 _ Hm), !Z.div2_div.
  replace (52 + 1 + e + 1) with (e + 54) by lia.
  replace (Z.min (fexp 53 1024 ((e + 54) / 2)) (e / 2)) with (- k)
    by (unfold fexp, emin, k; lia).
  replace (e - 2 * - k) with (e + 2 * k) by lia.
  assert (match e + 2 * k with
          | Z.pos _ => Z.shiftl (Z.pos m) (e + 2 * k)
          | Z0 => Z.pos m
          | Z.neg _ => 0
          end = Z.pos m * 2 ^ (e + 2 * k)) as ->.
  { destruct (e + 2 * k) eqn:E; [lia| |lia]. apply Z.shiftl_mul_pow2. lia. }
  set (m' := Z.pos m * 2 ^ (e + 2 * k)).
  assert ((e + 2 * k = 52 ∧ 2 ^ 104 ≤ m' < 2 ^ 105)
          ∨ (e + 2 * k = 53 ∧ 2 ^ 105 ≤ m' < 2 ^ 106)) as Hm'.
  { unfold m'. destruct Hs as [Hs | Hs]; rewrite Hs; lia. }
  pose proof (Z.sqrtrem_spec m' ltac:(lia)) as Hspec.
  destruct (Z.sqrtrem m') as [q r]. destruct Hspec as [Hq Hr].
  assert (2 ^ 52 ≤ q < 2 ^ 53) as Hq52 by nia.
  destruct q as [|qp|qp]; [lia| |lia].
  set (l := if r =? 0 then loc_Exact
            else loc_Inexact (if r <=? Z.pos qp then Lt else Gt)).
  rewrite (round_aux_53 false qp (- k) l Hq52) by lia.
  assert (round_nearest_even (Z.pos qp) l = Z.pos qp
          ∨ round_nearest_even (Z.pos qp) l = Z.pos qp + 1) as Hcases.
  { unfold l. destruct (r =? 0); [by left|].
    destruct (r <=? Z.pos qp); [by left|by right]. }
  split.
  - case_decide; rewrite decide_True by lia; by eexists _, _.
  - intros c Hc Herr.
    assert (round_nearest_even (Z.pos qp) l = c) as Hround.
    { assert (- c < m' - c * c < c) as Hnear.
      { destruct Hm' as [[Hs' Hm'] | [Hs' Hm']]; rewrite Hs' in Herr; nia. }
      destruct (decide (c * c ≤ m')) as [Hle|Hgt].
      - assert (Z.pos qp = c) as Hqc by nia.
        unfold l. destruct (Z.eqb_spec r 0); [done|].
        destruct (Z.leb_spec r (Z.pos qp)); [done|]. nia.
      - assert (Z.pos qp = c - 1) as Hqc by nia.
        unfold l. destruct (Z.eqb_spec r 0); [nia|].
        destruct (Z.leb_spec r (Z.pos qp)); [nia|].
        cbn [round_nearest_even]. lia. }
    rewrite Hround. case_decide as Hcarry.
    + rewrite decide_True by lia. eexists _, _. split; [done|].
      replace (- k + 1 + k) with 1 by lia. split; [lia|]. rewrite Hcarry. done.
    + rewrite decide_True by lia. eexists _, _. split; [done|].
      replace (- k + k) with 0 by lia. split; [lia|]. rewrite Z2Pos.id by lia. lia.
Qed.

End Float.

Lemma pow2_pos (k : Z) : 0 ≤ k → 0 < 2 ^ k.
Proof. intros. by apply Z.pow_pos_nonneg. Qed.

(** [int(x)] of a double that holds an integer. *)
Lemma int_of_float_integer (m : positive) (e k b : Z) :
  0 ≤ k → 0 ≤ e + k → Z.pos m * 2 ^ (e + k) = b * 2 ^ k →
  Utils.int_of_float (SpecFloat.S754_finite false m e) = Done b.
Proof.
  intros Hk Hek Hv. unfold Utils.int_of_float. f_equal. case_decide as He.
  - rewrite Z.pow_add_r in Hv by lia. pose proof (pow2_pos k Hk). nia.
  - replace k with (- e + (e + k)) in Hv at 2 by lia.
    rewrite (Z.pow_add_r 2 (- e) (e + k)) in Hv by lia.
    pose proof (pow2_pos (e + k) Hek).
    assert (Z.pos m = b * 2 ^ (- e)) as -> by nia.
    apply Z.div_mul. pose proof (pow2_pos (- e)). lia.
Qed.

(** [int(size ** 0.5)] of a size below [2 ^ 53] returns, and returns the
    integer root when the size is a square. *)
Lemma int_root_exact (size0 : Z) :
  0 < size0 < 2 ^ 53 →
  ∃ root, Utils.int_root size0 = Done root
          ∧ (Z.sqrt size0 * Z.sqrt size0 = size0 → root = Z.sqrt size0).
Proof.
  intros Hx. destruct size0 as [|p|p]; [lia| |lia].
  destruct (Float.round_small false p ltac:(lia)) as (m & Hfl & Hmv & Hm).
  pose proof (Z.log2_nonneg (Z.pos p)) as Hnn.
  assert (Z.log2 (Z.pos p) ≤ 52) as Hle.
  { apply Z.lt_succ_r, (Z.pow_lt_mono_r_iff 2); [lia..|].
    pose proof (Z.log2_spec (Z.pos p) ltac:(lia)). lia. }
  set (e := Z.log2 (Z.pos p) - 52) in *.
  destruct (Float.sqrt_round m e Hm ltac:(unfold e; lia)) as [(m' & e' & Hfin) Hexact].
  unfold Utils.int_root, Utils.float_of_int, mbind, outcome_bind.
  cbn [SpecFloat.binary_normalize]. rewrite Hfl. cbv beta iota.
  rewrite decide_False by lia.
  destruct (decide (Z.sqrt (Z.pos p) * Z.sqrt (Z.pos p) = Z.pos p)) as [Hsq|Hnsq].
  - set (b := Z.sqrt (Z.pos p)) in *. set (k := 53 - (e + 54) / 2) in *.
    pose proof (Z.div_mod (e + 54) 2 ltac:(lia)) as Hdiv.
    pose proof (Z.mod_pos_bound (e + 54) 2 ltac:(lia)) as Hmod.
    assert (26 ≤ k ≤ 52) as Hk by (unfold k, e in *; lia).
    assert (0 ≤ b) as Hb0 by apply Z.sqrt_nonneg.
    assert (0 < b) as Hb by nia.
    pose proof (pow2_pos k ltac:(lia)) as Hpk.
    pose proof (pow2_pos (e + 2 * k) ltac:(lia)) as Hps.
    destruct (Hexact (b * 2 ^ k)) as (m'' & e'' & -> & He'' & Hv); [nia| |].
    + replace (Z.pos m * 2 ^ (e + 2 * k)) with (b * 2 ^ k * (b * 2 ^ k)); [lia|].
      rewrite Hmv. replace (52 - Z.log2 (Z.pos p)) with (- e) by (unfold e; lia).
      rewrite <- (Z.mul_assoc (Z.pos p)), <- Z.pow_add_r by (unfold e; lia).
      replace (- e + (e + 2 * k)) with (k + k) by lia.
      rewrite Z.pow_add_r by lia. rewrite <- Hsq. ring.
    + exists b. split; [|done]. apply (int_of_float_integer m'' e'' k b); [lia|done..].
  - rewrite Hfin. unfold Utils.int_of_float. eexists. split; [done|]. by intros.
Qed.

(** [int(size ** 0.5)] of the square of [b] is [b], up to [2 ^ 53]. *)
Lemma int_root_square (b : Z) :
  0 < b ≤ 2 ^ 53 → Utils.int_root (b * b) = Done b.
Proof.
  intros Hb. destruct (decide (b = 2 ^ 53)) as [->|Hne]; [by vm_compute|].
  destruct (decide (b * b < 2 ^ 53)) as [Hsmall|Hlarge].
  { destruct (int_root_exact (b * b) ltac:(nia)) as (root & -> & Hroot).
    rewrite Hroot; rewrite Z.sqrt_square by lia; done. }
  destruct (b * b) as [|p|p] eqn:Hp; [lia| |lia].
  destruct (Float.round_large_cases false p ltac:(lia)) as [Hfin _].
  destruct Hfin as (m & e & Hfl & Hm & He & HL & Herr); [nia|].
  pose proof (Z.log2_spec (Z.pos p) ltac:(lia)) as Hlog.
  assert (Z.log2 (Z.pos p) < 106) as HL106.
  { apply (Z.pow_lt_mono_r_iff 2); [lia..|]. nia. }
  assert (e ≤ 53) as He53.
  { destruct (decide (e = 54)) as [->|]; [|lia]. nia. }
  pose proof (Z.div_mod (e + 54) 2 ltac:(lia)) as Hdiv.
  pose proof (Z.mod_pos_bound (e + 54) 2 ltac:(lia)) as Hmod.
  destruct (Float.sqrt_round m e Hm ltac:(lia)) as [_ Hsqrt].
  set (k := 53 - (e + 54) / 2) in *.
  assert (0 ≤ k) as Hk by (unfold k; lia).
  pose proof (pow2_pos k Hk) as HK. pose proof (pow2_pos e ltac:(lia)) as HE.
  destruct (Hsqrt (b * 2 ^ k)) as (m' & e' & Hroot & He' & Hv); [nia| |].
  { replace (e + 2 * k) with (e + k + k) by lia. rewrite !Z.pow_add_r by lia.
    replace (Z.pos m * (2 ^ e * 2 ^ k * 2 ^ k) - b * 2 ^ k * (b * 2 ^ k))
      with ((Z.pos m * 2 ^ e - Z.pos p) * (2 ^ k * 2 ^ k)) by (rewrite <- Hp; ring).
    rewrite Z.abs_mul, (Z.abs_eq (2 ^ k * 2 ^ k)) by nia. nia. }
  unfold Utils.int_root, Utils.float_of_int, mbind, outcome_bind.
  cbn [SpecFloat.binary_normalize]. rewrite Hfl. cbv beta iota.
  rewrite decide_False by lia. rewrite Hroot.
  by apply (int_of_float_integer m' e' k b).
Qed.

(** [int(size ** 0.5)] returns for every size that is a double once
    rounded. *)
Lemma int_root_total (size0 : Z) :
  0 ≤ size0 < 2 ^ 1024 - 2 ^ 970 → ∃ root, Utils.int_root size0 = Done root.
Proof.
  intros Hx. destruct (decide (size0 = 0)) as [->|Hne]; [by exists 0|].
  destruct (decide (size0 < 2 ^ 53)) as [Hsmall|Hlarge].
  { destruct (int_root_exact size0 ltac:(lia)) as (root & -> & _). by exists root. }
  destruct size0 as [|p|p]; [lia| |lia].
  destruct (Float.round_large_cases false p ltac:(lia)) as [Hfin _].
  destruct Hfin as (m & e & Hfl & Hm & He & _); [lia|].
  destruct (Float.sqrt_round m e Hm ltac:(lia)) as [(m' & e' & Hroot) _].
  unfold Utils.int_root, Utils.float_of_int, mbind, outcome_bind.
  cbn [SpecFloat.binary_normalize]. rewrite Hfl. cbv beta iota.
  rewrite decide_False by lia. rewrite Hroot. unfold Utils.int_of_float.
  by eexists.
Qed.

(** A negative size is made a [complex], which [int] refuses. *)
Lemma int_root_negative (size0 : Z) :
  - (2 ^ 1024 - 2 ^ 970) < size0 < 0 → Utils.int_root size0 = Raised TypeError.
Proof.
  intros Hx. destruct size0 as [|p|p]; [lia..|].
  assert (∃ m e, SpecFloat.binary_round 53 1024 true p 0
                 = SpecFloat.S754_finite true m e) as (m & e & Hfl).
  { destruct (decide (Z.pos p < 2 ^ 53)) as [Hsmall|Hlarge].
    - destruct (Float.round_small true p Hsmall) as (m & Hfl & _). by eexists _, _.
    - destruct (Float.round_large_cases true p ltac:(lia)) as [Hfin _].
      destruct Hfin as (m & e & Hfl & _); [lia|]. by eexists _, _. }
  unfold Utils.int_root, Utils.float_of_int, mbind, outcome_bind.
  cbn [SpecFloat.binary_normalize]. rewrite Hfl. cbv beta iota.
  by rewrite decide_True by lia.
Qed.

(** Beyond the doubles the conversion of the size is refused. *)
Lemma int_root_overflow (size0 : Z) :
  2 ^ 1024 - 2 ^ 970 ≤ Z.abs size0 → Utils.int_root size0 = Raised OverflowError.
Proof.
  intros Hx. unfold Utils.int_root, Utils.float_of_int, mbind, outcome_bind.
  destruct size0 as [|p|p]; [lia| |]; cbn [SpecFloat.binary_normalize].
  - destruct (Float.round_large_cases false p ltac:(lia)) as [_ ->]; [done|lia].
  - destruct (Float.round_large_cases true p ltac:(lia)) as [_ ->]; [done|lia].
Qed.

(** Below [(2 ^ 53 + 1) ^ 2] the constructor is the constructor in exact
    arithmetic. *)
Lemma init_exact (size0 : Z) :
  0 ≤ size0 < (2 ^ 53 + 1) ^ 2 → Utils.__init__ size0 = Utils.init size0.
Proof.
  intros Hx. destruct (decide (size0 = 0)) as [->|Hne]; [done|].
  unfold Utils.init. rewrite decide_False by lia.
  destruct (decide (Z.sqrt size0 * Z.sqrt size0 = size0)) as [E|E].
  - pose proof (Z.sqrt_nonneg size0) as Hb0.
    assert (Utils.int_root size0 = Done (Z.sqrt size0)) as Hroot.
    { rewrite <- E at 1. apply int_root_square. nia. }
    unfold Utils.__init__. rewrite Hroot. simpl.
    by rewrite !decide_False by lia.
  - destruct (int_root_total size0 ltac:(lia)) as [root Hroot].
    unfold Utils.__init__. rewrite Hroot. simpl.
    rewrite !decide_True; [done|lia|]. intros Hr. apply E.
    assert (Z.sqrt size0 = Z.abs root) as ->; [|lia].
    rewrite <- Hr. replace (root ^ 2) with (Z.abs root * Z.abs root) by lia.
    apply Z.sqrt_square. lia.
Qed.

(** A size that is not a perfect square is refused by the check, as long
    as it is a double once rounded. *)
Lemma init_double_not_square (size0 : Z) :
  0 ≤ size0 < 2 ^ 1024 - 2 ^ 970 → (¬ ∃ b, b * b = size0) →
  Utils.__init__ size0 = Raised ValueError.
Proof.
  intros Hx Hno. destruct (int_root_total size0 Hx) as [root Hroot].
  unfold Utils.__init__. rewrite Hroot. simpl.
  rewrite decide_True; [done|]. intros Hr. apply Hno. exists root. lia.
Qed.

(** A negative size is refused by [int], which is given a [complex]. *)
Lemma init_double_negative (size0 : Z) :
  - (2 ^ 1024 - 2 ^ 970) < size0 < 0 → Utils.__init__ size0 = Raised TypeError.
Proof. intros Hx. unfold Utils.__init__. by rewrite int_root_negative. Qed.

(** From [2 ^ 1024 - 2 ^ 970] on, the size is no double. *)
Lemma init_double_overflow (size0 : Z) :
  2 ^ 1024 - 2 ^ 970 ≤ Z.abs size0 → Utils.__init__ size0 = Raised OverflowError.
Proof. intros Hx. unfold Utils.__init__. by rewrite int_root_overflow. Qed.

(** C5, as the code has it: the test of the constructor takes the root
    in double precision.  For a size from 0 and below [(2 ^ 53 + 1) ^ 2]
    that is a perfect square, [SudokuGrid(size)] is a grid of [size] rows
    of [size] zeros whose [box_size] is the integer square root of [size].
    For a size from 0 and below [2 ^ 1024 - 2 ^ 970] that is not a perfect
    square, the constructor raises [ValueError] and there is no grid.  A
    negative size above [- (2 ^ 1024 - 2 ^ 970)] is refused with
    [TypeError], and a size of absolute value [2 ^ 1024 - 2 ^ 970] or
    more with [OverflowError].  For a size of any magnitude, a grid is
    only ever built for a perfect square, with [size] rows of [size] zeros
    and a root of [size] as [box_size]. *)
Theorem init_perfect_square (size0 : Z) :
  (0 ≤ size0 < (2 ^ 53 + 1) ^ 2 →
     ((∃ b, b * b = size0) →
        Utils.__init__ size0
        = Done {| grid := replicate (Z.to_nat size0) (replicate (Z.to_nat size0) 0);
                  size := Z.to_nat size0;
                  box_size := Z.to_nat (Z.sqrt size0) |}
        ∧ Z.sqrt size0 * Z.sqrt size0 = size0)
     ∧ ((¬ ∃ b, b * b = size0) → Utils.__init__ size0 = Raised ValueError))
  ∧ (0 ≤ size0 < 2 ^ 1024 - 2 ^ 970 → (¬ ∃ b, b * b = size0) →
       Utils.__init__ size0 = Raised ValueError)
  ∧ (- (2 ^ 1024 - 2 ^ 970) < size0 < 0 → Utils.__init__ size0 = Raised TypeError)
  ∧ (2 ^ 1024 - 2 ^ 970 ≤ Z.abs size0 → Utils.__init__ size0 = Raised OverflowError)
  ∧ (∀ g, Utils.__init__ size0 = Done g →
       ∃ b, b * b = size0
            ∧ g = {| grid := replicate (Z.to_nat size0) (replicate (Z.to_nat size0) 0);
                     size := Z.to_nat size0;
                     box_size := Z.to_nat b |}).
Proof.
  split; [|split; [|split; [|split]]].
  - intros Hx. rewrite (init_exact size0 Hx). apply init_cases. lia.
  - apply init_double_not_square.
  - apply init_double_negative.
  - apply init_double_overflow.
  - intros g. unfold Utils.__init__.
    destruct (Utils.int_root size0) as [root| |]; simpl; [|done..].
    case_decide as Hr; [done|]. intros [= <-]. exists root. split; [lia|done].
Qed.

(** C5, as the claim has it, fails where the root in double precision
    stops being exact, and where the size stops being a double:
    [(2 ^ 53 + 1) ^ 2] is a perfect square, and the constructor raises
    [ValueError]; [2 ^ 1024 - 2 ^ 970] is not a perfect square, and the
    constructor raises [OverflowError]. *)
Lemma init_perfect_square_large :
  (∃ b, b * b = (2 ^ 53 + 1) ^ 2)
  ∧ Utils.__init__ ((2 ^ 53 + 1) ^ 2) = Raised ValueError
  ∧ (¬ ∃ b, b * b = 2 ^ 1024 - 2 ^ 970)
  ∧ Utils.__init__ (2 ^ 1024 - 2 ^ 970) = Raised OverflowError.
Proof.
  split; [exists (2 ^ 53 + 1); lia|]. split; [by vm_compute|]. split; [|by vm_compute].
  intros [b Hb].
  assert (Z.sqrt (2 ^ 1024 - 2 ^ 970) = Z.abs b) as Hs.
  { rewrite <- Hb, <- Z.abs_square. apply Z.sqrt_square. lia. }
  assert (Z.sqrt (2 ^ 1024 - 2 ^ 970) * Z.sqrt (2 ^ 1024 - 2 ^ 970)
          = 2 ^ 1024 - 2 ^ 970) as Hsq by (rewrite Hs; lia).
  vm_compute in Hsq. discriminate.
Qed.

(** A negative size is refused as well, by [int] and not by the check. *)
Lemma init_negative (size0 : Z) : size0 < 0 → Utils.init size0 = Raised TypeError.
Proof. intros H. unfold Utils.init. by rewrite decide_True. Qed.

(** ** The generator *)


Lemma blank_cells_seq positions g i k :
  (i + k ≤ length positions)%nat → NoDup positions →
  (∀ p, p ∈ positions → is_Some (cell g p.1 p.2)) →
  (∀ j p, (i ≤ j)%nat → positions !! j = Some p → cell g p.1 p.2 ≠ Some 0) →
  ∃ g', blank_cells (seq i k) positions g = Done g'
        ∧ empty_count g' = (empty_count g + k)%nat
        ∧ length <$> g' = length <$> g.
Proof.
  intros Hlen Hnd. revert i g Hlen.
  induction k as [|k IH]; intros i g Hlen Hcells Hfilled; simpl.
  { exists g. split; [done|]. split; [lia|done]. }
  destruct (lookup_lt_is_Some_2 positions i) as [[r c] Hi]; [lia|].
  rewrite Hi. assert ((r, c) ∈ positions) as Hin by (by eapply list_elem_of_lookup_2).
  destruct (Hcells _ Hin) as [w Hw]. simpl in Hw.
  assert (w ≠ 0) as Hne by (intros ->; by apply (Hfilled i (r, c))).
  destruct (setitem_total g r c 0) as [g1 Hs]; [by eexists|]. rewrite Hs. simpl.
  assert (S (empty_count g) = empty_count g1) as Hcount.
  { apply (empty_count_setitem g1 r c w g); [|done|by eapply setitem_undo].
    rewrite (cell_setitem _ _ _ _ _ r c Hs). by rewrite decide_True. }
  destruct (IH (S i) g1) as (g' & -> & Hc & Hsh); [lia| | |].
  - intros p Hp. rewrite (cell_setitem _ _ _ _ _ p.1 p.2 Hs). case_decide; [by eexists|].
    by apply Hcells.
  - intros j [r' c'] Hj Hp. simpl. rewrite (cell_setitem _ _ _ _ _ r' c' Hs).
    case_decide as Hd.
    + destruct Hd as [-> ->]. pose proof (NoDup_lookup _ _ _ _ Hnd Hi Hp). lia.
    + apply (Hfilled j (r', c')); [lia|done].
  - exists g'. split; [done|]. split; [lia|]. rewrite Hsh. by eapply setitem_shape.
Qed.

Section Puzzle.

Context {R : Type}.
Variable shuffle : ∀ A : Type, list A → R → list A * R.
Variable valid : Sudoku → nat → nat → Z → outcome bool.
Variable multiplier : string → Z.
Hypothesis shuffle_perm : ∀ A (l : list A) rng, (shuffle A l rng).1 ≡ₚ l.
Hypothesis valid_ok : valid_check valid.




End Puzzle.

(** C6: on a grid of the data model and at a position of the grid, both
    [is_valid] (the solver's three loops and the grid's, whose row test is
    [num in row]) return, and they return [True] exactly when the value is
    absent from the row, from the column and from the box of the position.
    The position itself is not asked to be empty: in the scenario grid the
    filled cell [(0, 0)] accepts the value 4 of no row, column or box of
    its own. *)
Theorem is_valid_spec :
  (∀ self row col v,
     well_formed self → (row < size self)%nat → (col < size self)%nat →
     ∃ b, Solver.is_valid self row col v = Done b
          ∧ Utils.is_valid self row col v = Done b
          ∧ (b = true ↔ placeable self row col v))
  ∧ (cell [[1;2;0;0]; [3;0;0;0]; [0;0;1;2]; [0;0;3;4]] 0 0 = Some 1
     ∧ Solver.is_valid (Solver.init [[1;2;0;0]; [3;0;0;0]; [0;0;1;2]; [0;0;3;4]]) 0 0 4
       = Done true
     ∧ Utils.is_valid (Solver.init [[1;2;0;0]; [3;0;0;0]; [0;0;1;2]; [0;0;3;4]]) 0 0 4
       = Done true).
Proof.
  split; [|done]. intros self row col v Hwf Hr Hc.
  destruct (proj2 Solver_is_valid_check self row col v Hwf Hr Hc) as (b & Hb & Hp).
  destruct (proj2 Utils_is_valid_check self row col v Hwf Hr Hc) as (b' & Hb' & Hp').
  exists b. split; [done|]. split; [|done].
  rewrite Hb'. f_equal. destruct b, b'; try done; intuition discriminate.
Qed.






(** ** The character encoding *)

Lemma small_value_cases (P : Z → Prop) (n : nat) :
  (∀ k, (k < n)%nat → P (Z.of_nat k)) → ∀ v, 0 ≤ v < Z.of_nat n → P v.
Proof. intros H v Hv. rewrite <- (Z2Nat.id v) by lia. apply H. lia. Qed.

Lemma value_char_value (v : Z) :
  0 ≤ v ≤ 35 →
  ∃ c, Utils.value_to_char v = Done c ∧ Utils.char_to_value c = Done v.
Proof.
  intros Hv.
  apply (small_value_cases
           (fun v => ∃ c, Utils.value_to_char v = Done c ∧ Utils.char_to_value c = Done v)
           36); [|lia].
  intros k Hk.
  do 36 (destruct k as [|k]; [eexists; split; [reflexivity|reflexivity]|]). lia.
Qed.

Lemma mapM_round_trip {A B} (f : A → outcome B) (g : B → outcome A) (l : list A) :
  Forall (fun x => ∃ y, f x = Done y ∧ g y = Done x) l →
  ∃ l', mapM f l = Done l' ∧ mapM g l' = Done l.
Proof.
  induction 1 as [|x l (y & Hf & Hg) _ (l' & Hl & Hl')]; [by exists []|].
  exists (y :: l'). simpl. by rewrite Hf, Hg; simpl; rewrite Hl, Hl'.
Qed.

(** C9: [char_to_value] undoes [value_to_char] on [0 .. 35]: 0 is
    written ['.'], 1 to 9 as the digits, 10 to 35 as ['A'] to ['Z'], and
    the lower-case letters read like the upper-case ones; hence writing a
    grid with cells in [0 .. 35] one character per cell and reading the
    lines back gives the grid again. *)
Theorem encoding_round_trip :
  (∀ v, 0 ≤ v ≤ 35 →
        ∃ c, Utils.value_to_char v = Done c ∧ Utils.char_to_value c = Done v)
  ∧ Utils.value_to_char 0 = Done "."%char
  ∧ (∀ v, 1 ≤ v ≤ 9 → Utils.value_to_char v = Done (Utils.chr (Utils.ord "0" + v)))
  ∧ (∀ v, 10 ≤ v ≤ 35 →
          Utils.value_to_char v = Done (Utils.chr (Utils.ord "A" + v - 10))
          ∧ Utils.char_to_value (Utils.chr (Utils.ord "a" + v - 10)) = Done v)
  ∧ (∀ g : cells,
       Forall (Forall (fun v => 0 ≤ v ≤ 35)) g →
       ∃ lines, Utils.encode_grid g = Done lines ∧ Utils.decode_grid lines = Done g).
Proof.
  split; [apply value_char_value|]. split; [done|]. split; [|split].
  - intros v Hv. unfold Utils.value_to_char.
    rewrite bool_decide_eq_false_2 by lia. by rewrite bool_decide_eq_true_2.
  - intros v Hv. split.
    + unfold Utils.value_to_char. rewrite !bool_decide_eq_false_2 by lia.
      by rewrite bool_decide_eq_true_2.
    + generalize Hv.
      apply (small_value_cases
               (fun v => 10 ≤ v ≤ 35 →
                  Utils.char_to_value (Utils.chr (Utils.ord "a" + v - 10)) = Done v) 36);
        [|lia].
      intros k Hk Hv'.
      do 36 (destruct k as [|k]; [first [lia|vm_compute; reflexivity]|]). lia.
  - intros g Hg. apply mapM_round_trip.
    eapply List.Forall_impl; [|exact Hg]. intros row Hrow. simpl. apply mapM_round_trip.
    eapply List.Forall_impl; [|exact Hrow]. intros v. apply value_char_value.
Qed.

(** ** The theorems at concrete grids *)

Local Ltac peel n := destruct n as [|[|[|[|n]]]].

Lemma grid4_well_formed : well_formed (Solver.init grid4).
Proof. repeat split; repeat constructor. Qed.

Lemma grid4_in_range : in_range (Solver.init grid4).
Proof.
  intros r c v H. cbn [grid size Solver.init] in *.
  peel r; peel c; cbn in H; try discriminate; injection H as <-; cbn; lia.
Qed.

Lemma grid4_partial_invariant : partial_invariant (Solver.init grid4).
Proof.
  intros r1 c1 r2 c2 v H1 H2 Hv Hp. cbn [grid box_size Solver.init] in *.
  peel r1; peel c1; cbn in H1; try discriminate; injection H1 as <-; try done;
    peel r2; peel c2; cbn in H2; try discriminate; try done;
    exfalso; unfold same_box in Hp; cbn in Hp; intuition discriminate.
Qed.

Lemma solve_true_solved_witness :
  ∃ b self',
    Solver.solve 9 (Solver.init grid4) = Done (b, self')
    ∧ (b = true → no_empty_cell (grid self') ∧ solved self').
Proof.
  apply (solve_true_solved grid4 9).
  - apply grid4_well_formed.
  - apply grid4_in_range.
  - apply grid4_partial_invariant.
  - vm_compute. lia.
Defined.

Lemma solve_false_restores_witness :
  Solver.solve 16 (Solver.init unsolvable4) = Done (false, Solver.init unsolvable4)
  ∧ grid (Solver.init unsolvable4) = unsolvable4.
Proof.
  split; [vm_compute; reflexivity|].
  apply (solve_false_restores unsolvable4 16 (Solver.init unsolvable4)).
  vm_compute. reflexivity.
Defined.

Lemma solve_keeps_filled_witness :
  Solver.solve 9 (Solver.init grid4) = Done (true, Solver.init grid4_solved)
  ∧ cell grid4 3 2 = Some 3 ∧ cell (grid (Solver.init grid4_solved)) 3 2 = Some 3.
Proof.
  split; [vm_compute; reflexivity|]. split; [reflexivity|].
  apply (solve_keeps_filled grid4 9 true (Solver.init grid4_solved)).
  - vm_compute. reflexivity.
  - reflexivity.
  - lia.
Defined.

Lemma solve_row_conflict_witness :
  let self' := Solver.init [[1;2;3;4]; [3;4;1;2]; [2;1;4;3]; [4;3;2;2]] in
  cell (grid self') 3 2 = Some 2 ∧ cell (grid self') 3 3 = Some 2
  ∧ ¬ partial_invariant self'
  ∧ (true = false → grid self' = conflict4).
Proof.
  apply (proj1 solve_row_conflict conflict4 3%nat 2%nat 3%nat 2 2%nat true).
  - reflexivity.
  - reflexivity.
  - lia.
  - lia.
  - vm_compute. reflexivity.
Defined.

Lemma init_perfect_square_witness :
  ((∃ b, b * b = 9) →
     Utils.__init__ 9
     = Done {| grid := replicate (Z.to_nat 9) (replicate (Z.to_nat 9) 0);
               size := Z.to_nat 9;
               box_size := Z.to_nat (Z.sqrt 9) |}
     ∧ Z.sqrt 9 * Z.sqrt 9 = 9)
  ∧ ((¬ ∃ b, b * b = 9) → Utils.__init__ 9 = Raised ValueError).
Proof. apply (proj1 (init_perfect_square 9)). lia. Defined.

Lemma is_valid_spec_witness :
  ∃ b, Solver.is_valid (Solver.init grid4) 0 2 4 = Done b
       ∧ Utils.is_valid (Solver.init grid4) 0 2 4 = Done b
       ∧ (b = true ↔ placeable (Solver.init grid4) 0 2 4).
Proof.
  apply (proj1 is_valid_spec (Solver.init grid4) 0%nat 2%nat 4).
  - apply grid4_well_formed.
  - vm_compute. lia.
  - vm_compute. lia.
Defined.

Lemma descending_perm A (l : list A) r : (descending A l r).1 ≡ₚ l.
Proof. symmetry. apply Permutation_rev. Qed.



Lemma encoding_round_trip_witness :
  (∃ c, Utils.value_to_char 17 = Done c ∧ Utils.char_to_value c = Done 17)
  ∧ ∃ lines, Utils.encode_grid [[0; 9]; [10; 35]] = Done lines
             ∧ Utils.decode_grid lines = Done [[0; 9]; [10; 35]].
Proof.
  split.
  - apply (proj1 encoding_round_trip 17). lia.
  - apply (proj2 (proj2 (proj2 (proj2 encoding_round_trip))) [[0; 9]; [10; 35]]).
    repeat constructor; lia.
Defined.

(** * Further properties *)

(** ** The scan for an empty cell *)

Lemma for_first_seq_first {B} (body : nat → outcome (option B)) a n y :
  for_first (seq a n) body = Done (Some y) →
  ∃ x, (a ≤ x < a + n)%nat ∧ body x = Done (Some y)
       ∧ ∀ x', (a ≤ x' < x)%nat → body x' = Done None.
Proof.
  revert a. induction n as [|n IH]; intros a; simpl; [discriminate|].
  destruct (body a) as [[b|]| |] eqn:E; simpl; try discriminate.
  - intros [= ->]. exists a. split; [lia|]. split; [done|]. intros; lia.
  - intros H. destruct (IH _ H) as (x & Hx & Hb & Hpre).
    exists x. split; [lia|]. split; [done|]. intros x' Hx'.
    destruct (decide (x' = a)) as [->|]; [done|]. apply Hpre. lia.
Qed.

Lemma for_first_raised {A B} (xs : list A) (body : A → outcome (option B)) e :
  for_first xs body = Raised e → ∃ x, x ∈ xs ∧ body x = Raised e.
Proof.
  induction xs as [|x xs IH]; simpl; [discriminate|].
  destruct (body x) as [[b|]| |] eqn:E; simpl; try discriminate.
  - intros H. destruct (IH H) as (x' & ? & ?). exists x'. split; [by right|done].
  - intros [= ->]. exists x. split; [left|done].
Qed.

Lemma scan_cell_None g r c :
  (v ← getitem g r c; if decide (v = 0) then Done (Some (r, c)) else Done None)
  = Done None →
  ∃ v, cell g r c = Some v ∧ v ≠ 0.
Proof.
  destruct (getitem g r c) as [v| |] eqn:E; simpl; try discriminate.
  case_decide; [discriminate|]. intros _. exists v. split; [by apply getitem_cell|done].
Qed.

Lemma find_empty_cell_before self r c :
  find_empty_cell self = Done (Some (r, c)) →
  ∀ r' c', (c' < size self)%nat → (r' < r ∨ (r' = r ∧ c' < c))%nat →
    ∃ v, cell (grid self) r' c' = Some v ∧ v ≠ 0.
Proof.
  intros H r' c' Hc' Hbefore. unfold find_empty_cell in H.
  apply for_first_seq_first in H as (r0 & Hr0 & Hrow & Hrows).
  apply for_first_seq_first in Hrow as (c0 & Hc0 & Hcell & Hcells).
  destruct (getitem (grid self) r0 c0) as [v| |]; simpl in Hcell; try discriminate.
  case_decide; [|discriminate]. injection Hcell as -> ->.
  destruct Hbefore as [Hlt|[-> Hlt]].
  - specialize (Hrows r' ltac:(lia)). rewrite for_first_None in Hrows.
    apply scan_cell_None, Hrows, elem_of_seq. lia.
  - apply scan_cell_None, Hcells. lia.
Qed.

(** X1: [find_empty_cell] returns the first empty cell in row-major
    order: the cell it returns is empty, and every cell scanned before it
    (the rows above, and the cells to its left in its row) is filled; it
    returns [None] only when all the [size] x [size] cells are filled; it
    can raise [IndexError] only, and on a well-formed grid it does not
    raise. *)
Theorem find_empty_cell_first (self : Sudoku) :
  (∀ r c, find_empty_cell self = Done (Some (r, c)) →
     cell (grid self) r c = Some 0 ∧ (r < size self ∧ c < size self)%nat
     ∧ ∀ r' c', (c' < size self)%nat → (r' < r ∨ (r' = r ∧ c' < c))%nat →
         ∃ v, cell (grid self) r' c' = Some v ∧ v ≠ 0)
  ∧ (find_empty_cell self = Done None →
     ∀ r c, (r < size self)%nat → (c < size self)%nat →
       ∃ v, cell (grid self) r c = Some v ∧ v ≠ 0)
  ∧ (∀ e, find_empty_cell self = Raised e → e = IndexError)
  ∧ (well_formed self → ∃ o, find_empty_cell self = Done o).
Proof.
  split; [|split; [|split]].
  - intros r c H. pose proof (find_empty_cell_Some _ _ _ H) as [Hz Hrc].
    split; [done|]. split; [done|]. by apply find_empty_cell_before.
  - intros H r c Hr Hc. unfold find_empty_cell in H. rewrite for_first_None in H.
    specialize (H r ltac:(apply elem_of_seq; lia)). rewrite for_first_None in H.
    apply scan_cell_None, H, elem_of_seq. lia.
  - intros e H. unfold find_empty_cell in H.
    apply for_first_raised in H as (r & _ & H).
    apply for_first_raised in H as (c & _ & H).
    unfold getitem in H.
    destruct (grid self !! r) as [row|]; simpl in H; [|congruence].
    destruct (row !! c) as [v|]; simpl in H; [|congruence].
    by destruct (decide (v = 0)).
  - apply find_empty_cell_total.
Qed.

Lemma find_empty_cell_first_witness :
  cell (grid (Solver.init grid4)) 0 2 = Some 0
  ∧ (0 < size (Solver.init grid4) ∧ 2 < size (Solver.init grid4))%nat
  ∧ ∀ r' c', (c' < size (Solver.init grid4))%nat → (r' < 0 ∨ (r' = 0 ∧ c' < 2))%nat →
      ∃ v, cell (grid (Solver.init grid4)) r' c' = Some v ∧ v ≠ 0.
Proof.
  apply (proj1 (find_empty_cell_first (Solver.init grid4)) 0%nat 2%nat).
  vm_compute. reflexivity.
Defined.

(** ** What the solver finds *)

Lemma search_changes valid n self b self' :
  search valid n self b self' →
  ∀ r c v, cell (grid self') r c = Some v →
    cell (grid self) r c = Some v
    ∨ (cell (grid self) r c = Some 0 ∧ 1 ≤ v ≤ Z.of_nat n).
Proof.
  induction 1 as [self|self Hf|self row col num g1 self' Hf Hn Hv Hs _ IH]; [by left..|].
  intros r c v Hc. destruct (IH r c v Hc) as [H|[H Hr]]; simpl in H.
  - rewrite (cell_setitem _ _ _ _ _ r c Hs) in H. case_decide as Hd; [|by left].
    destruct Hd as [-> ->]. injection H as <-. right.
    by apply find_empty_cell_Some in Hf as [Hf _].
  - rewrite (cell_setitem _ _ _ _ _ r c Hs) in H.
    case_decide; [injection H as ->; lia|by right].
Qed.

Lemma search_completion valid self self' :
  valid_check valid → search valid (size self) self true self' →
  well_formed self → in_range self → partial_invariant self →
  completion self self'.
Proof.
  intros Hvalid Hsearch Hwf Hrange Hinv.
  pose proof (search_keeps _ _ _ _ _ Hsearch) as (Hk & Hs & Hb & _).
  pose proof (search_well_formed _ _ _ _ _ Hsearch Hwf) as Hwf'.
  pose proof (search_in_range _ _ _ _ _ Hsearch ltac:(lia) Hrange) as Hrange'.
  split; [done|done| |by eapply search_partial_invariant].
  intros r c Hr Hc.
  destruct (proj2 (well_formed_cell self' r c Hwf')) as [v Hv]; [lia|].
  exists v. split; [done|]. pose proof (Hrange' _ _ _ Hv).
  assert (v ≠ 0); [|lia]. intros ->.
  eapply find_empty_cell_None; [exact Hwf'|by eapply search_true_full|exact Hv].
Qed.

(** The solver returns, and returns [True] when there is a completion. *)
Lemma solve_fuel_complete fuel self :
  well_formed self → (empty_count (grid self) < fuel)%nat →
  ∃ b self', Solver.solve fuel self = Done (b, self')
             ∧ ((∃ sol, completion self sol) → b = true).
Proof.
  intros Hwf Hc. rewrite solve_fuel_fill.
  destruct (fill_grid_complete ascending Solver.is_valid ascending_perm
              Solver_is_valid_check fuel (Z.of_nat (size self)) self ())
    as (b & self' & rng' & -> & Hb); [done|by rewrite Nat2Z.id|done|].
  by eexists _, _.
Qed.

(** X2: on a grid of the data model whose filled cells are free of
    conflicts, [solve] returns [True] exactly when the grid has a
    completion (a conflict-free assignment of values of [1 .. size] to
    all cells that agrees with the filled ones), and the grid it leaves
    is then such a completion; it returns [False] exactly when there is
    none. *)
Theorem solve_iff_completion (g : cells) (fuel : nat) :
  well_formed (Solver.init g) → in_range (Solver.init g) →
  partial_invariant (Solver.init g) →
  (empty_count g < fuel)%nat →
  ∃ b self',
    Solver.solve fuel (Solver.init g) = Done (b, self')
    ∧ (b = true ↔ ∃ sol, completion (Solver.init g) sol)
    ∧ (b = true → completion (Solver.init g) self').
Proof.
  intros Hwf Hrange Hinv Hfuel.
  destruct (solve_fuel_complete fuel (Solver.init g) Hwf Hfuel) as (b & self' & Hs & Hb).
  exists b, self'. split; [done|].
  assert (b = true → completion (Solver.init g) self') as Hc.
  { intros ->. apply solve_fuel_search in Hs.
    by apply (search_completion Solver.is_valid); [apply Solver_is_valid_check|..]. }
  split; [|done]. split; [|done]. intros Ht. exists self'. by apply Hc.
Qed.

Lemma solve_iff_completion_witness :
  ∃ b self',
    Solver.solve 16 (Solver.init unsolvable4) = Done (b, self')
    ∧ (b = true ↔ ∃ sol, completion (Solver.init unsolvable4) sol)
    ∧ (b = true → completion (Solver.init unsolvable4) self').
Proof.
  apply (solve_iff_completion unsolvable4 16).
  - repeat split; repeat constructor.
  - intros r c v H. cbn [grid size Solver.init] in *.
    peel r; peel c; cbn in H; try discriminate; injection H as <-; cbn; lia.
  - intros r1 c1 r2 c2 v H1 H2 Hv Hp. cbn [grid box_size Solver.init] in *.
    peel r1; peel c1; cbn in H1; try discriminate; injection H1 as <-; try done;
      peel r2; peel c2; cbn in H2; try discriminate; try done;
      exfalso; unfold same_box in Hp; cbn in Hp; intuition discriminate.
  - vm_compute. lia.
Defined.

Local Ltac grid4x4_in_range :=
  let r := fresh "r" in let c := fresh "c" in let v := fresh "v" in
  let H := fresh "H" in
  intros r c v H; cbn [grid size Solver.init] in *;
  peel r; peel c; cbn in H; try discriminate; injection H as <-; cbn; lia.

Local Ltac grid4x4_invariant :=
  let r1 := fresh "r" in let c1 := fresh "c" in
  let r2 := fresh "r" in let c2 := fresh "c" in
  let v := fresh "v" in let H1 := fresh "H" in let H2 := fresh "H" in
  let Hv := fresh "H" in let Hp := fresh "H" in
  intros r1 c1 r2 c2 v H1 H2 Hv Hp; cbn [grid box_size Solver.init] in *;
  peel r1; peel c1; cbn in H1; try discriminate; injection H1 as <-; try done;
  peel r2; peel c2; cbn in H2; try discriminate; try done;
  exfalso; unfold same_box in Hp; cbn in Hp; intuition discriminate.

Lemma cells_ext (s1 s2 : Sudoku) :
  well_formed s1 → well_formed s2 → size s1 = size s2 →
  (∀ r c, (r < size s1)%nat → (c < size s1)%nat →
          cell (grid s1) r c = cell (grid s2) r c) →
  grid s1 = grid s2.
Proof.
  intros (_ & Hl1 & Hr1) (_ & Hl2 & Hr2) Hsize Hcells.
  rewrite Forall_lookup in Hr1, Hr2.
  apply list_eq. intros r. destruct (decide (r < size s1)%nat) as [Hr|Hr].
  - destruct (lookup_lt_is_Some_2 (grid s1) r) as [row1 E1]; [lia|].
    destruct (lookup_lt_is_Some_2 (grid s2) r) as [row2 E2]; [lia|].
    rewrite E1, E2. f_equal. apply list_eq. intros c.
    destruct (decide (c < size s1)%nat) as [Hc|Hc].
    + specialize (Hcells r c Hr Hc). unfold cell in Hcells. by rewrite E1, E2 in Hcells.
    + rewrite !lookup_ge_None_2; [done|..].
      * rewrite (Hr2 _ _ E2). lia.
      * rewrite (Hr1 _ _ E1). lia.
  - rewrite !lookup_ge_None_2; [done|lia..].
Qed.

(** X3: when the grid has exactly one completion, [solve] returns [True]
    and leaves that completion in the grid. *)
Theorem solve_unique_solution (g : cells) (fuel : nat) (sol : Sudoku) :
  well_formed (Solver.init g) → in_range (Solver.init g) →
  partial_invariant (Solver.init g) →
  (empty_count g < fuel)%nat →
  completion (Solver.init g) sol → well_formed sol →
  (∀ sol', completion (Solver.init g) sol' →
     ∀ r c, (r < length g)%nat → (c < length g)%nat →
       cell (grid sol') r c = cell (grid sol) r c) →
  ∃ self', Solver.solve fuel (Solver.init g) = Done (true, self')
           ∧ grid self' = grid sol.
Proof.
  intros Hwf Hrange Hinv Hfuel Hsol Hwfsol Huniq.
  destruct (solve_fuel_complete fuel (Solver.init g) Hwf Hfuel) as (b & self' & Hs & Hb).
  rewrite Hb in Hs by by exists sol. exists self'. split; [done|].
  apply solve_fuel_search in Hs.
  pose proof (search_well_formed _ _ _ _ _ Hs Hwf) as Hwf'.
  pose proof (search_keeps _ _ _ _ _ Hs) as (_ & Hsize & _).
  assert (completion (Solver.init g) self') as Hc
    by (by apply (search_completion Solver.is_valid); [apply Solver_is_valid_check|..]).
  apply cells_ext; [done|done| |].
  - destruct Hsol as [[-> _] _ _ _]. done.
  - intros r c Hr Hc'. rewrite Hsize in Hr, Hc'. by apply Huniq.
Qed.

Lemma grid4_solved_completion :
  completion (Solver.init one_missing4) (Solver.init grid4_solved).
Proof.
  split.
  - done.
  - intros r c v H Hv. cbn [grid Solver.init] in *.
    peel r; peel c; cbn in H; try discriminate; injection H as <-; done.
  - intros r c Hr Hc. cbn [grid size Solver.init] in *.
    peel r; try (cbn in Hr; lia); peel c; try (cbn in Hc; lia);
      eexists; (split; [reflexivity|cbn; lia]).
  - grid4x4_invariant.
Qed.

Lemma one_missing4_unique sol' :
  completion (Solver.init one_missing4) sol' →
  ∀ r c, (r < 4)%nat → (c < 4)%nat →
    cell (grid sol') r c = cell (grid (Solver.init grid4_solved)) r c.
Proof.
  intros [[_ Hb] Hk Hfull Hok] r c Hr Hc.
  destruct (decide (r = 0 ∧ c = 0)%nat) as [[-> ->]|Hne].
  - destruct (Hfull 0%nat 0%nat) as (v & Hv & Hrange); [cbn; lia..|].
    cbn in Hrange. rewrite Hv. cbn. f_equal.
    assert (v ≠ 2) as N2.
    { intros ->. by destruct (Hok 0%nat 0%nat 0%nat 1%nat 2 Hv) as [_ ?];
        [by apply Hk|done|by left|]. }
    assert (v ≠ 4) as N4.
    { intros ->. by destruct (Hok 0%nat 0%nat 0%nat 2%nat 4 Hv) as [_ ?];
        [by apply Hk|done|by left|]. }
    assert (v ≠ 3) as N3.
    { intros ->. by destruct (Hok 0%nat 0%nat 0%nat 3%nat 3 Hv) as [_ ?];
        [by apply Hk|done|by left|]. }
    lia.
  - cbn [grid Solver.init] in Hk |- *.
    peel r; try lia; peel c; try lia; try (exfalso; apply Hne; done);
      by apply Hk.
Qed.

Lemma one_missing4_well_formed : well_formed (Solver.init one_missing4).
Proof. repeat split; repeat constructor. Qed.

Lemma one_missing4_in_range : in_range (Solver.init one_missing4).
Proof. grid4x4_in_range. Qed.

Lemma one_missing4_invariant : partial_invariant (Solver.init one_missing4).
Proof. grid4x4_invariant. Qed.

Lemma solve_unique_solution_witness :
  ∃ self', Solver.solve 2 (Solver.init one_missing4) = Done (true, self')
           ∧ grid self' = grid (Solver.init grid4_solved).
Proof.
  apply (solve_unique_solution one_missing4 2 (Solver.init grid4_solved)).
  - apply one_missing4_well_formed.
  - apply one_missing4_in_range.
  - apply one_missing4_invariant.
  - vm_compute. lia.
  - apply grid4_solved_completion.
  - repeat split; repeat constructor.
  - apply one_missing4_unique.
Defined.

(** X4: solving again a grid that [solve] has solved changes nothing and
    returns [True]. *)
Theorem solve_again (g : cells) (fuel fuel' : nat) (self' : Sudoku) :
  Solver.solve fuel (Solver.init g) = Done (true, self') →
  Solver.solve (S fuel') self' = Done (true, self').
Proof.
  intros H. apply solve_fuel_search, search_true_full in H. simpl. by rewrite H.
Qed.

Lemma solve_again_witness :
  Solver.solve 1 (Solver.init grid4_solved) = Done (true, Solver.init grid4_solved).
Proof.
  apply (solve_again grid4 9 0 (Solver.init grid4_solved)). vm_compute. reflexivity.
Defined.

(** X5: whatever it returns, [solve] keeps the shape of the grid and its
    dimensions, and a cell whose content has changed was empty and now
    holds a value of [1 .. size]. *)
Theorem solve_writes_only_empty (g : cells) (fuel : nat) (b : bool) (self' : Sudoku) :
  Solver.solve fuel (Solver.init g) = Done (b, self') →
  length <$> grid self' = length <$> g
  ∧ size self' = length g ∧ box_size self' = Nat.sqrt (length g)
  ∧ ∀ r c v, cell (grid self') r c = Some v →
      cell g r c = Some v ∨ (cell g r c = Some 0 ∧ 1 ≤ v ≤ Z.of_nat (length g)).
Proof.
  intros H. apply solve_fuel_search in H.
  pose proof (search_keeps _ _ _ _ _ H) as (_ & Hs & Hb & Hsh).
  do 3 (split; [done|]). apply (search_changes _ _ _ _ _ H).
Qed.

Lemma solve_writes_only_empty_witness :
  length <$> grid (Solver.init grid4_solved) = length <$> grid4
  ∧ size (Solver.init grid4_solved) = length grid4
  ∧ box_size (Solver.init grid4_solved) = Nat.sqrt (length grid4)
  ∧ ∀ r c v, cell (grid (Solver.init grid4_solved)) r c = Some v →
      cell grid4 r c = Some v ∨ (cell grid4 r c = Some 0 ∧ 1 ≤ v ≤ Z.of_nat (length grid4)).
Proof.
  apply (solve_writes_only_empty grid4 9 true (Solver.init grid4_solved)).
  vm_compute. reflexivity.
Defined.

(** ** The solution the solver returns *)

Lemma ascending_split (a k : nat) pre (x : Z) post :
  Z.of_nat <$> seq a k = pre ++ x :: post →
  (∀ y, y ∈ pre → y < x) ∧ (∀ y, y ∈ post → x < y).
Proof.
  revert a pre. induction k as [|k IH]; intros a pre; simpl.
  { by destruct pre. }
  destruct pre as [|p pre]; simpl; intros [= <- Hrest].
  - split; [intros y Hy; by apply elem_of_nil in Hy|].
    intros y Hy. rewrite <- Hrest in Hy.
    apply list_elem_of_fmap in Hy as (j & -> & Hj). apply elem_of_seq in Hj. lia.
  - destruct (IH _ _ Hrest) as [Hpre Hpost]. split; [|done].
    intros y [->|Hy]%elem_of_cons; [|by apply Hpre].
    assert (x ∈ pre ++ x :: post) as Hx by (apply elem_of_app; right; left).
    rewrite <- Hrest in Hx.
    apply list_elem_of_fmap in Hx as (j & -> & Hj). apply elem_of_seq in Hj. lia.
Qed.

Lemma try_numbers_first rec row col nums self self' :
  (∀ s s', rec s = Done (false, s') → s' = s) →
  (∀ s s', well_formed s → rec s = Done (false, s') → ¬ ∃ sol, completion s sol) →
  well_formed self → find_empty_cell self = Done (Some (row, col)) →
  Solver.try_numbers rec row col nums self = Done (true, self') →
  ∃ pre num post g1,
    nums = pre ++ num :: post
    ∧ setitem (grid self) row col num = Done g1
    ∧ rec (with_grid self g1) = Done (true, self')
    ∧ ∀ sol w, completion self sol → cell (grid sol) row col = Some w → w ∉ pre.
Proof.
  intros Hrestore Hnone Hwf Hf.
  pose proof (find_empty_cell_Some _ _ _ Hf) as (Hz & Hr & Hc).
  destruct Solver_is_valid_check as [_ Hvalid].
  induction nums as [|num rest IH]; simpl; [discriminate|].
  destruct (Hvalid self row col num Hwf Hr Hc) as (ok & -> & Hok). simpl.
  destruct ok.
  - destruct (setitem (grid self) row col num) as [g1| |] eqn:Hs; simpl; try discriminate.
    destruct (rec (with_grid self g1)) as [[[|] s2]| |] eqn:Hrec; simpl; try discriminate.
    + intros [= <-]. exists [], num, rest, g1. do 3 (split; [done|]).
      intros sol w _ _ Hw. by apply elem_of_nil in Hw.
    + pose proof (Hrestore _ _ Hrec) as ->. simpl.
      rewrite (setitem_undo _ _ _ _ _ _ Hz Hs). simpl.
      rewrite with_grid_twice, with_grid_id. intros H.
      destruct (IH H) as (pre & num' & post & g1' & -> & Hs' & Hrec' & Hpre).
      exists (num :: pre), num', post, g1'. do 3 (split; [done|]).
      intros sol w Hsol Hw [->|Hin]%elem_of_cons; [|by eapply Hpre].
      apply (Hnone _ _ (well_formed_setitem _ _ _ _ _ Hs Hwf) Hrec).
      exists sol. by eapply completion_place.
  - intros H. destruct (IH H) as (pre & num' & post & g1' & -> & Hs' & Hrec' & Hpre).
    exists (num :: pre), num', post, g1'. do 3 (split; [done|]).
    intros sol w Hsol Hw [->|Hin]%elem_of_cons; [|by eapply Hpre].
    assert (placeable self row col num) as Hp by by eapply completion_placeable.
    apply Hok in Hp. discriminate.
Qed.

Lemma solve_false_no_completion fuel self self' :
  well_formed self → Solver.solve fuel self = Done (false, self') →
  ¬ ∃ sol, completion self sol.
Proof.
  intros Hwf Hs Hsol.
  destruct (solve_fuel_complete (fuel + S (empty_count (grid self))) self Hwf ltac:(lia))
    as (b & s & Hs' & Hb).
  rewrite (Hb Hsol) in Hs'.
  apply (solve_fuel_mono _ (fuel + S (empty_count (grid self)))) in Hs; [|lia].
  congruence.
Qed.

Lemma solve_first fuel self self' sol :
  well_formed self → Solver.solve fuel self = Done (true, self') →
  completion self sol →
  (∀ r c, (r < size self)%nat → (c < size self)%nat →
          cell (grid self') r c = cell (grid sol) r c)
  ∨ ∃ r c v w,
      (r < size self ∧ c < size self)%nat
      ∧ cell (grid self') r c = Some v ∧ cell (grid sol) r c = Some w ∧ v < w
      ∧ ∀ r' c', (c' < size self)%nat → (r' < r ∨ (r' = r ∧ c' < c))%nat →
          cell (grid self') r' c' = cell (grid sol) r' c'.
Proof.
  revert self. induction fuel as [|fuel IH]; intros self Hwf Hs Hsol; [discriminate|].
  pose proof (solve_fuel_search _ _ _ _ Hs) as Hsearch.
  pose proof (search_keeps _ _ _ _ _ Hsearch) as (Hk & _).
  simpl in Hs.
  destruct (find_empty_cell self) as [[[row col]|]| |] eqn:Hf; simpl in Hs; try discriminate.
  - apply try_numbers_first in Hs
      as (pre & num & post & g1 & Hnums & Hset & Hrec & Hpre); [| |by apply solve_false_no_completion|done..].
    2:{ intros s s' H. by apply solve_fuel_search, search_false in H. }
    pose proof (find_empty_cell_Some _ _ _ Hf) as (Hz & Hr & Hc).
    destruct (completion_full _ _ Hsol row col Hr Hc) as (w & Hw & Hrange).
    destruct (ascending_split _ _ _ _ _ Hnums) as [Hlt Hgt].
    assert (w ∈ candidates (size self)) as Hin by by apply elem_of_candidates.
    rewrite Hnums in Hin. apply elem_of_app in Hin as [Hin|Hin];
      [by apply (Hpre sol w) in Hin|].
    pose proof (solve_fuel_search _ _ _ _ Hrec) as Hsearch'.
    pose proof (search_keeps _ _ _ _ _ Hsearch') as (Hk' & _).
    assert (num ≠ 0) as Hnum.
    { assert (num ∈ candidates (size self)) as Hn
        by (rewrite Hnums; apply elem_of_app; right; left).
      apply elem_of_candidates in Hn. lia. }
    assert (cell (grid self') row col = Some num) as Hnew.
    { apply Hk'; [|done]. simpl. rewrite (cell_setitem _ _ _ _ _ row col Hset).
      by rewrite decide_True. }
    apply elem_of_cons in Hin as [->|Hin].
    + apply (IH (with_grid self g1)); [by eapply well_formed_setitem|done|].
      by eapply completion_place.
    + right. exists row, col, num, w. split; [done|]. do 2 (split; [done|]).
      split; [by apply Hgt|]. intros r' c' Hc' Hbefore.
      destruct (find_empty_cell_before _ _ _ Hf r' c' Hc' Hbefore) as (v & Hv & Hne).
      rewrite (Hk _ _ _ Hv Hne). symmetry. by apply (completion_keeps _ _ Hsol).
  - injection Hs as <-. left. intros r c Hr Hc.
    destruct (proj2 (well_formed_cell self r c Hwf)) as [v Hv]; [done|].
    rewrite Hv. symmetry. apply (completion_keeps _ _ Hsol); [done|].
    intros ->. by eapply find_empty_cell_None.
Qed.

(** X6: the grid [solve] returns is the first completion in the order of
    the search: compared with any completion of the input grid, either it
    is the same on the whole grid, or at the first cell in row-major
    order where the two differ it holds the smaller value. *)
Theorem solve_first_solution (g : cells) (fuel : nat) (self' sol : Sudoku) :
  well_formed (Solver.init g) →
  Solver.solve fuel (Solver.init g) = Done (true, self') →
  completion (Solver.init g) sol →
  (∀ r c, (r < length g)%nat → (c < length g)%nat →
          cell (grid self') r c = cell (grid sol) r c)
  ∨ ∃ r c v w,
      (r < length g ∧ c < length g)%nat
      ∧ cell (grid self') r c = Some v ∧ cell (grid sol) r c = Some w ∧ v < w
      ∧ ∀ r' c', (c' < length g)%nat → (r' < r ∨ (r' = r ∧ c' < c))%nat →
          cell (grid self') r' c' = cell (grid sol) r' c'.
Proof. apply solve_first. Qed.

Lemma solve_first_solution_witness :
  (∀ r c, (r < 4)%nat → (c < 4)%nat →
          cell (grid (Solver.init grid4_expected)) r c = cell (grid (pattern_grid 2)) r c)
  ∨ ∃ r c v w,
      (r < 4 ∧ c < 4)%nat
      ∧ cell (grid (Solver.init grid4_expected)) r c = Some v
      ∧ cell (grid (pattern_grid 2)) r c = Some w ∧ v < w
      ∧ ∀ r' c', (c' < 4)%nat → (r' < r ∨ (r' = r ∧ c' < c))%nat →
          cell (grid (Solver.init grid4_expected)) r' c'
          = cell (grid (pattern_grid 2)) r' c'.
Proof.
  apply (solve_first_solution [[0;0;0;0]; [0;0;0;0]; [0;0;0;0]; [0;0;0;0]] 17
           (Solver.init grid4_expected) (pattern_grid 2)).
  - repeat split; repeat constructor.
  - vm_compute. reflexivity.
  - exact (empty_grid_completion 2).
Defined.

(** ** Copies *)

Lemma sqrt_of_nat (n : nat) : Z.sqrt (Z.of_nat n) = Z.of_nat (Nat.sqrt n).
Proof.
  apply Z.sqrt_unique. pose proof (Nat.sqrt_spec n ltac:(lia)) as H. simpl in H. lia.
Qed.

Lemma init_of_well_formed self : well_formed self → Solver.init (grid self) = self.
Proof.
  destruct self as [g n b]. intros (Hb & Hl & _). simpl in *. unfold Solver.init.
  rewrite Hl, Hb, Nat.sqrt_square. done.
Qed.

Lemma with_grid_same_dims s s' :
  size s' = size s → box_size s' = box_size s → with_grid s (grid s') = s'.
Proof. destruct s, s'. simpl. by intros -> ->. Qed.

Lemma copy_well_formed self : well_formed self → UtilsFiles.copy self = Done self.
Proof.
  intros Hwf. pose proof Hwf as (Hb & _). unfold UtilsFiles.copy.
  rewrite Hb, init_square. simpl. destruct self as [g n b]. simpl in *. by subst.
Qed.

(** X7: [copy] builds the new grid through the constructor.  For a grid
    object of a size below [(2 ^ 53 + 1) ^ 2], the first perfect square
    that the constructor's double-precision test refuses: [copy] is the
    constructor [SudokuGrid.__init__] at the size of the grid followed by
    the copy of the rows; the copy of a well-formed grid is equal to the
    grid; a copy, when there is one, has the rows and the size of the
    original and the integer square root of the size as [box_size]; and a
    grid whose [size] is not a perfect square cannot be copied,
    [ValueError] is raised. *)
Theorem copy_spec (self : Sudoku) :
  Z.of_nat (size self) < (2 ^ 53 + 1) ^ 2 →
  UtilsFiles.copy self
  = (new_grid ← Utils.__init__ (Z.of_nat (size self));
     Done (with_grid new_grid (grid self)))
  ∧ (well_formed self → UtilsFiles.copy self = Done self)
  ∧ (∀ s', UtilsFiles.copy self = Done s' →
       grid s' = grid self ∧ size s' = size self
       ∧ box_size s' = Nat.sqrt (size self)
       ∧ (Nat.sqrt (size self) * Nat.sqrt (size self))%nat = size self)
  ∧ ((Nat.sqrt (size self) * Nat.sqrt (size self))%nat ≠ size self →
       UtilsFiles.copy self = Raised ValueError).
Proof.
  intros Hsize. split.
  { unfold UtilsFiles.copy. by rewrite init_exact by lia. }
  split; [apply copy_well_formed|].
  unfold UtilsFiles.copy, Utils.init. rewrite decide_False by lia.
  rewrite sqrt_of_nat.
  split.
  - intros s'. case_decide as Hd; simpl; [discriminate|]. intros [= <-]. simpl.
    rewrite !Nat2Z.id. do 3 (split; [done|]).
    nia.
  - intros Hne. rewrite decide_True; [done|]. lia.
Qed.

Lemma copy_spec_witness : UtilsFiles.copy (Solver.init grid4) = Done (Solver.init grid4).
Proof.
  apply (proj1 (proj2 (copy_spec (Solver.init grid4) ltac:(vm_compute; reflexivity)))).
  apply grid4_well_formed.
Defined.

Lemma unsolvable4_well_formed : well_formed (Solver.init unsolvable4).
Proof. repeat split; repeat constructor. Qed.

Lemma unsolvable4_in_range : in_range (Solver.init unsolvable4).
Proof. grid4x4_in_range. Qed.

Lemma unsolvable4_invariant : partial_invariant (Solver.init unsolvable4).
Proof. grid4x4_invariant. Qed.

(** ** Generated puzzles *)

Lemma blank_cells_cell indices positions g g' :
  blank_cells indices positions g = Done g' →
  length <$> g' = length <$> g
  ∧ ∀ r c, cell g' r c = cell g r c ∨ (cell g' r c = Some 0 ∧ is_Some (cell g r c)).
Proof.
  revert g. induction indices as [|i rest IH]; intros g; simpl.
  { intros [= <-]. split; [done|]. by left. }
  destruct (positions !! i) as [[row col]|]; [|discriminate].
  destruct (setitem g row col 0) as [g1| |] eqn:Hs; simpl; try discriminate.
  intros H. destruct (IH _ H) as [Hsh Hcells]. split.
  { rewrite Hsh. by eapply setitem_shape. }
  intros r c. pose proof (cell_setitem _ _ _ _ _ r c Hs) as Hc.
  assert (is_Some (cell g row col)) as Hsome.
  { clear -Hs. unfold setitem in Hs. unfold cell.
    destruct (g !! row) as [rw|]; [|discriminate]. simpl.
    destruct (decide (col < length rw)%nat); [|discriminate].
    by apply lookup_lt_is_Some. }
  destruct (Hcells r c) as [E|[E Hs']]; rewrite E.
  - rewrite Hc. case_decide as Hd; [|by left]. destruct Hd as [-> ->]. by right.
  - right. split; [done|]. rewrite Hc in Hs'. case_decide as Hd; [|done].
    by destruct Hd as [-> ->].
Qed.

Section PuzzleSolvable.

Context {R : Type}.
Variable shuffle : ∀ A : Type, list A → R → list A * R.
Variable valid : Sudoku → nat → nat → Z → outcome bool.
Variable multiplier : string → Z.
Hypothesis shuffle_perm : ∀ A (l : list A) rng, (shuffle A l rng).1 ≡ₚ l.
Hypothesis valid_ok : valid_check valid.

(** [_fill_grid] on a grid whose filled cells are free of conflicts. *)
Lemma fill_grid_decides fuel self rng :
  well_formed self → in_range self → partial_invariant self →
  (empty_count (grid self) < fuel)%nat →
  ∃ b self' rng',
    fill_grid_fuel shuffle valid fuel (Z.of_nat (size self)) self rng
    = Done (b, self', rng')
    ∧ (b = true ↔ ∃ sol, completion self sol)
    ∧ (b = true → completion self self' ∧ well_formed self')
    ∧ (b = false → self' = self).
Proof.
  intros Hwf Hrange Hinv Hfuel.
  destruct (fill_grid_complete shuffle valid shuffle_perm valid_ok
              fuel (Z.of_nat (size self)) self rng)
    as (b & self' & rng' & Hfill & Hb); [done|by rewrite Nat2Z.id|done|].
  exists b, self', rng'. split; [done|].
  apply fill_grid_search in Hfill; [|done]. rewrite Nat2Z.id in Hfill.
  assert (b = true → completion self self' ∧ well_formed self') as Hc.
  { intros ->. split; [by apply (search_completion valid)|].
    by eapply search_well_formed. }
  split; [|split; [done|]].
  - split; [|done]. intros Ht. exists self'. by apply Hc.
  - intros ->. by apply search_false in Hfill.
Qed.

Lemma generate_complete_grid_completion (b fuel : nat) rng :
  (b * b * (b * b) < fuel)%nat →
  ∃ full rng',
    generate_complete_grid_fuel shuffle valid fuel (Z.of_nat (b * b)) rng
    = Done (full, rng')
    ∧ well_formed full ∧ size full = (b * b)%nat ∧ box_size full = b
    ∧ in_range full ∧ partial_invariant full ∧ no_empty_cell (grid full).
Proof.
  intros Hfuel. unfold generate_complete_grid_fuel. rewrite init_square. simpl.
  set (empty := {| grid := _ |}).
  pose proof (empty_grid_well_formed b) as Hwf. fold empty in Hwf.
  assert (in_range empty) as Hrange.
  { intros r c v. unfold empty. simpl. rewrite cell_replicate.
    case_decide; [|done]. intros [= <-]. lia. }
  assert (partial_invariant empty) as Hinv.
  { intros r1 c1 r2 c2 v. unfold empty. simpl. rewrite cell_replicate.
    case_decide; [|done]. by intros [= <-]. }
  destruct (fill_grid_decides fuel empty rng Hwf Hrange Hinv)
    as (ok & full & rng' & Hfill & Hiff & Hc & _).
  { unfold empty_count, empty. simpl.
    eapply Nat.le_lt_trans; [apply length_filter|].
    rewrite length_join.
    rewrite (sum_list_fmap_same (b * b)) by (apply Forall_replicate, length_replicate).
    by rewrite length_replicate. }
  change (size empty) with (b * b)%nat in Hfill.
  rewrite Hfill. simpl. exists full, rng'. split; [done|].
  assert (ok = true) as ->
    by (apply Hiff; exists (pattern_grid b); apply empty_grid_completion).
  destruct Hc as [[[Hs Hb] Hk Hfull Hok] Hwf']; [done|].
  split; [done|]. split; [done|]. split; [done|].
  assert (∀ r c v, cell (grid full) r c = Some v → 1 ≤ v ≤ Z.of_nat (size full)) as Hvals.
  { intros r c v Hv.
    assert (r < size full ∧ c < size full)%nat as [Hr Hc']
      by (apply well_formed_cell; [done|by eexists]).
    rewrite Hs in Hr, Hc'. destruct (Hfull r c Hr Hc') as (w & Hw & Hrng).
    rewrite Hs. congruence. }
  split; [|split; [done|]].
  - intros r c v Hv. pose proof (Hvals _ _ _ Hv). lia.
  - intros r c Hz. pose proof (Hvals _ _ _ Hz). lia.
Qed.

Lemma create_puzzle_completion (b fuel : nat) difficulty rng :
  (b * b * (b * b) < fuel)%nat →
  ∃ puzzle rng' full,
    create_puzzle_fuel shuffle valid multiplier fuel (Z.of_nat (b * b)) difficulty rng
    = Done (puzzle, rng')
    ∧ well_formed puzzle ∧ in_range puzzle ∧ partial_invariant puzzle
    ∧ completion puzzle full ∧ size puzzle = (b * b)%nat.
Proof.
  intros Hfuel. unfold create_puzzle_fuel.
  destruct (generate_complete_grid_completion b fuel rng Hfuel)
    as (full & rng1 & -> & Hwf & Hsize & Hbox & Hrange & Hinv & Hfull). simpl.
  pose proof (shuffle_perm _ (all_positions (Z.to_nat (Z.of_nat (b * b)))) rng1) as Hperm.
  destruct (shuffle _ _ rng1) as [positions rng2]. simpl in Hperm.
  rewrite Nat2Z.id in Hperm.
  destruct (blank_cells_seq positions (grid full) 0
              (Z.to_nat (cells_to_remove multiplier (Z.of_nat (b * b)) difficulty)))
    as (g' & Hblank & _ & _).
  - rewrite Hperm. unfold all_positions. rewrite length_pairs, !length_seq.
    unfold cells_to_remove. lia.
  - rewrite Hperm. apply NoDup_pairs; apply NoDup_seq.
  - intros p Hp. rewrite Hperm in Hp. apply elem_of_pairs in Hp as [H1 H2].
    apply elem_of_seq in H1, H2. apply well_formed_cell; [done|lia].
  - intros j p _ _. apply Hfull.
  - rewrite Hblank. simpl. destruct (blank_cells_cell _ _ _ _ Hblank) as [Hsh Hcells].
    exists (with_grid full g'), rng2, full. split; [done|].
    assert (keeps_filled g' (grid full)) as Hk.
    { intros r c v Hv Hne. destruct (Hcells r c) as [E|[E _]]; congruence. }
    split; [by apply well_formed_shape|]. split; [|split; [|split; [|done]]].
    + intros r c v Hv. simpl in *. destruct (Hcells r c) as [E|[E _]].
      * apply (Hrange r c v). congruence.
      * assert (v = 0) as -> by congruence. lia.
    + intros r1 c1 r2 c2 v H1 H2 Hv. simpl in *.
      apply (Hinv r1 c1 r2 c2 v); [by apply Hk|by apply Hk|done].
    + split; simpl; [done|done| |done].
      intros r c Hr Hc.
      destruct (proj2 (well_formed_cell full r c Hwf)) as [v Hv]; [done|].
      exists v. split; [done|]. pose proof (Hrange _ _ _ Hv).
      assert (v ≠ 0) by (intros ->; by eapply Hfull). lia.
Qed.

End PuzzleSolvable.



(** X10: whatever the shuffles return, [_fill_grid] on a grid of the
    data model whose filled cells are free of conflicts returns [True]
    exactly when the grid has a completion, and then leaves a completion
    in the grid; when it returns [False] the grid is as it was. *)
Theorem fill_grid_iff_completion {R : Type}
    (shuffle : ∀ A : Type, list A → R → list A * R)
    (self : Sudoku) (fuel : nat) (rng : R) :
  (∀ A (l : list A) r, (shuffle A l r).1 ≡ₚ l) →
  well_formed self → in_range self → partial_invariant self →
  (empty_count (grid self) < fuel)%nat →
  ∃ b self' rng',
    Generator._fill_grid shuffle fuel (Z.of_nat (size self)) self rng
    = Done (b, self', rng')
    ∧ (b = true ↔ ∃ sol, completion self sol)
    ∧ (b = true → completion self self')
    ∧ (b = false → self' = self).
Proof.
  intros Hperm Hwf Hrange Hinv Hfuel.
  destruct (fill_grid_decides shuffle Utils.is_valid Hperm Utils_is_valid_check
              fuel self rng Hwf Hrange Hinv Hfuel)
    as (b & self' & rng' & Hfill & Hiff & Hc & Hf).
  exists b, self', rng'. do 2 (split; [done|]). split; [|done].
  intros Hb. by apply Hc.
Qed.

Lemma fill_grid_iff_completion_witness :
  ∃ b self' rng',
    Generator._fill_grid descending 9 (Z.of_nat (size (Solver.init grid4)))
      (Solver.init grid4) () = Done (b, self', rng')
    ∧ (b = true ↔ ∃ sol, completion (Solver.init grid4) sol)
    ∧ (b = true → completion (Solver.init grid4) self')
    ∧ (b = false → self' = Solver.init grid4).
Proof.
  apply (fill_grid_iff_completion descending (Solver.init grid4) 9 ()).
  - apply descending_perm.
  - apply grid4_well_formed.
  - apply grid4_in_range.
  - apply grid4_partial_invariant.
  - vm_compute. lia.
Defined.

(** ** Loops over a list *)

Lemma for_each_inv {A St} (I : nat → St → Prop) (E : exn → Prop)
    (xs : list A) (body : A → St → outcome St) (s0 : St) :
  I 0%nat s0 →
  (∀ k x s, xs !! k = Some x → I k s →
     match body x s with
     | Done s' => I (S k) s'
     | Raised e => E e
     | OutOfFuel => False
     end) →
  match for_each xs body s0 with
  | Done s' => I (length xs) s'
  | Raised e => E e
  | OutOfFuel => False
  end.
Proof.
  revert I s0. induction xs as [|x xs IH]; intros I s0 H0 Hstep; simpl; [done|].
  pose proof (Hstep 0%nat x s0 eq_refl H0) as Hx.
  destruct (body x s0) as [s1| |]; simpl; [|done..].
  apply (IH (fun k => I (S k))); [done|]. intros k y s Hy. apply (Hstep (S k)). done.
Qed.

Lemma lookup_enumerate {A} (xs : list A) k :
  enumerate xs !! k = (fun x => (k, x)) <$> xs !! k.
Proof.
  unfold enumerate.
  assert (∀ a, zip (seq a (length xs)) xs !! k = (fun x => ((a + k)%nat, x)) <$> xs !! k)
    as H; [|apply (H 0%nat)].
  revert k. induction xs as [|x xs IH]; intros k a; simpl; [done|].
  destruct k as [|k]; simpl; [by rewrite Nat.add_0_r|].
  rewrite IH. by rewrite Nat.add_succ_r.
Qed.

Lemma length_enumerate {A} (xs : list A) : length (enumerate xs) = length xs.
Proof. unfold enumerate. rewrite length_zip_with, length_seq. lia. Qed.

(** ** Reading the text of a grid *)

Lemma char_to_value_cases (c : ascii) :
  (∃ v, Utils.char_to_value c = Done v ∧ 0 ≤ v ≤ 35)
  ∨ Utils.char_to_value c = Raised ValueError.
Proof.
  destruct c as [[] [] [] [] [] [] [] []];
    set (r := Utils.char_to_value _); vm_compute in r; subst r;
    first [right; reflexivity | left; eexists; split; [reflexivity|lia]].
Qed.

Lemma decode_good c v :
  Utils.char_to_value c = Done v → decode c = v ∧ 0 ≤ v ≤ 35.
Proof.
  intros H. unfold decode. rewrite H. split; [done|].
  destruct (char_to_value_cases c) as [(v' & Hv & Hr)|Hv]; congruence.
Qed.

Lemma load_row (n i : nat) (chars : list ascii) (g : cells) (row0 : list Z)
    (body : nat * ascii → cells → outcome cells) :
  (∀ j char g,
     body (j, char) g
     = (num ← Utils.char_to_value char;
        if bool_decide (num < 0 ∨ num > Z.of_nat n) then Raised ValueError
        else setitem g i j num)) →
  g !! i = Some row0 → length row0 = length chars →
  match for_each (enumerate chars) body g with
  | Done g' => Forall (good_char n) chars ∧ g' = <[i := decode <$> chars]> g
  | Raised e => e = ValueError ∧ ¬ Forall (good_char n) chars
  | OutOfFuel => False
  end.
Proof.
  intros Hbody Hi Hlen.
  pose proof (for_each_inv
    (fun k g' => Forall (good_char n) (take k chars)
                 ∧ g' = <[i := (decode <$> take k chars) ++ drop k row0]> g)
    (fun e => e = ValueError ∧ ¬ Forall (good_char n) chars)
    (enumerate chars) body g) as H.
  rewrite length_enumerate in H.
  assert (∀ k char, chars !! k = Some char → ¬ good_char n char →
                    ¬ Forall (good_char n) chars) as Hbad.
  { intros k char Hk Hng Hall. rewrite Forall_lookup in Hall. by apply Hng, (Hall k). }
  assert (Forall (good_char n) (take 0 chars)
          ∧ g = <[i := (decode <$> take 0 chars) ++ drop 0 row0]> g) as H0.
  { split; [constructor|]. simpl. symmetry. by apply list_insert_id. }
  specialize (H H0). clear H0.
  assert (∀ k x s, enumerate chars !! k = Some x →
            Forall (good_char n) (take k chars)
            ∧ s = <[i := (decode <$> take k chars) ++ drop k row0]> g →
            match body x s with
            | Done s' => Forall (good_char n) (take (S k) chars)
                         ∧ s' = <[i := (decode <$> take (S k) chars) ++ drop (S k) row0]> g
            | Raised e => e = ValueError ∧ ¬ Forall (good_char n) chars
            | OutOfFuel => False
            end) as Hstep.
  { intros k [j char] s Hk [Hgood ->]. rewrite lookup_enumerate in Hk.
    destruct (chars !! k) as [char'|] eqn:Hchar; [|discriminate].
    injection Hk as <- <-. rewrite Hbody.
    destruct (char_to_value_cases char') as [(v & Hv & Hr)|Hv]; rewrite Hv; simpl.
    - case_bool_decide as Hd.
      { split; [done|]. apply (Hbad k char' Hchar). intros (v' & Hv' & Hle).
        assert (v' = v) by congruence. lia. }
      assert (k < length chars)%nat as Hlt by (by eapply lookup_lt_Some).
      unfold setitem.
      rewrite list_lookup_insert_eq by (by eapply lookup_lt_Some).
      rewrite decide_True
        by (rewrite length_app, length_fmap, length_take, length_drop; lia).
      split.
      { rewrite (take_S_r _ _ _ Hchar). apply Forall_app. split; [done|].
        constructor; [|constructor]. exists v. split; [done|lia]. }
      rewrite list_insert_insert_eq. f_equal.
      rewrite (take_S_r _ _ _ Hchar), fmap_app. simpl.
      destruct (decode_good _ _ Hv) as [-> _].
      destruct (lookup_lt_is_Some_2 row0 k) as [x Hx]; [lia|].
      rewrite (drop_S _ _ _ Hx).
      rewrite <- (assoc_L (++)). simpl.
      replace k with (length (decode <$> take k chars) + 0)%nat at 1
        by (rewrite length_fmap, length_take; lia).
      by rewrite insert_app_r.
    - split; [done|]. apply (Hbad k char' Hchar). intros (v' & Hv' & _). congruence. }
  specialize (H Hstep).
  destruct (for_each (enumerate chars) body g) as [g'| |]; [|done..].
  destruct H as [Hgood ->]. rewrite take_ge in Hgood by lia. split; [done|].
  rewrite take_ge, drop_ge by lia. by rewrite app_nil_r.
Qed.

Lemma load_rows (n : nat) (lines : list (list ascii)) (g0 : cells)
    (body : nat * list ascii → cells → outcome cells)
    (inner : nat → nat * ascii → cells → outcome cells) :
  (∀ i line g,
     body (i, line) g
     = if decide (length (UtilsFiles.remove_spaces line) ≠ n) then Raised ValueError
       else for_each (enumerate (UtilsFiles.remove_spaces line)) (inner i) g) →
  (∀ i j char g,
     inner i (j, char) g
     = (num ← Utils.char_to_value char;
        if bool_decide (num < 0 ∨ num > Z.of_nat n) then Raised ValueError
        else setitem g i j num)) →
  length g0 = length lines → Forall (fun row => length row = n) g0 →
  match for_each (enumerate lines) body g0 with
  | Done g' =>
      Forall (good_line n) lines
      ∧ g' = (fun line => decode <$> UtilsFiles.remove_spaces line) <$> lines
  | Raised e => e = ValueError ∧ ¬ Forall (good_line n) lines
  | OutOfFuel => False
  end.
Proof.
  intros Hbody Hinner Hlen Hrows.
  set (dec := fun line => decode <$> UtilsFiles.remove_spaces line).
  pose proof (for_each_inv
    (fun k g' => Forall (good_line n) (take k lines)
                 ∧ g' = (dec <$> take k lines) ++ drop k g0)
    (fun e => e = ValueError ∧ ¬ Forall (good_line n) lines)
    (enumerate lines) body g0) as H.
  rewrite length_enumerate in H.
  assert (∀ k line, lines !! k = Some line → ¬ good_line n line →
                    ¬ Forall (good_line n) lines) as Hbad.
  { intros k line Hk Hng Hall. rewrite Forall_lookup in Hall. by apply Hng, (Hall k). }
  specialize (H ltac:(split; [constructor|done])).
  assert (∀ k x s, enumerate lines !! k = Some x →
            Forall (good_line n) (take k lines)
            ∧ s = (dec <$> take k lines) ++ drop k g0 →
            match body x s with
            | Done s' => Forall (good_line n) (take (S k) lines)
                         ∧ s' = (dec <$> take (S k) lines) ++ drop (S k) g0
            | Raised e => e = ValueError ∧ ¬ Forall (good_line n) lines
            | OutOfFuel => False
            end) as Hstep.
  { intros k [i line] s Hk [Hgood ->]. rewrite lookup_enumerate in Hk.
    destruct (lines !! k) as [line'|] eqn:Hline; [|discriminate].
    injection Hk as <- <-. rewrite Hbody.
    assert (k < length lines)%nat as Hlt by (by eapply lookup_lt_Some).
    case_decide as Hd.
    { split; [done|]. apply (Hbad k line' Hline). by intros [? _]. }
    destruct (lookup_lt_is_Some_2 g0 k) as [row0 Hrow0]; [lia|].
    assert (length (dec <$> take k lines) = k) as Hpre
      by (rewrite length_fmap, length_take; lia).
    pose proof (load_row n k (UtilsFiles.remove_spaces line')
                  ((dec <$> take k lines) ++ drop k g0) row0 (inner k)
                  (Hinner k)) as Hrow.
    rewrite lookup_app_r, Hpre, Nat.sub_diag, lookup_drop, Nat.add_0_r in Hrow by lia.
    specialize (Hrow Hrow0).
    rewrite Forall_lookup in Hrows. rewrite (Hrows _ _ Hrow0) in Hrow.
    assert (n = length (UtilsFiles.remove_spaces line')) as Hn by (symmetry; tauto).
    specialize (Hrow Hn).
    destruct (for_each _ (inner k) _) as [g'| |]; [|..].
    - destruct Hrow as [Hchars ->]. split.
      + rewrite (take_S_r _ _ _ Hline). apply Forall_app. split; [done|].
        constructor; [|constructor]. split; [by symmetry|done].
      + rewrite (take_S_r _ _ _ Hline), fmap_app. simpl.
        rewrite (drop_S _ _ _ Hrow0), <- (assoc_L (++)). simpl.
        replace k with (length (dec <$> take k lines) + 0)%nat at 1 by lia.
        by rewrite insert_app_r.
    - destruct Hrow as [-> Hng]. split; [done|]. apply (Hbad k line' Hline).
      by intros [_ ?].
    - done. }
  specialize (H Hstep).
  destruct (for_each (enumerate lines) body g0) as [g'| |]; [|done..].
  destruct H as [Hgood ->]. rewrite take_ge in Hgood by lia. split; [done|].
  rewrite take_ge, drop_ge by lia. by rewrite app_nil_r.
Qed.

Lemma load_cases (file_lines : list (list ascii)) :
  match UtilsFiles.load_grid_from_file file_lines with
  | Done sg =>
      good_text (clean_lines file_lines) ∧ sg = text_grid (clean_lines file_lines)
  | Raised e => e = ValueError ∧ ¬ good_text (clean_lines file_lines)
  | OutOfFuel => False
  end.
Proof.
  unfold UtilsFiles.load_grid_from_file. fold (clean_lines file_lines).
  set (lines := clean_lines file_lines).
  destruct (UtilsFiles.nonempty lines) eqn:Hne; simpl.
  2:{ split; [done|]. intros [Hn _]. by destruct lines. }
  case_decide as Hsq.
  { split; [done|]. intros (_ & Hs & _). apply Hsq. lia. }
  assert ((Nat.sqrt (length lines) * Nat.sqrt (length lines))%nat = length lines) as Hs
    by lia.
  pose proof (init_square (Nat.sqrt (length lines))) as Hinit.
  rewrite Hs in Hinit. rewrite Hinit. clear Hinit. simpl.
  match goal with
  | |- context [for_each (enumerate lines) ?body ?g0] =>
      pose proof (load_rows (length lines) lines g0 body
        (fun i '(j, char) g =>
           num ← Utils.char_to_value char;
           if bool_decide (num < 0 ∨ num > Z.of_nat (length lines))
           then Raised ValueError else setitem g i j num)) as H;
      destruct (for_each (enumerate lines) body g0) as [g'| |]
  end; simpl.
  - destruct H as [Hgood ->]; [done|done|by rewrite length_replicate| |].
    { apply Forall_replicate. by rewrite length_replicate. }
    split.
    + split; [by destruct lines|]. done.
    + done.
  - destruct H as [-> Hng]; [done|done|by rewrite length_replicate| |].
    { apply Forall_replicate. by rewrite length_replicate. }
    split; [done|]. intros (_ & _ & ?). done.
  - apply H; [done|done|by rewrite length_replicate|].
    apply Forall_replicate. by rewrite length_replicate.
Qed.

Lemma load_cases_good (file_lines : list (list ascii)) :
  good_text (clean_lines file_lines) →
  UtilsFiles.load_grid_from_file file_lines = Done (text_grid (clean_lines file_lines)).
Proof.
  intros Hgood. pose proof (load_cases file_lines) as H.
  destruct (UtilsFiles.load_grid_from_file file_lines) as [sg|e|]; [| |done].
  - by destruct H as [_ ->].
  - by destruct H as [_ Hng].
Qed.

(** X11: on a text of characters with code points below 256,
    [load_grid_from_file] keeps the lines that are not blank, stripped.
    When they are the text of a grid (a perfect-square number of lines, at
    least one, each holding, spaces apart, as many characters as there are
    lines, all of them standing for values of [0 .. size]), it returns the
    grid of the values the characters stand for; for any other text of
    such characters it raises [ValueError], and nothing else. *)
Theorem load_grid_from_file_spec (file_lines : list (list ascii)) :
  (good_text (clean_lines file_lines) →
     UtilsFiles.load_grid_from_file file_lines
     = Done (text_grid (clean_lines file_lines)))
  ∧ (¬ good_text (clean_lines file_lines) →
     UtilsFiles.load_grid_from_file file_lines = Raised ValueError).
Proof.
  pose proof (load_cases file_lines) as H.
  destruct (UtilsFiles.load_grid_from_file file_lines) as [sg|e|]; [| |done].
  - destruct H as [Hgood ->]. split; [done|]. intros Hng. by destruct Hng.
  - destruct H as [-> Hng]. split; [|done]. intros Hgood. by destruct Hng.
Qed.

Lemma lines4_good :
  good_text (clean_lines
    (list_ascii_of_string <$> [" 12..   "; "3 4 . ."; ""; "..1 2"; " "; "..34"]%string)).
Proof.
  set (lines := clean_lines _). vm_compute in lines. subst lines.
  split; [done|]. split; [done|].
  repeat (constructor;
          [split; [reflexivity|];
           repeat (constructor; [eexists; split; [reflexivity|by vm_compute]|]);
           constructor|]).
  constructor.
Qed.

Lemma load_grid_from_file_spec_witness :
  UtilsFiles.load_grid_from_file
    (list_ascii_of_string <$> [" 12..   "; "3 4 . ."; ""; "..1 2"; " "; "..34"]%string)
  = Done (text_grid (clean_lines
      (list_ascii_of_string <$> [" 12..   "; "3 4 . ."; ""; "..1 2"; " "; "..34"]%string))).
Proof.
  apply (proj1 (load_grid_from_file_spec _)). apply lines4_good.
Defined.

Lemma text_grid_cell lines r c v :
  cell (grid (text_grid lines)) r c = Some v →
  ∃ line char, lines !! r = Some line
               ∧ UtilsFiles.remove_spaces line !! c = Some char ∧ v = decode char.
Proof.
  unfold cell, text_grid. simpl. rewrite list_lookup_fmap.
  destruct (lines !! r) as [line|]; [|discriminate]. simpl.
  rewrite list_lookup_fmap.
  destruct (UtilsFiles.remove_spaces line !! c) as [char|] eqn:Hc; [|discriminate].
  simpl. intros [= <-]. by exists line, char.
Qed.

Lemma text_grid_data_model lines :
  good_text lines →
  well_formed (text_grid lines) ∧ in_range (text_grid lines)
  ∧ ∀ r c v, cell (grid (text_grid lines)) r c = Some v → 0 ≤ v ≤ 35.
Proof.
  intros (Hne & Hsq & Hlines).
  assert (∀ r c v, cell (grid (text_grid lines)) r c = Some v →
                   0 ≤ v ≤ 35 ∧ v ≤ Z.of_nat (length lines)) as Hcells.
  { intros r c v Hv. apply text_grid_cell in Hv as (line & char & Hl & Hc & ->).
    rewrite Forall_lookup in Hlines. destruct (Hlines _ _ Hl) as [_ Hgood].
    rewrite Forall_lookup in Hgood. destruct (Hgood _ _ Hc) as (v & Hv & Hle).
    destruct (decode_good _ _ Hv) as [-> Hr]. done. }
  split; [|split].
  - split; [by simpl|]. split; simpl; [by rewrite length_fmap|].
    apply Forall_fmap. eapply List.Forall_impl; [|exact Hlines].
    intros line [Hlen _]. simpl. by rewrite length_fmap.
  - intros r c v Hv. simpl. destruct (Hcells _ _ _ Hv). lia.
  - intros r c v Hv. by destruct (Hcells _ _ _ Hv).
Qed.

(** X12: a grid that [load_grid_from_file] returns is a grid of the
    data model: square, of a perfect-square size (the number of lines that
    are not blank), with cells in [0 .. size], and no cell above 35. *)
Theorem load_grid_from_file_data_model (file_lines : list (list ascii)) (sg : Sudoku) :
  UtilsFiles.load_grid_from_file file_lines = Done sg →
  well_formed sg ∧ in_range sg
  ∧ size sg = length (clean_lines file_lines)
  ∧ ∀ r c v, cell (grid sg) r c = Some v → 0 ≤ v ≤ 35.
Proof.
  intros H. pose proof (load_cases file_lines) as Hc. rewrite H in Hc.
  destruct Hc as [Hgood ->].
  destruct (text_grid_data_model _ Hgood) as (? & ? & ?). done.
Qed.

Lemma load_grid_from_file_data_model_witness :
  let sg := text_grid (clean_lines
    (list_ascii_of_string <$> [" 12..   "; "3 4 . ."; ""; "..1 2"; " "; "..34"]%string)) in
  well_formed sg ∧ in_range sg
  ∧ size sg = length (clean_lines
      (list_ascii_of_string <$> [" 12..   "; "3 4 . ."; ""; "..1 2"; " "; "..34"]%string))
  ∧ ∀ r c v, cell (grid sg) r c = Some v → 0 ≤ v ≤ 35.
Proof.
  apply (load_grid_from_file_data_model
    (list_ascii_of_string <$> [" 12..   "; "3 4 . ."; ""; "..1 2"; " "; "..34"]%string)).
  apply (load_cases_good _ lines4_good).
Defined.

(** ** Writing the text of a grid *)

Lemma value_to_char_cases (v : Z) :
  (0 ≤ v ≤ 35 ∧ Utils.value_to_char v = Done (encode v))
  ∨ (¬ 0 ≤ v ≤ 35 ∧ Utils.value_to_char v = Raised ValueError).
Proof.
  unfold encode, Utils.value_to_char. repeat case_bool_decide; simpl;
    first [left; split; [lia|done] | right; split; [lia|done]].
Qed.

Lemma encode_char (v : Z) :
  0 ≤ v ≤ 35 →
  Utils.char_to_value (encode v) = Done v
  ∧ UtilsFiles.isspace (encode v) = false
  ∧ Ascii.eqb (encode v) " " = false.
Proof.
  intros Hv.
  apply (small_value_cases
           (fun v => Utils.char_to_value (encode v) = Done v
                     ∧ UtilsFiles.isspace (encode v) = false
                     ∧ Ascii.eqb (encode v) " " = false) 36); [|lia].
  intros k Hk. do 36 (destruct k as [|k]; [by vm_compute|]). lia.
Qed.

Lemma mapM_cases {A B} (f : A → outcome B) (P : A → Prop) (h : A → B) (l : list A) :
  (∀ x, (P x ∧ f x = Done (h x)) ∨ (¬ P x ∧ f x = Raised ValueError)) →
  (Forall P l ∧ mapM f l = Done (h <$> l))
  ∨ (¬ Forall P l ∧ mapM f l = Raised ValueError).
Proof.
  intros Hf. induction l as [|x l IH]; [by left|]. simpl.
  destruct (Hf x) as [[Hx ->]|[Hx ->]]; simpl.
  - destruct IH as [[Hl ->]|[Hl ->]]; simpl.
    + left. split; [by constructor|done].
    + right. split; [|done]. by inversion 1.
  - right. split; [|done]. by inversion 1.
Qed.

Lemma save_cases (grid0 : Sudoku) :
  (Forall (Forall (fun v => 0 ≤ v ≤ 35)) (grid grid0)
   ∧ UtilsFiles.save_grid_to_file grid0 = Done (grid_text (grid grid0)))
  ∨ (¬ Forall (Forall (fun v => 0 ≤ v ≤ 35)) (grid grid0)
     ∧ UtilsFiles.save_grid_to_file grid0 = Raised ValueError).
Proof.
  unfold UtilsFiles.save_grid_to_file, grid_text. apply mapM_cases. intros row.
  destruct (mapM_cases Utils.value_to_char (fun v => 0 ≤ v ≤ 35) encode row
              value_to_char_cases) as [[Hrow ->]|[Hrow ->]]; simpl; [by left|by right].
Qed.

Lemma solved_holds_size (self : Sudoku) :
  well_formed self → solved self → (0 < size self)%nat →
  ∃ c, cell (grid self) 0 c = Some (Z.of_nat (size self)).
Proof.
  intros Hwf (Hrows & _) Hpos.
  pose proof (Hrows 0%nat Hpos (Z.of_nat (size self)) ltac:(lia)) as Hcount.
  assert (In (Z.of_nat (size self))
             (values_at (grid self) (row_cells (size self) 0))) as Hin.
  { apply (count_occ_In Z.eq_dec). lia. }
  apply list_elem_of_In, list_elem_of_omap in Hin as ([r c] & Hp & Hv).
  apply list_elem_of_fmap in Hp as (c' & [= -> ->] & _). by exists c'.
Qed.

(** X13: [save_grid_to_file] writes one line per row, one character per
    cell, when every cell is in [0 .. 35], and raises [ValueError]
    otherwise; in particular a solved grid of size 36 or more, which holds
    the value [size], cannot be saved. *)
Theorem save_grid_to_file_spec (grid0 : Sudoku) :
  (Forall (Forall (fun v => 0 ≤ v ≤ 35)) (grid grid0) →
     UtilsFiles.save_grid_to_file grid0 = Done (grid_text (grid grid0)))
  ∧ (¬ Forall (Forall (fun v => 0 ≤ v ≤ 35)) (grid grid0) →
     UtilsFiles.save_grid_to_file grid0 = Raised ValueError)
  ∧ (well_formed grid0 → solved grid0 → (36 ≤ size grid0)%nat →
     UtilsFiles.save_grid_to_file grid0 = Raised ValueError).
Proof.
  pose proof (save_cases grid0) as Hc.
  split; [|split].
  - intros H. by destruct Hc as [[_ ->]|[Hn _]].
  - intros H. by destruct Hc as [[Hall _]|[_ ->]].
  - intros Hwf Hsolved Hsize. destruct Hc as [[Hall _]|[_ ->]]; [|done].
    destruct (solved_holds_size grid0 Hwf Hsolved) as [c Hc]; [lia|].
    unfold cell in Hc. destruct (grid grid0 !! 0%nat) as [row|] eqn:Hrow; [|discriminate].
    simpl in Hc. rewrite Forall_lookup in Hall. pose proof (Hall _ _ Hrow) as Hr.
    rewrite Forall_lookup in Hr. pose proof (Hr _ _ Hc). lia.
Qed.

Lemma save_grid_to_file_spec_witness :
  UtilsFiles.save_grid_to_file (Solver.init grid4) = Done (grid_text grid4).
Proof.
  apply (proj1 (save_grid_to_file_spec (Solver.init grid4))).
  repeat constructor; lia.
Defined.

Lemma lstrip_id (s : list ascii) :
  (∀ c s', s = c :: s' → UtilsFiles.isspace c = false) → UtilsFiles.lstrip s = s.
Proof. destruct s as [|c s']; [done|]. intros H. simpl. by rewrite (H c s'). Qed.

Lemma strip_written_line (l : list ascii) :
  Forall (fun c => UtilsFiles.isspace c = false) l →
  UtilsFiles.strip (l ++ ["010"%char]) = l.
Proof.
  intros Hl. rewrite Forall_forall in Hl. unfold UtilsFiles.strip.
  destruct l as [|c l']; [done|].
  assert (UtilsFiles.lstrip ((c :: l') ++ ["010"%char]) = (c :: l') ++ ["010"%char]) as ->.
  { simpl. rewrite (Hl c); [done|by left]. }
  rewrite rev_unit.
  assert (UtilsFiles.lstrip ("010"%char :: rev (c :: l')) = rev (c :: l')) as ->.
  { change (UtilsFiles.lstrip ("010"%char :: rev (c :: l')))
      with (UtilsFiles.lstrip (rev (c :: l'))).
    apply lstrip_id. intros c0 s' Hrev. apply Hl, in_rev. rewrite Hrev. by left. }
  apply rev_involutive.
Qed.

Lemma remove_spaces_id (l : list ascii) :
  Forall (fun c => Ascii.eqb c " " = false) l → UtilsFiles.remove_spaces l = l.
Proof.
  induction 1 as [|c l Hc _ IH]; [done|]. unfold UtilsFiles.remove_spaces in *.
  simpl. rewrite Hc. simpl. by rewrite IH.
Qed.

Lemma clean_written_lines (g : list (list Z)) :
  Forall (fun row => row ≠ [] ∧ Forall (fun v => 0 ≤ v ≤ 35) row) g →
  clean_lines (grid_text g) = (fun row : list Z => encode <$> row) <$> g.
Proof.
  unfold clean_lines, grid_text. induction 1 as [|row g [Hne Hrow] _ IH]; [done|].
  rewrite !fmap_cons. rewrite strip_written_line.
  2:{ apply Forall_fmap. eapply List.Forall_impl; [|exact Hrow].
      intros v Hv. simpl. by apply encode_char. }
  cbn [List.filter]. rewrite IH. by destruct row.
Qed.

Lemma load_save_round_trip_aux (grid0 : Sudoku) :
  well_formed grid0 → in_range grid0 → (0 < size grid0)%nat →
  (∀ r c v, cell (grid grid0) r c = Some v → v ≤ 35) →
  ∃ lines, UtilsFiles.save_grid_to_file grid0 = Done lines
           ∧ UtilsFiles.load_grid_from_file lines = Done grid0.
Proof.
  intros Hwf Hrange Hsize H35. pose proof Hwf as (Hb & Hlen & Hrows).
  assert (Forall (fun row => length row = size grid0
                             ∧ Forall (fun v => 0 ≤ v ≤ Z.of_nat (size grid0) ∧ v ≤ 35)
                                      row)
                 (grid grid0)) as Hcells.
  { rewrite Forall_lookup in Hrows. apply Forall_lookup. intros r row Hr.
    split; [by eapply Hrows|]. apply Forall_lookup. intros c v Hc.
    assert (cell (grid grid0) r c = Some v) as Hv by (unfold cell; by rewrite Hr).
    pose proof (Hrange r c v Hv). pose proof (H35 r c v Hv). lia. }
  exists (grid_text (grid grid0)). split.
  { destruct (save_cases grid0) as [[_ ->]|[Hn _]]; [done|]. exfalso. apply Hn.
    eapply List.Forall_impl; [|exact Hcells]. intros row [_ Hrow]. simpl.
    eapply List.Forall_impl; [|exact Hrow]. intros v Hv. simpl in Hv. lia. }
  assert (clean_lines (grid_text (grid grid0))
          = (fun row : list Z => encode <$> row) <$> grid grid0) as Hclean.
  { apply clean_written_lines. eapply List.Forall_impl; [|exact Hcells].
    intros row [Hl Hrow]. simpl. split; [intros ->; simpl in Hl; lia|].
    eapply List.Forall_impl; [|exact Hrow]. intros v Hv. simpl in Hv. lia. }
  rewrite load_cases_good; rewrite Hclean.
  - destruct grid0 as [g n b]. unfold text_grid. simpl in *.
    rewrite length_fmap, Hlen. f_equal. f_equal.
    + rewrite <- list_fmap_compose. rewrite <- (list_fmap_id g) at 2.
      apply Forall_fmap_ext_1. eapply List.Forall_impl; [|exact Hcells].
      intros row [_ Hrow]. simpl.
      rewrite remove_spaces_id.
      2:{ apply Forall_fmap. eapply List.Forall_impl; [|exact Hrow].
          intros v Hv. simpl in *. apply encode_char. lia. }
      rewrite <- list_fmap_compose. rewrite <- (list_fmap_id row) at 2.
      apply Forall_fmap_ext_1. eapply List.Forall_impl; [|exact Hrow].
      intros v Hv. simpl in *.
      destruct (encode_char v ltac:(lia)) as [Hd _]. unfold decode. by rewrite Hd.
    + by rewrite Hb, Nat.sqrt_square.
  - unfold good_text. rewrite length_fmap, Hlen. split; [|split].
    + intros Hnil. apply (f_equal length) in Hnil. rewrite length_fmap, Hlen in Hnil.
      simpl in Hnil. lia.
    + by rewrite Hb, Nat.sqrt_square.
    + apply Forall_fmap. eapply List.Forall_impl; [|exact Hcells].
      intros row [Hl Hrow]. simpl. unfold good_line.
      rewrite remove_spaces_id.
      2:{ apply Forall_fmap. eapply List.Forall_impl; [|exact Hrow].
          intros v Hv. simpl in *. apply encode_char. lia. }
      split; [by rewrite length_fmap|]. apply Forall_fmap.
      eapply List.Forall_impl; [|exact Hrow]. intros v Hv. simpl in *.
      exists v. split; [apply encode_char|]; lia.
Qed.

(** X14: what [save_grid_to_file] writes, [load_grid_from_file] reads
    back: for a grid of the data model with at least one row and no cell
    above 35 (any such grid of a size up to 35), the lines written are
    loaded as the same grid. *)
Theorem load_save_round_trip (grid0 : Sudoku) :
  well_formed grid0 → in_range grid0 → (0 < size grid0)%nat →
  (∀ r c v, cell (grid grid0) r c = Some v → v ≤ 35) →
  ∃ lines, UtilsFiles.save_grid_to_file grid0 = Done lines
           ∧ UtilsFiles.load_grid_from_file lines = Done grid0.
Proof.
  intros Hwf Hrange Hsize H35. apply (load_save_round_trip_aux grid0); done.
Qed.

Lemma load_save_round_trip_witness :
  ∃ lines, UtilsFiles.save_grid_to_file (Solver.init grid4) = Done lines
           ∧ UtilsFiles.load_grid_from_file lines = Done (Solver.init grid4).
Proof.
  apply (load_save_round_trip (Solver.init grid4)).
  - apply grid4_well_formed.
  - apply grid4_in_range.
  - vm_compute. lia.
  - intros r c v Hv. pose proof (grid4_in_range r c v Hv) as H. cbn in H. lia.
Defined.

(** ** The characters read and written *)

(** X15: among the characters with code points below 256,
    [char_to_value] accepts exactly ['.'], the digits ['0'] to ['9'] and
    the letters ['a'] to ['z'] and ['A'] to ['Z']; what it returns is in
    [0 .. 35]; on every other such character it raises [ValueError]; and
    writing the value it returns gives the character back in upper case,
    except that ['0'], read as an empty cell, is written ['.']. *)
Theorem char_to_value_spec (c : ascii) :
  match Utils.char_to_value c with
  | Done v =>
      0 ≤ v ≤ 35
      ∧ Utils.value_to_char v
        = Done (if Ascii.eqb c "0" then "."%char else Utils.upper c)
      ∧ (c = "."%char ∨ 48 ≤ Utils.ord c ≤ 57 ∨ 65 ≤ Utils.ord c ≤ 90
         ∨ 97 ≤ Utils.ord c ≤ 122)
  | Raised e =>
      e = ValueError
      ∧ ¬ (c = "."%char ∨ 48 ≤ Utils.ord c ≤ 57 ∨ 65 ≤ Utils.ord c ≤ 90
           ∨ 97 ≤ Utils.ord c ≤ 122)
  | OutOfFuel => False
  end.
Proof.
  destruct c as [[] [] [] [] [] [] [] []];
    set (r := Utils.char_to_value _); vm_compute in r; subst r; cbv beta iota;
    set (o := Utils.ord _); vm_compute in o; subst o;
    first
      [ split; [reflexivity|]; intros [?|?]; [discriminate|lia]
      | split; [lia|]; split; [reflexivity|]; first [by left | right; lia] ].
Qed.

(** X16: [value_to_char] returns a character for the values of
    [0 .. 35] and raises [ValueError] for all others; the characters it
    returns are neither spaces nor other white space, they read back as
    the value, and two values are never written as the same character. *)
Theorem value_to_char_spec :
  (∀ v, 0 ≤ v ≤ 35 →
     ∃ c, Utils.value_to_char v = Done c
          ∧ UtilsFiles.isspace c = false ∧ c ≠ " "%char
          ∧ Utils.char_to_value c = Done v)
  ∧ (∀ v, ¬ 0 ≤ v ≤ 35 → Utils.value_to_char v = Raised ValueError)
  ∧ (∀ v w c, Utils.value_to_char v = Done c → Utils.value_to_char w = Done c → v = w).
Proof.
  assert (∀ v c, Utils.value_to_char v = Done c →
                 0 ≤ v ≤ 35 ∧ c = encode v) as Hdone.
  { intros v c H. destruct (value_to_char_cases v) as [[Hv E]|[_ E]]; [|congruence].
    split; [done|congruence]. }
  split; [|split].
  - intros v Hv. exists (encode v).
    destruct (value_to_char_cases v) as [[_ E]|[Hn _]]; [|done].
    destruct (encode_char v Hv) as (Hd & Hs & Hsp). do 2 (split; [done|]).
    split; [|done]. intros E'. rewrite E' in Hsp. discriminate.
  - intros v Hv. by destruct (value_to_char_cases v) as [[Hv' _]|[_ E]].
  - intros v w c Hv Hw.
    destruct (Hdone _ _ Hv) as [Hrv ->], (Hdone _ _ Hw) as [Hrw Hc].
    destruct (encode_char v Hrv) as (Hdv & _), (encode_char w Hrw) as (Hdw & _).
    rewrite Hc in Hdv. congruence.
Qed.

Lemma value_to_char_spec_witness :
  ∃ c, Utils.value_to_char 35 = Done c
       ∧ UtilsFiles.isspace c = false ∧ c ≠ " "%char
       ∧ Utils.char_to_value c = Done 35.
Proof. apply (proj1 value_to_char_spec 35). lia. Defined.

(** ** Reading a grid written on one line *)

Lemma for_each_seq_enumerate {A St} (xs : list A) (f : nat → St → outcome St)
    (body : nat * A → St → outcome St) (s : St) :
  (∀ j x s, xs !! j = Some x → f j s = body (j, x) s) →
  for_each (seq 0 (length xs)) f s = for_each (enumerate xs) body s.
Proof.
  unfold enumerate.
  assert (∀ a s,
    (∀ j x s, xs !! j = Some x → f (a + j)%nat s = body ((a + j)%nat, x) s) →
    for_each (seq a (length xs)) f s = for_each (zip (seq a (length xs)) xs) body s)
    as H; [|apply (H 0%nat)].
  clear s. induction xs as [|x xs IH]; intros a s H; simpl; [done|].
  pose proof (H 0%nat x s eq_refl) as Hx. rewrite Nat.add_0_r in Hx. rewrite Hx.
  destruct (body (a, x) s) as [s1| |]; simpl; [|done..].
  apply IH. intros j y s' Hj. specialize (H (S j) y s' Hj).
  by rewrite Nat.add_succ_r in H.
Qed.

Lemma remove_spaces_no_space (l : list ascii) :
  Forall (fun c => Ascii.eqb c " " = false) (UtilsFiles.remove_spaces l).
Proof.
  unfold UtilsFiles.remove_spaces. induction l as [|c l IH]; simpl; [constructor|].
  destruct (Ascii.eqb c " ") eqn:E; simpl; [done|]. by constructor.
Qed.

Lemma length_line_rows n (line : list ascii) : length (line_rows n line) = n.
Proof. unfold line_rows. by rewrite length_fmap, length_seq. Qed.

Lemma lookup_line_rows n (line : list ascii) i row :
  line_rows n line !! i = Some row ↔ (i < n)%nat ∧ row = take n (drop (i * n) line).
Proof.
  unfold line_rows. rewrite list_lookup_fmap. split.
  - destruct (seq 0 n !! i) as [k|] eqn:Hk; [|discriminate]. simpl. intros [= <-].
    apply lookup_seq in Hk as [-> Hi]. done.
  - intros [Hi ->]. by rewrite lookup_seq_lt.
Qed.

Lemma length_line_row n (line : list ascii) i :
  length line = (n * n)%nat → (i < n)%nat → length (take n (drop (i * n) line)) = n.
Proof. intros Hl Hi. rewrite length_take, length_drop, Hl. nia. Qed.

Lemma lookup_line_row n (line : list ascii) i j :
  (j < n)%nat → take n (drop (i * n) line) !! j = line !! (i * n + j)%nat.
Proof. intros Hj. rewrite lookup_take_lt by done. apply lookup_drop. Qed.

Lemma line_rows_no_space n line :
  Forall (fun c => Ascii.eqb c " " = false) line →
  Forall (fun row => UtilsFiles.remove_spaces row = row) (line_rows n line).
Proof.
  intros Hl. apply Forall_lookup. intros i row Hrow.
  apply lookup_line_rows in Hrow as [_ ->].
  apply remove_spaces_id. by apply Forall_take, Forall_drop.
Qed.

Lemma line_rows_good n line :
  length line = (n * n)%nat →
  Forall (fun c => Ascii.eqb c " " = false) line →
  Forall (good_line n) (line_rows n line) ↔ Forall (good_char n) line.
Proof.
  intros Hlen Hsp. pose proof (line_rows_no_space n line Hsp) as Hid.
  rewrite Forall_lookup in Hid. split.
  - intros Hrows. apply Forall_lookup. intros idx c Hc.
    assert (idx < n * n)%nat as Hidx by (rewrite <- Hlen; by eapply lookup_lt_Some).
    assert (n ≠ 0)%nat as Hn by lia.
    pose proof (Nat.div_mod_eq idx n) as Hdm.
    pose proof (Nat.mod_upper_bound idx n Hn) as Hj.
    assert (idx / n < n)%nat as Hi by (by apply Nat.Div0.div_lt_upper_bound).
    set (row := take n (drop (idx / n * n) line)).
    assert (line_rows n line !! (idx / n)%nat = Some row) as Hrow
      by (by apply lookup_line_rows).
    rewrite Forall_lookup in Hrows. destruct (Hrows _ _ Hrow) as [_ Hgood].
    rewrite (Hid _ _ Hrow) in Hgood. rewrite Forall_lookup in Hgood.
    apply (Hgood (idx mod n)%nat). unfold row. rewrite lookup_line_row by done.
    replace (idx / n * n + idx mod n)%nat with idx by lia. done.
  - intros Hgood. apply Forall_lookup. intros i row Hrow.
    unfold good_line. rewrite (Hid _ _ Hrow).
    apply lookup_line_rows in Hrow as [Hi ->].
    split; [by apply length_line_row|]. by apply Forall_take, Forall_drop.
Qed.

Lemma line_grid_text line :
  Forall (fun c => Ascii.eqb c " " = false) line →
  line_grid line = text_grid (line_rows (Nat.sqrt (length line)) line).
Proof.
  intros Hsp. unfold line_grid, text_grid. rewrite length_line_rows. f_equal.
  apply Forall_fmap_ext_1.
  eapply List.Forall_impl; [|exact (line_rows_no_space _ _ Hsp)].
  intros row Hrow. simpl. by rewrite Hrow.
Qed.

Lemma good_flat_line_text line :
  Forall (fun c => Ascii.eqb c " " = false) line →
  good_flat_line line → good_text (line_rows (Nat.sqrt (length line)) line).
Proof.
  intros Hsp (Hne & Hsq & Hbox & Hgood). unfold good_text.
  rewrite length_line_rows. split; [|split; [done|]].
  - intros Hnil. apply (f_equal length) in Hnil. rewrite length_line_rows in Hnil.
    change (length (@nil (list ascii))) with 0%nat in Hnil. rewrite Hnil in Hsq.
    by destruct line.
  - by apply line_rows_good.
Qed.

Lemma parse_cases (line0 : list ascii) :
  match ParseGrid.parse_line_to_grid line0 with
  | Done (sg, n) =>
      good_flat_line (clean_line line0)
      ∧ sg = line_grid (clean_line line0)
      ∧ n = Nat.sqrt (length (clean_line line0))
  | Raised e => e = ValueError ∧ ¬ good_flat_line (clean_line line0)
  | OutOfFuel => False
  end.
Proof.
  unfold ParseGrid.parse_line_to_grid. fold (clean_line line0).
  pose proof (remove_spaces_no_space (UtilsFiles.strip line0)) as Hsp.
  fold (clean_line line0) in Hsp.
  set (line := clean_line line0) in *.
  destruct (UtilsFiles.nonempty line) eqn:Hne; simpl.
  2:{ split; [done|]. intros [Hn _]. by destruct line. }
  set (n := Nat.sqrt (length line)).
  case_decide as Hsq.
  { split; [done|]. intros (_ & Hs & _). by apply Hsq. }
  case_decide as Hbox.
  { split; [done|]. intros (_ & _ & Hs & _). by apply Hbox. }
  pose proof (init_square (Nat.sqrt n)) as Hinit.
  rewrite Hbox in Hinit. rewrite Hinit. clear Hinit. simpl.
  set (inner := fun (i : nat) '((j, char) : nat * ascii) (g : cells) =>
         num ← Utils.char_to_value char;
         if bool_decide (num < 0 ∨ num > Z.of_nat n)
         then Raised ValueError else setitem g i j num).
  set (body := fun '((i, row) : nat * list ascii) (g : cells) =>
         if decide (length (UtilsFiles.remove_spaces row) ≠ n) then Raised ValueError
         else for_each (enumerate (UtilsFiles.remove_spaces row)) (inner i) g).
  pose proof (line_rows_no_space n line Hsp) as Hid. rewrite Forall_lookup in Hid.
  match goal with
  | |- context [for_each (seq 0 n) ?f ?g0] =>
      assert (for_each (seq 0 n) f g0 = for_each (enumerate (line_rows n line)) body g0)
        as ->;
      [|pose proof (load_rows n (line_rows n line) g0 body inner) as H;
        destruct (for_each (enumerate (line_rows n line)) body g0) as [g'| |]]
  end; simpl.
  - rewrite <- (length_line_rows n line) at 1.
    apply for_each_seq_enumerate. intros i row g Hrow. unfold body.
    rewrite (Hid _ _ Hrow). apply lookup_line_rows in Hrow as [Hi ->].
    pose proof (length_line_row n line i (eq_sym Hsq) Hi) as Hlen.
    rewrite decide_False by lia.
    rewrite <- Hlen at 1. apply for_each_seq_enumerate.
    intros j char g1 Hchar.
    assert (j < n)%nat as Hj by (rewrite <- Hlen; by eapply lookup_lt_Some).
    rewrite lookup_line_row in Hchar by done. by rewrite Hchar.
  - destruct H as [Hgood ->]; [done|done|by rewrite length_replicate, length_line_rows| |].
    { apply Forall_replicate. by rewrite length_replicate. }
    split; [|split; [|done]].
    + split; [by destruct line|]. do 2 (split; [done|]).
      by apply (line_rows_good n line).
    + rewrite line_grid_text by done. unfold text_grid. fold n.
      by rewrite length_line_rows.
  - destruct H as [-> Hng]; [done|done|by rewrite length_replicate, length_line_rows| |].
    { apply Forall_replicate. by rewrite length_replicate. }
    split; [done|]. intros (_ & _ & _ & Hgood). apply Hng.
    by apply (line_rows_good n line).
  - apply H; [done|done|by rewrite length_replicate, length_line_rows|].
    apply Forall_replicate. by rewrite length_replicate.
Qed.

Lemma parse_good (line0 : list ascii) :
  good_flat_line (clean_line line0) →
  ParseGrid.parse_line_to_grid line0
  = Done (line_grid (clean_line line0), Nat.sqrt (length (clean_line line0))).
Proof.
  intros Hgood. pose proof (parse_cases line0) as H.
  destruct (ParseGrid.parse_line_to_grid line0) as [[sg n]|e|]; [| |done].
  - by destruct H as (_ & -> & ->).
  - by destruct H as [_ Hng].
Qed.

Lemma line_grid_cell (line : list ascii) (r c : nat) :
  (r < Nat.sqrt (length line))%nat → (c < Nat.sqrt (length line))%nat →
  cell (grid (line_grid line)) r c
  = decode <$> line !! (r * Nat.sqrt (length line) + c)%nat.
Proof.
  intros Hr Hc. unfold cell, line_grid, line_rows. cbn [grid].
  rewrite list_lookup_fmap, list_lookup_fmap, lookup_seq_lt by done. simpl.
  rewrite list_lookup_fmap. by rewrite lookup_line_row.
Qed.

(** X17: on a line of characters with code points below 256,
    [parse_line_to_grid] keeps the characters other than the white space
    around the line and its spaces.  When they are the text of a grid
    ([n * n] characters, at least one, for [n] a perfect square, each
    standing for a value of [0 .. n]) it returns [n] and the grid whose
    cell [(r, c)] is the value of the character at [r * n + c]; for any
    other line of such characters it raises [ValueError], and nothing
    else: no character is looked up beyond the end of the line. *)
Theorem parse_line_to_grid_spec (line0 : list ascii) :
  (good_flat_line (clean_line line0) →
     ParseGrid.parse_line_to_grid line0
     = Done (line_grid (clean_line line0), Nat.sqrt (length (clean_line line0)))
     ∧ ∀ r c, (r < Nat.sqrt (length (clean_line line0)))%nat →
              (c < Nat.sqrt (length (clean_line line0)))%nat →
              cell (grid (line_grid (clean_line line0))) r c
              = decode <$> clean_line line0
                           !! (r * Nat.sqrt (length (clean_line line0)) + c)%nat)
  ∧ (¬ good_flat_line (clean_line line0) →
     ParseGrid.parse_line_to_grid line0 = Raised ValueError).
Proof.
  split.
  - intros Hgood. split; [by apply parse_good|]. intros r c. apply line_grid_cell.
  - intros Hng. pose proof (parse_cases line0) as H.
    destruct (ParseGrid.parse_line_to_grid line0) as [[sg n]|e|]; [| |done].
    + by destruct H as (Hgood & _).
    + by destruct H as [-> _].
Qed.

Lemma line16_good :
  good_flat_line (clean_line (list_ascii_of_string "  12.. 34.. ..12 ..34 ")).
Proof.
  set (line := clean_line _). vm_compute in line. subst line.
  split; [done|]. split; [done|]. split; [done|].
  repeat (constructor; [eexists; split; [reflexivity|by vm_compute]|]).
  constructor.
Qed.

Lemma parse_line_to_grid_spec_witness :
  ParseGrid.parse_line_to_grid (list_ascii_of_string "  12.. 34.. ..12 ..34 ")
  = Done (line_grid (clean_line (list_ascii_of_string "  12.. 34.. ..12 ..34 ")),
          Nat.sqrt (length (clean_line (list_ascii_of_string "  12.. 34.. ..12 ..34 "))))
  ∧ ∀ r c,
      (r < Nat.sqrt (length (clean_line (list_ascii_of_string "  12.. 34.. ..12 ..34 "))))%nat →
      (c < Nat.sqrt (length (clean_line (list_ascii_of_string "  12.. 34.. ..12 ..34 "))))%nat →
      cell (grid (line_grid (clean_line (list_ascii_of_string "  12.. 34.. ..12 ..34 ")))) r c
      = decode <$> clean_line (list_ascii_of_string "  12.. 34.. ..12 ..34 ")
                   !! (r * Nat.sqrt (length (clean_line
                             (list_ascii_of_string "  12.. 34.. ..12 ..34 "))) + c)%nat.
Proof.
  apply (proj1 (parse_line_to_grid_spec _)). apply line16_good.
Defined.

Lemma parse_data_model (line0 : list ascii) (sg : Sudoku) (n : nat) :
  ParseGrid.parse_line_to_grid line0 = Done (sg, n) →
  n = size sg ∧ (0 < n)%nat ∧ well_formed sg ∧ in_range sg
  ∧ ∀ r c v, cell (grid sg) r c = Some v → 0 ≤ v ≤ 35.
Proof.
  intros H. pose proof (parse_cases line0) as Hc. rewrite H in Hc.
  destruct Hc as (Hgood & -> & ->).
  pose proof (remove_spaces_no_space (UtilsFiles.strip line0)) as Hsp.
  fold (clean_line line0) in Hsp.
  pose proof (good_flat_line_text _ Hsp Hgood) as Htext.
  destruct (text_grid_data_model _ Htext) as (Hwf & Hrange & H35).
  rewrite <- line_grid_text in Hwf, Hrange, H35 by done.
  split; [done|]. split; [|done].
  destruct Hgood as (Hne & Hsq & _). destruct (clean_line line0); [done|].
  simpl in *. lia.
Qed.

(** X18: what [parse_line_to_grid] returns is a grid of the data model
    together with its size, which is not 0; [save_grid_to_file] writes it,
    and [load_grid_from_file] reads the lines written as the same grid. *)
Theorem parse_save_load (line0 : list ascii) (sg : Sudoku) (n : nat) :
  ParseGrid.parse_line_to_grid line0 = Done (sg, n) →
  n = size sg ∧ (0 < n)%nat ∧ well_formed sg ∧ in_range sg
  ∧ ∃ lines, UtilsFiles.save_grid_to_file sg = Done lines
             ∧ UtilsFiles.load_grid_from_file lines = Done sg.
Proof.
  intros H. destruct (parse_data_model _ _ _ H) as (Hn & Hpos & Hwf & Hrange & H35).
  do 4 (split; [done|]). apply load_save_round_trip_aux; [done|done|lia|].
  intros r c v Hv. by apply (H35 r c v).
Qed.

Lemma parse_save_load_witness :
  let sg := line_grid (clean_line (list_ascii_of_string "  12.. 34.. ..12 ..34 ")) in
  let n := Nat.sqrt (length (clean_line (list_ascii_of_string "  12.. 34.. ..12 ..34 "))) in
  n = size sg ∧ (0 < n)%nat ∧ well_formed sg ∧ in_range sg
  ∧ ∃ lines, UtilsFiles.save_grid_to_file sg = Done lines
             ∧ UtilsFiles.load_grid_from_file lines = Done sg.
Proof.
  apply (parse_save_load (list_ascii_of_string "  12.. 34.. ..12 ..34 ")).
  apply (parse_good _ line16_good).
Defined.

(** ** Paths *)

Lemma rfind_None (c : ascii) (s : list ascii) :
  Forall (fun x => x ≠ c) s → UtilsFiles.rfind c s = None.
Proof.
  induction 1 as [|x s Hx _ IH]; simpl; [done|]. rewrite IH.
  apply Ascii.eqb_neq in Hx. by rewrite Hx.
Qed.

Lemma rfind_last (c : ascii) (a b : list ascii) :
  Forall (fun x => x ≠ c) b → UtilsFiles.rfind c (a ++ c :: b) = Some (length a).
Proof.
  intros Hb. induction a as [|x a IH]; simpl.
  - rewrite (rfind_None c b Hb). by rewrite Ascii.eqb_refl.
  - by rewrite IH.
Qed.

Lemma basename_of_path (dir name : list ascii) :
  Forall (fun x => x ≠ "/"%char) name →
  UtilsFiles.basename name = name
  ∧ UtilsFiles.basename (dir ++ "/"%char :: name) = name.
Proof.
  intros Hname. unfold UtilsFiles.basename. split.
  - by rewrite rfind_None.
  - rewrite rfind_last by done.
    replace (S (length dir)) with (length dir + 1)%nat by lia.
    rewrite <- drop_drop, drop_app_length. done.
Qed.

Lemma splitext_root_of_name (stem ext : list ascii) :
  Forall (fun x => x ≠ "/"%char) stem → Exists (fun x => x ≠ "."%char) stem →
  Forall (fun x => x ≠ "/"%char ∧ x ≠ "."%char) ext →
  UtilsFiles.splitext_root (stem ++ "."%char :: ext) = stem.
Proof.
  intros Hstem Hdot Hext. unfold UtilsFiles.splitext_root.
  rewrite (rfind_None "/"%char).
  2:{ apply Forall_app. split; [done|]. constructor; [done|].
      eapply List.Forall_impl; [|exact Hext]. by intros x [? _]. }
  rewrite rfind_last.
  2:{ eapply List.Forall_impl; [|exact Hext]. by intros x [_ ?]. }
  rewrite decide_True by lia. rewrite drop_0, take_app_length.
  assert (forallb (Ascii.eqb ".") stem = false) as ->; [|done].
  clear Hstem. induction Hdot as [x l Hx|x l _ IH]; cbn [forallb].
  - apply Ascii.eqb_neq in Hx. rewrite Ascii.eqb_sym, Hx. done.
  - rewrite IH. apply andb_false_r.
Qed.

(** X19: a file [stem.ext], where [stem] has no ['/'] and a character
    other than ['.'], and [ext] has neither ['/'] nor ['.'], has its
    solution written to [data/resolved/stem_solution.txt], whatever the
    directory the file is in. *)
Theorem get_solution_filename_spec (dir stem ext : list ascii) :
  Forall (fun x => x ≠ "/"%char) stem → Exists (fun x => x ≠ "."%char) stem →
  Forall (fun x => x ≠ "/"%char ∧ x ≠ "."%char) ext →
  UtilsFiles.get_solution_filename (stem ++ "."%char :: ext)
  = list_ascii_of_string "data/resolved/" ++ stem ++ list_ascii_of_string "_solution.txt"
  ∧ UtilsFiles.get_solution_filename (dir ++ "/"%char :: stem ++ "."%char :: ext)
    = list_ascii_of_string "data/resolved/" ++ stem
      ++ list_ascii_of_string "_solution.txt".
Proof.
  intros Hstem Hdot Hext. unfold UtilsFiles.get_solution_filename.
  assert (Forall (fun x => x ≠ "/"%char) (stem ++ "."%char :: ext)) as Hname.
  { apply Forall_app. split; [done|]. constructor; [done|].
    eapply List.Forall_impl; [|exact Hext]. by intros x [? _]. }
  destruct (basename_of_path dir _ Hname) as [-> ->].
  by rewrite splitext_root_of_name.
Qed.

Lemma get_solution_filename_spec_witness :
  UtilsFiles.get_solution_filename (list_ascii_of_string "grid.9x9.txt")
  = list_ascii_of_string "data/resolved/grid.9x9_solution.txt"
  ∧ UtilsFiles.get_solution_filename (list_ascii_of_string "data/raw/grid.9x9.txt")
    = list_ascii_of_string "data/resolved/grid.9x9_solution.txt".
Proof.
  apply (get_solution_filename_spec (list_ascii_of_string "data/raw")
           (list_ascii_of_string "grid.9x9") (list_ascii_of_string "txt")).
  - repeat constructor; discriminate.
  - apply Exists_cons_hd. discriminate.
  - repeat constructor; discriminate.
Defined.

(** X20: [find_file_in_raw] tells the two cases apart as follows.  When
    no file of the name given exists, the name is not absolute and does
    not start with [data/], and a file of that name exists in [data/raw/],
    it returns the path of that file.  In every other case (a file of the
    name exists, or the name is absolute, or it starts with [data/], or
    there is no such file in [data/raw/]) it returns the name as it is.  So
    a path other than the name given is the path of a file that exists,
    and looking for the path returned gives it again. *)
Theorem find_file_in_raw_spec (path_exists : list ascii → bool) (filename : list ascii) :
  (path_exists filename = false ∧ UtilsFiles.isabs filename = false
   ∧ UtilsFiles.startswith filename (list_ascii_of_string "data/") = false
   ∧ path_exists (list_ascii_of_string "data/raw/" ++ filename) = true →
   UtilsFiles.find_file_in_raw path_exists filename
   = list_ascii_of_string "data/raw/" ++ filename)
  ∧ (path_exists filename = true ∨ UtilsFiles.isabs filename = true
     ∨ UtilsFiles.startswith filename (list_ascii_of_string "data/") = true
     ∨ path_exists (list_ascii_of_string "data/raw/" ++ filename) = false →
     UtilsFiles.find_file_in_raw path_exists filename = filename)
  ∧ (UtilsFiles.find_file_in_raw path_exists filename ≠ filename →
     path_exists (UtilsFiles.find_file_in_raw path_exists filename) = true)
  ∧ UtilsFiles.find_file_in_raw path_exists
      (UtilsFiles.find_file_in_raw path_exists filename)
    = UtilsFiles.find_file_in_raw path_exists filename.
Proof.
  assert (UtilsFiles.find_file_in_raw path_exists filename = filename
          ∧ (path_exists filename = true
             ∨ UtilsFiles.isabs filename = true
             ∨ UtilsFiles.startswith filename (list_ascii_of_string "data/") = true
             ∨ path_exists (list_ascii_of_string "data/raw/" ++ filename) = false)
          ∨ UtilsFiles.find_file_in_raw path_exists filename
            = list_ascii_of_string "data/raw/" ++ filename
            ∧ path_exists filename = false ∧ UtilsFiles.isabs filename = false
            ∧ UtilsFiles.startswith filename (list_ascii_of_string "data/") = false
            ∧ path_exists (list_ascii_of_string "data/raw/" ++ filename) = true)
    as [[E Hc]|(E & He & Ha & Hd & Hr)].
  { unfold UtilsFiles.find_file_in_raw.
    destruct (path_exists filename); [by left; split; [|left]|].
    destruct (UtilsFiles.isabs filename); cbn [negb andb];
      [left; split; [done|]; auto|].
    destruct (UtilsFiles.startswith filename (list_ascii_of_string "data/"));
      cbn [negb andb]; [left; split; [done|]; auto|].
    destruct (path_exists (list_ascii_of_string "data/raw/" ++ filename)); [by right|].
    left. split; [done|]. auto. }
  - rewrite !E. split; [|split; [done|split; [done|done]]].
    intros (He & Ha & Hd & Hr).
    destruct Hc as [?|[?|[?|?]]]; congruence.
  - rewrite !E. split; [done|]. split; [|split; [done|]].
    + intros [?|[?|[?|?]]]; congruence.
    + unfold UtilsFiles.find_file_in_raw. by rewrite Hr.
Qed.

(** ** [display], and [solve_grid] *)

Lemma div_pred_step (b j : nat) :
  (b ≠ 0)%nat →
  (0 < j → j mod b = 0 → j / b = (j - 1) / b + 1)%nat
  ∧ (0 < j → j mod b ≠ 0 → j / b = (j - 1) / b)%nat.
Proof.
  intros Hb. pose proof (Nat.div_mod_eq j b) as E.
  pose proof (Nat.mod_upper_bound j b Hb) as Hr. split.
  - intros Hj H0. rewrite H0, Nat.add_0_r in E.
    destruct (j / b)%nat as [|q] eqn:Hq; [lia|].
    rewrite (Nat.div_unique (j - 1) b q (b - 1)); lia.
  - intros Hj H0. apply (Nat.div_unique (j - 1) b (j / b) (j mod b - 1)); lia.
Qed.

Lemma div_pred_square (b : nat) : (b ≠ 0)%nat → ((b * b - 1) / b = b - 1)%nat.
Proof.
  intros Hb. symmetry. apply (Nat.div_unique _ _ _ (b - 1)); [lia|].
  destruct b as [|b']; [done|]. lia.
Qed.

Lemma display_cases (self : Sudoku) :
  well_formed self →
  match UtilsFiles.display self with
  | Done printed =>
      Forall (Forall (fun v => 0 ≤ v ≤ 35)) (grid self)
      ∧ length printed = (size self + (size self - 1) / box_size self + 3)%nat
      ∧ Forall (fun line =>
                  length line
                  = (size self * (if decide (9 < size self)%nat then 3 else 2)
                     + box_size self + 1)%nat)
               (tail printed)
  | Raised e => e = ValueError ∧ ¬ Forall (Forall (fun v => 0 ≤ v ≤ 35)) (grid self)
  | OutOfFuel => False
  end.
Proof.
  intros (Hb & Hlen & Hrows). destruct self as [g n b]. cbn [grid size box_size] in *.
  unfold UtilsFiles.display. cbn [grid size box_size].
  set (cw := if decide (9 < n)%nat then 3%nat else 2%nat).
  set (W := (n * cw + b + 1)%nat).
  set (header := "010"%char :: _).
  set (sep := replicate W "-"%char).
  set (ok := fun v : Z => 0 ≤ v ≤ 35).
  assert (length sep = W) as Hsep by apply length_replicate.
  match goal with
  | |- context [for_each (seq 0 n) ?body ?s0] =>
      assert (match for_each (seq 0 n) body s0 with
              | Done printed =>
                  length printed = (2 + length (seq 0 n) + (length (seq 0 n) - 1) / b)%nat
                  ∧ Forall (fun l => length l = W) (tail printed)
                  ∧ Forall (Forall ok) (take (length (seq 0 n)) g)
              | Raised e => e = ValueError ∧ ¬ Forall (Forall ok) g
              | OutOfFuel => False
              end) as H;
      [apply (for_each_inv
         (fun i printed => length printed = (2 + i + (i - 1) / b)%nat
                           ∧ Forall (fun l => length l = W) (tail printed)
                           ∧ Forall (Forall ok) (take i g))
         (fun e => e = ValueError ∧ ¬ Forall (Forall ok) g))
      |destruct (for_each (seq 0 n) body s0) as [printed| |]]
  end.
  - split; [simpl; by rewrite Nat.Div0.div_0_l|]. split; [|done]. simpl.
    by repeat constructor.
  - intros k x printed Hx (Hl & Htail & Hok). apply lookup_seq in Hx as [-> Hk].
    cbv beta. assert (b ≠ 0)%nat as Hb0 by lia.
    destruct (div_pred_step b k Hb0) as [Hd1 Hd0].
    assert (∃ p1, (if decide (0 < 0 + k)%nat
                   then r ← modulo (0 + k) b;
                        Done (if decide (r = 0)%nat then printed ++ [sep] else printed)
                   else Done printed) = Done p1
                  ∧ length p1 = (2 + S k + k / b - 1)%nat
                  ∧ Forall (fun l => length l = W) (tail p1)) as (p1 & -> & Hl1 & Htail1).
    { simpl. case_decide as Hk0.
      - unfold modulo. rewrite decide_False by done. simpl. case_decide as Hm.
        + exists (printed ++ [sep]). split; [done|]. rewrite length_app. simpl.
          split; [rewrite Hl, (Hd1 Hk0 Hm); lia|].
          destruct printed as [|h t]; [simpl in Hl; lia|]. simpl in *.
          apply Forall_app. split; [done|]. by constructor.
        + exists printed. split; [done|]. split; [|done].
          rewrite Hl, (Hd0 Hk0 Hm). lia.
      - exists printed. split; [done|]. split; [|done].
        assert (k = 0)%nat as -> by lia. change (0 - 1)%nat with 0%nat in Hl.
        rewrite Nat.Div0.div_0_l in Hl |- *. lia. }
    simpl.
    destruct (g !! k) as [row|] eqn:Hrow.
    2:{ apply lookup_ge_None in Hrow. lia. }
    assert (length row = n) as Hrl.
    { rewrite Forall_lookup in Hrows. by eapply Hrows. }
    match goal with
    | |- context [for_each (seq 0 n) ?body ?s0] =>
        assert (match for_each (seq 0 n) body s0 with
                | Done row_str =>
                    length row_str
                    = (1 + cw * length (seq 0 n) + (length (seq 0 n) - 1) / b)%nat
                    ∧ Forall ok (take (length (seq 0 n)) row)
                | Raised e => e = ValueError ∧ ¬ Forall (Forall ok) g
                | OutOfFuel => False
                end) as H;
        [apply (for_each_inv
           (fun j row_str => length row_str = (1 + cw * j + (j - 1) / b)%nat
                             ∧ Forall ok (take j row))
           (fun e => e = ValueError ∧ ¬ Forall (Forall ok) g))
        |destruct (for_each (seq 0 n) body s0) as [row_str| |]]
    end.
    + split; [|done]. change (0 - 1)%nat with 0%nat. rewrite Nat.Div0.div_0_l.
      simpl. lia.
    + intros j x row_str Hx (Hrs & Hrok). apply lookup_seq in Hx as [-> Hj].
      cbv beta. destruct (div_pred_step b j Hb0) as [He1 He0].
      assert (∃ s1, (if decide (0 < 0 + j)%nat
                     then r ← modulo (0 + j) b;
                          Done (if decide (r = 0)%nat then row_str ++ ["|"%char]
                                else row_str)
                     else Done row_str) = Done s1
                    ∧ length s1 = (1 + cw * j + j / b)%nat) as (s1 & -> & Hl2).
      { simpl. case_decide as Hj0.
        - unfold modulo. rewrite decide_False by done. simpl. case_decide as Hm.
          + exists (row_str ++ ["|"%char]). split; [done|]. rewrite length_app. simpl.
            rewrite Hrs, (He1 Hj0 Hm). lia.
          + exists row_str. split; [done|]. rewrite Hrs, (He0 Hj0 Hm). lia.
        - exists row_str. split; [done|].
          assert (j = 0)%nat as -> by lia. change (0 - 1)%nat with 0%nat in Hrs.
          rewrite Nat.Div0.div_0_l in Hrs |- *. lia. }
      simpl. unfold getitem. rewrite Hrow.
      destruct (row !! j) as [v|] eqn:Hv.
      2:{ apply lookup_ge_None in Hv. lia. }
      simpl.
      destruct (value_to_char_cases v) as [[Hvok ->]|[Hvn ->]]; simpl.
      * split.
        -- rewrite Nat.sub_0_r. unfold cw.
           destruct (decide (9 < n)%nat); rewrite length_app; simpl; lia.
        -- rewrite (take_S_r _ _ _ Hv). apply Forall_app. split; [done|].
           by constructor.
      * split; [done|]. intros Hall. rewrite Forall_lookup in Hall.
        pose proof (Hall _ _ Hrow) as Hr. rewrite Forall_lookup in Hr.
        by apply Hvn, (Hr _ _ Hv).
    + simpl. rewrite length_seq in H. destruct H as [Hrs Hrok].
      rewrite take_ge in Hrok by lia.
      split; [|split].
      * rewrite length_app, Nat.sub_0_r, Hl1. simpl. lia.
      * destruct p1 as [|h t]; [simpl in Hl1; lia|]. simpl in *.
        apply Forall_app. split; [done|]. constructor; [|done].
        rewrite length_app, Hrs. simpl. subst n. rewrite div_pred_square by done.
        unfold W. lia.
      * rewrite (take_S_r _ _ _ Hrow). apply Forall_app. split; [done|].
        by constructor.
    + by simpl.
    + by simpl.
  - simpl. rewrite length_seq in H. destruct H as (Hl & Htail & Hok).
    rewrite take_ge in Hok by lia. split; [done|]. split.
    + rewrite length_app, Hl. simpl. lia.
    + destruct printed as [|h t]; [simpl in Hl; lia|]. simpl in *.
      apply Forall_app. split; [done|]. by constructor.
  - by simpl.
  - by simpl.
Qed.



Lemma in_range_cells (self : Sudoku) :
  in_range self → (size self ≤ 35)%nat →
  Forall (Forall (fun v => 0 ≤ v ≤ 35)) (grid self).
Proof.
  intros Hrange Hsize. apply Forall_lookup. intros r row Hr.
  apply Forall_lookup. intros c v Hc.
  assert (cell (grid self) r c = Some v) as Hv by (unfold cell; by rewrite Hr).
  pose proof (Hrange r c v Hv). lia.
Qed.

Lemma solve_grid_unfold (grid0 : Sudoku) (fuel : nat) :
  well_formed grid0 →
  Main.solve_grid fuel grid0
  = match Solver.solve fuel grid0 with
    | Done (true, s) => _ ← UtilsFiles.display s; Done (Some s)
    | Done (false, _) => Done None
    | Raised e => Raised e
    | OutOfFuel => OutOfFuel
    end.
Proof.
  intros Hwf. unfold Main.solve_grid.
  rewrite (copy_well_formed _ Hwf). simpl. rewrite (init_of_well_formed _ Hwf).
  destruct (Solver.solve fuel grid0) as [[b self']| |] eqn:Hs; simpl; [|done..].
  destruct b; [|done]. apply solve_fuel_search in Hs.
  pose proof (search_keeps _ _ _ _ _ Hs) as (_ & Hsize & Hbox & _).
  by rewrite (with_grid_same_dims _ _ Hsize Hbox).
Qed.

(** X8: [solve_grid] on a grid of the data model whose filled cells are
    free of conflicts.  When the grid has no completion it returns [None].
    When it has one and its size is at most 35, it returns a solved grid
    that agrees with the filled cells.  When it has one and its size is 36
    or more, the solved grid cannot be displayed and [solve_grid] raises
    [ValueError]. *)
Theorem solve_grid_spec (grid0 : Sudoku) (fuel : nat) :
  well_formed grid0 → in_range grid0 → partial_invariant grid0 →
  (empty_count (grid grid0) < fuel)%nat →
  ((¬ ∃ sol, completion grid0 sol) → Main.solve_grid fuel grid0 = Done None)
  ∧ ((∃ sol, completion grid0 sol) → (size grid0 ≤ 35)%nat →
     ∃ s, Main.solve_grid fuel grid0 = Done (Some s)
          ∧ completion grid0 s ∧ solved s)
  ∧ ((∃ sol, completion grid0 sol) → (36 ≤ size grid0)%nat →
     Main.solve_grid fuel grid0 = Raised ValueError).
Proof.
  intros Hwf Hrange Hinv Hfuel. rewrite (solve_grid_unfold _ _ Hwf).
  destruct (solve_fuel_complete fuel grid0 Hwf Hfuel) as (b & self' & Hs & Hb).
  rewrite Hs.
  assert (b = true →
          completion grid0 self' ∧ solved self' ∧ well_formed self'
          ∧ in_range self' ∧ size self' = size grid0) as Htrue.
  { intros ->. apply solve_fuel_search in Hs.
    pose proof (search_keeps _ _ _ _ _ Hs) as (_ & Hsize & _).
    pose proof (search_well_formed _ _ _ _ _ Hs Hwf) as Hwf'.
    pose proof (search_in_range _ _ _ _ _ Hs ltac:(lia) Hrange) as Hrange'.
    split; [|split; [|done]].
    - by apply (search_completion Solver.is_valid); [apply Solver_is_valid_check|..].
    - apply full_grid_solved; [done|done| |].
      + eapply search_partial_invariant; [apply Solver_is_valid_check|done..].
      + apply find_empty_cell_None; [done|]. by eapply search_true_full. }
  split; [|split].
  - intros Hno. destruct b; [|done]. destruct Hno.
    exists self'. by apply Htrue.
  - intros Hsol Hsize. rewrite (Hb Hsol) in Htrue |- *.
    destruct (Htrue eq_refl) as (Hc & Hsolved & Hwf' & Hrange' & Hsize').
    exists self'. split; [|done].
    pose proof (display_cases self' Hwf') as Hd.
    destruct (UtilsFiles.display self') as [printed|e|]; [done| |done].
    destruct Hd as [_ []]. apply in_range_cells; [done|lia].
  - intros Hsol Hsize. rewrite (Hb Hsol) in Htrue |- *.
    destruct (Htrue eq_refl) as (Hc & Hsolved & Hwf' & Hrange' & Hsize').
    pose proof (display_cases self' Hwf') as Hd.
    destruct (UtilsFiles.display self') as [printed|e|]; [|by destruct Hd as [-> _]|done].
    destruct Hd as (Hok & _).
    destruct (solved_holds_size self' Hwf' Hsolved) as [c Hcell]; [lia|].
    unfold cell in Hcell.
    destruct (grid self' !! 0%nat) as [row|] eqn:Hrow; [|discriminate].
    simpl in Hcell. rewrite Forall_lookup in Hok. pose proof (Hok _ _ Hrow) as Hr.
    rewrite Forall_lookup in Hr. pose proof (Hr _ _ Hcell). lia.
Qed.

Lemma solve_grid_spec_witness :
  ((¬ ∃ sol, completion (Solver.init one_missing4) sol) →
     Main.solve_grid 2 (Solver.init one_missing4) = Done None)
  ∧ ((∃ sol, completion (Solver.init one_missing4) sol) →
     (size (Solver.init one_missing4) ≤ 35)%nat →
     ∃ s, Main.solve_grid 2 (Solver.init one_missing4) = Done (Some s)
          ∧ completion (Solver.init one_missing4) s ∧ solved s)
  ∧ ((∃ sol, completion (Solver.init one_missing4) sol) →
     (36 ≤ size (Solver.init one_missing4))%nat →
     Main.solve_grid 2 (Solver.init one_missing4) = Raised ValueError).
Proof.
  apply (solve_grid_spec (Solver.init one_missing4) 2).
  - apply one_missing4_well_formed.
  - apply one_missing4_in_range.
  - apply one_missing4_invariant.
  - vm_compute. lia.
Defined.

(** X22: the pipeline of main.py.  When [load_grid_from_file] returns a
    grid and [solve_grid] returns a grid for it, the grid returned has the
    filled cells of the grid loaded and no empty cell, [save_grid_to_file]
    writes it, and the lines written load as the same grid. *)
Theorem load_solve_save (file_lines : list (list ascii)) (grid0 s : Sudoku)
    (fuel : nat) :
  UtilsFiles.load_grid_from_file file_lines = Done grid0 →
  Main.solve_grid fuel grid0 = Done (Some s) →
  keeps_filled (grid grid0) (grid s) ∧ no_empty_cell (grid s)
  ∧ ∃ lines, UtilsFiles.save_grid_to_file s = Done lines
             ∧ UtilsFiles.load_grid_from_file lines = Done s.
Proof.
  intros Hload Hsolve. pose proof (load_cases file_lines) as Hc. rewrite Hload in Hc.
  destruct Hc as [Hgood ->].
  destruct (text_grid_data_model _ Hgood) as (Hwf & Hrange & _).
  assert (0 < size (text_grid (clean_lines file_lines)))%nat as Hpos.
  { destruct Hgood as (Hne & _). simpl. destruct (clean_lines file_lines); [done|].
    simpl. lia. }
  rewrite (solve_grid_unfold _ _ Hwf) in Hsolve.
  destruct (Solver.solve fuel _) as [[[] self']| |] eqn:Hs; try discriminate.
  pose proof (solve_fuel_search _ _ _ _ Hs) as Hsearch.
  pose proof (search_keeps _ _ _ _ _ Hsearch) as (Hkeeps & Hsize & _).
  pose proof (search_well_formed _ _ _ _ _ Hsearch Hwf) as Hwf'.
  pose proof (search_in_range _ _ _ _ _ Hsearch ltac:(lia) Hrange) as Hrange'.
  pose proof (display_cases self' Hwf') as Hd.
  destruct (UtilsFiles.display self') as [printed|e|]; try discriminate.
  simpl in Hsolve. injection Hsolve as <-. destruct Hd as (Hok & _).
  split; [done|]. split.
  { apply find_empty_cell_None; [done|]. by eapply search_true_full. }
  apply load_save_round_trip_aux; [done|done|lia|].
  intros r c v Hv. unfold cell in Hv.
  destruct (grid self' !! r) as [row|] eqn:Hrow; [|discriminate]. simpl in Hv.
  rewrite Forall_lookup in Hok. pose proof (Hok _ _ Hrow) as Hr.
  rewrite Forall_lookup in Hr. pose proof (Hr _ _ Hv). lia.
Qed.

Lemma load_solve_save_witness :
  keeps_filled
    (grid (text_grid (clean_lines
       (list_ascii_of_string <$> [" 12..   "; "3 4 . ."; ""; "..1 2"; " "; "..34"]%string))))
    (grid (Solver.init grid4_solved))
  ∧ no_empty_cell (grid (Solver.init grid4_solved))
  ∧ ∃ lines, UtilsFiles.save_grid_to_file (Solver.init grid4_solved) = Done lines
             ∧ UtilsFiles.load_grid_from_file lines = Done (Solver.init grid4_solved).
Proof.
  apply (load_solve_save
    (list_ascii_of_string <$> [" 12..   "; "3 4 . ."; ""; "..1 2"; " "; "..34"]%string)
    _ _ 9).
  - apply (load_cases_good _ lines4_good).
  - vm_compute. reflexivity.
Defined.

(** ** From the generator to a file and back *)

(** X23: a puzzle generated for a perfect-square size of 1 to 35 (1, 4,
    9, 16 or 25), whatever the difficulty and whatever the shuffles
    return, is displayed without error and written by
    [save_grid_to_file], as [generate_single_puzzle] does, and the lines
    written load as the puzzle. *)
Theorem create_puzzle_save_load {R : Type}
    (shuffle : ∀ A : Type, list A → R → list A * R)
    (size0 : Z) (difficulty : string) (fuel : nat) (rng : R) :
  (∀ A (l : list A) r, (shuffle A l r).1 ≡ₚ l) →
  (∃ b, b * b = size0) → 1 ≤ size0 ≤ 35 →
  (Z.to_nat (size0 * size0) < fuel)%nat →
  ∃ puzzle rng' printed lines,
    Generator.create_puzzle shuffle fuel size0 difficulty rng = Done (puzzle, rng')
    ∧ UtilsFiles.display puzzle = Done printed
    ∧ UtilsFiles.save_grid_to_file puzzle = Done lines
    ∧ UtilsFiles.load_grid_from_file lines = Done puzzle.
Proof.
  intros Hperm Hsq Hsize Hfuel. apply perfect_square_nat in Hsq as [n ->].
  assert (n * n * (n * n) < fuel)%nat as Hfuel' by lia.
  destruct (create_puzzle_completion shuffle Utils.is_valid Generator.multiplier Hperm
              Utils_is_valid_check n fuel difficulty rng Hfuel')
    as (puzzle & rng' & full & Hp & Hwf & Hrange & Hinv & Hfull & Hn).
  destruct (load_save_round_trip_aux puzzle Hwf Hrange) as (lines & Hsave & Hload).
  - lia.
  - intros r c v Hv. pose proof (Hrange r c v Hv). lia.
  - pose proof (display_cases puzzle Hwf) as Hd.
    destruct (UtilsFiles.display puzzle) as [printed|e|] eqn:Hdisplay; [| |done].
    + by exists puzzle, rng', printed, lines.
    + destruct Hd as [_ []]. apply in_range_cells; [done|lia].
Qed.

Lemma create_puzzle_save_load_witness :
  ∃ puzzle rng' printed lines,
    Generator.create_puzzle descending 17 4 "hard" () = Done (puzzle, rng')
    ∧ UtilsFiles.display puzzle = Done printed
    ∧ UtilsFiles.save_grid_to_file puzzle = Done lines
    ∧ UtilsFiles.load_grid_from_file lines = Done puzzle.
Proof.
  apply (create_puzzle_save_load descending 4 "hard" 17 ()).
  - apply descending_perm.
  - exists 2. reflexivity.
  - lia.
  - vm_compute. lia.
Defined.

(** ** The loader and the writer of sudoku_solver_v1.py *)

Lemma for_each_ext {A St} (xs : list A) (f g : A → St → outcome St) (s : St) :
  (∀ k x s, xs !! k = Some x → f x s = g x s) →
  for_each xs f s = for_each xs g s.
Proof.
  revert s. induction xs as [|x xs IH]; intros s H; simpl; [done|].
  rewrite (H 0%nat x s eq_refl). destruct (g x s) as [s1| |]; simpl; [|done..].
  apply IH. intros k y s' Hy. by apply (H (S k)).
Qed.

Lemma for_each_refine {A St} (xs : list A) (f g : A → St → outcome St) (s : St) :
  (∀ k x s, xs !! k = Some x → f x s = g x s ∨ f x s = Raised ValueError) →
  for_each xs f s = for_each xs g s ∨ for_each xs f s = Raised ValueError.
Proof.
  revert s. induction xs as [|x xs IH]; intros s H; simpl; [by left|].
  destruct (H 0%nat x s eq_refl) as [->| ->]; [|by right].
  destruct (g x s) as [s1| |]; simpl; [|by left..].
  apply IH. intros k y s' Hy. by apply (H (S k)).
Qed.

Lemma for_each_Done_Forall {A St} (P : A → Prop) (xs : list A)
    (f : A → St → outcome St) (s s' : St) :
  (∀ k x s s', xs !! k = Some x → f x s = Done s' → P x) →
  for_each xs f s = Done s' → Forall P xs.
Proof.
  revert s. induction xs as [|x xs IH]; intros s H; simpl; [done|].
  destruct (f x s) as [s1| |] eqn:Hx; simpl; [|done..]. intros Hrest.
  constructor; [by apply (H 0%nat x s s1)|].
  apply (IH s1); [|done]. intros k y t t' Hy. by apply (H (S k)).
Qed.

Lemma v1_char_body (n i j : nat) (c : ascii) (g : cells) :
  let v1 := if Ascii.eqb c "." then setitem g i j 0
            else num ← Utils.int_of_char c;
                 if bool_decide (1 ≤ num ≤ Z.of_nat n) then setitem g i j num
                 else Raised ValueError in
  let u := num ← Utils.char_to_value c;
           if bool_decide (num < 0 ∨ num > Z.of_nat n) then Raised ValueError
           else setitem g i j num in
  (v1_char c = true → v1 = u)
  ∧ (v1 = u ∨ v1 = Raised ValueError)
  ∧ (∀ g', v1 = Done g' → v1_char c = true).
Proof.
  cbv zeta. unfold v1_char, Utils.char_to_value, Utils.int_of_char, Utils.isdigit.
  destruct (Ascii.eqb c ".") eqn:Hdot; simpl.
  { rewrite bool_decide_false by lia. split; [done|]. split; [by left|done]. }
  destruct (bool_decide (48 ≤ Utils.ord c ≤ 57)) eqn:Hd; simpl.
  - apply bool_decide_eq_true in Hd.
    destruct (decide (Utils.ord c = 48)) as [H0|H0].
    + rewrite (bool_decide_false (49 ≤ _ ≤ 57)) by lia.
      rewrite (bool_decide_false (1 ≤ _ ≤ _)) by lia.
      split; [done|]. split; [by right|done].
    + rewrite (bool_decide_true (49 ≤ _ ≤ 57)) by lia.
      destruct (decide (Utils.ord c - 48 ≤ Z.of_nat n)) as [Hn|Hn].
      * rewrite bool_decide_true by lia. rewrite bool_decide_false by lia.
        split; [done|]. split; [by left|done].
      * rewrite bool_decide_false by lia. rewrite bool_decide_true by lia.
        split; [done|]. split; [by left|done].
  - apply bool_decide_eq_false in Hd. rewrite bool_decide_false by lia.
    split; [done|]. split; [by right|done].
Qed.

Lemma v1_load_cases (file_lines : list (list ascii)) :
  V1Files.load_grid_from_file file_lines
  = if forallb (fun line => forallb v1_char (UtilsFiles.remove_spaces line))
               (clean_lines file_lines)
    then UtilsFiles.load_grid_from_file file_lines
    else Raised ValueError.
Proof.
  unfold V1Files.load_grid_from_file, UtilsFiles.load_grid_from_file.
  fold (clean_lines file_lines). set (lines := clean_lines file_lines).
  destruct (UtilsFiles.nonempty lines) eqn:Hne; simpl.
  2:{ by destruct (forallb _ _). }
  case_decide as Hsq.
  { by destruct (forallb _ _). }
  assert ((Nat.sqrt (length lines) * Nat.sqrt (length lines))%nat = length lines) as Hs
    by lia.
  pose proof (init_square (Nat.sqrt (length lines))) as Hinit.
  rewrite Hs in Hinit. rewrite Hinit. clear Hinit. simpl.
  match goal with
  | |- mbind _ (for_each _ ?bv ?g) = (if _ then mbind _ (for_each _ ?bu _) else _) =>
      set (body_v := bv); set (body_u := bu); set (g0 := g)
  end.
  assert (for_each (enumerate lines) body_v g0
          = if forallb (fun line => forallb v1_char (UtilsFiles.remove_spaces line)) lines
            then for_each (enumerate lines) body_u g0 else Raised ValueError) as ->;
    [|by destruct (forallb _ _)].
  assert (∀ (xs : list ascii) k x, enumerate xs !! k = Some x → xs !! k = Some x.2)
    as Hsnd.
  { intros xs k [j c]. rewrite lookup_enumerate.
    destruct (xs !! k); [|discriminate]. by intros [= _ ->]. }
  assert (∀ (xs : list (list ascii)) k x, enumerate xs !! k = Some x → xs !! k = Some x.2)
    as Hsnd'.
  { intros xs k [j c]. rewrite lookup_enumerate.
    destruct (xs !! k); [|discriminate]. by intros [= _ ->]. }
  destruct (forallb _ lines) eqn:Hall.
  - rewrite forallb_forall in Hall. apply for_each_ext. intros k [i line] g Hk.
    apply Hsnd' in Hk. simpl in Hk. unfold body_v, body_u. case_decide; [done|].
    pose proof (Hall line ltac:(by eapply list_elem_of_In, list_elem_of_lookup_2)) as Hline.
    rewrite forallb_forall in Hline.
    apply for_each_ext. intros k' [j c] g1 Hk'. apply Hsnd in Hk'. simpl in Hk'.
    apply (v1_char_body (length lines) i j c g1).
    apply Hline. by eapply list_elem_of_In, list_elem_of_lookup_2.
  - destruct (for_each_refine (enumerate lines) body_v body_u g0) as [E|E]; [|clear Hsnd Hsnd'|done].
    { intros k [i line] g Hk. unfold body_v, body_u. case_decide; [by left|].
      apply for_each_refine. intros k' [j c] g1 Hk'.
      apply (v1_char_body (length lines) i j c g1). }
    pose proof (load_rows (length lines) lines g0 body_u
      (fun i '(j, char) g =>
         num ← Utils.char_to_value char;
         if bool_decide (num < 0 ∨ num > Z.of_nat (length lines))
         then Raised ValueError else setitem g i j num)) as H.
    rewrite E. destruct (for_each (enumerate lines) body_u g0) as [g'|e|].
    + exfalso. apply (for_each_Done_Forall
        (fun x => forallb v1_char (UtilsFiles.remove_spaces x.2) = true)) in E.
      * apply not_true_iff_false in Hall. apply Hall, forallb_forall.
        intros line Hin. apply list_elem_of_In, list_elem_of_lookup_1 in Hin as [k Hk].
        rewrite Forall_lookup in E.
        apply (E k (k, line)). rewrite lookup_enumerate, Hk. done.
      * intros k [i line] g g1 _. unfold body_v. case_decide; [done|]. intros Hin.
        apply (for_each_Done_Forall (fun x => v1_char x.2 = true)) in Hin.
        -- simpl. apply forallb_forall. intros c Hc.
           apply list_elem_of_In, list_elem_of_lookup_1 in Hc as [k' Hk'].
           rewrite Forall_lookup in Hin.
           apply (Hin k' (k', c)). rewrite lookup_enumerate, Hk'. done.
        -- intros k' [j c] g2 g3 _. apply (v1_char_body (length lines) i j c g2).
    + destruct H as [-> _]; [done|done|by unfold g0; rewrite length_replicate| |done].
      apply Forall_replicate. by rewrite length_replicate.
    + destruct H; [done|done|by unfold g0; rewrite length_replicate|].
      apply Forall_replicate. by rewrite length_replicate.
Qed.

(** X24: on a text of characters with code points below 256, the
    loader of sudoku_solver_v1.py is the loader of utils.py restricted to
    the characters ['.'] and ['1'] to ['9']: when the lines, stripped and
    without their spaces, hold only these characters, both return the same
    grid or both raise; on any other text of such characters it raises
    [ValueError], also where utils.py reads ['0'] as an empty cell or a
    letter as a value of 10 or more.  On these texts it raises nothing but
    [ValueError]. *)
Theorem v1_load_grid_from_file_spec (file_lines : list (list ascii)) :
  V1Files.load_grid_from_file file_lines
  = (if forallb (fun line => forallb v1_char (UtilsFiles.remove_spaces line))
                (clean_lines file_lines)
     then UtilsFiles.load_grid_from_file file_lines
     else Raised ValueError)
  ∧ (∀ sg, V1Files.load_grid_from_file file_lines = Done sg →
           UtilsFiles.load_grid_from_file file_lines = Done sg)
  ∧ (∀ e, V1Files.load_grid_from_file file_lines = Raised e → e = ValueError)
  ∧ V1Files.load_grid_from_file file_lines ≠ OutOfFuel.
Proof.
  pose proof (v1_load_cases file_lines) as H. split; [done|].
  pose proof (load_cases file_lines) as Hu.
  destruct (forallb _ _); rewrite H.
  - split; [done|]. destruct (UtilsFiles.load_grid_from_file file_lines); [done| |done].
    split; [|done]. intros e' [= <-]. by destruct Hu.
  - split; [done|]. split; [|done]. by intros e [= <-].
Qed.

Lemma clean_lines_written (texts : list (list ascii)) :
  Forall (fun t => t ≠ [] ∧ Forall (fun c => UtilsFiles.isspace c = false) t) texts →
  clean_lines ((fun t => t ++ ["010"%char]) <$> texts) = texts.
Proof.
  unfold clean_lines. induction 1 as [|t texts [Hne Ht] _ IH]; [done|].
  rewrite !fmap_cons. rewrite strip_written_line by done.
  cbn [List.filter]. rewrite IH. by destruct t.
Qed.

Lemma isspace_not_space (c : ascii) :
  UtilsFiles.isspace c = false → Ascii.eqb c " " = false.
Proof.
  intros H. destruct (Ascii.eqb c " ") eqn:E; [|done].
  apply Ascii.eqb_eq in E. subst c. discriminate.
Qed.

Lemma decimal_chars (fuel n : nat) :
  Forall (fun c => UtilsFiles.isspace c = false) (decimal fuel n).
Proof.
  revert n. induction fuel as [|fuel IH]; intros n; cbn [decimal]; [constructor|].
  apply Forall_app. split; [case_decide; [constructor|apply IH]|].
  constructor; [|constructor].
  pose proof (Nat.mod_upper_bound n 10 ltac:(lia)) as Hd.
  destruct (n mod 10)%nat as [|d]; [by vm_compute|].
  do 9 (destruct d as [|d]; [by vm_compute|]). lia.
Qed.

Lemma decimal_length (n : nat) :
  (1 ≤ length (decimal (S n) n))%nat
  ∧ (10 ≤ n → 2 ≤ length (decimal (S n) n))%nat.
Proof.
  split.
  - simpl. rewrite length_app. simpl. lia.
  - intros Hn. destruct n as [|n']; [lia|].
    change (decimal (S (S n')) (S n'))
      with ((if decide (S n' < 10)%nat then [] else decimal (S n') (S n' / 10))
            ++ [ascii_of_nat (48 + S n' mod 10)]).
    rewrite decide_False by lia. rewrite length_app.
    change (decimal (S n') (S n' / 10))
      with ((if decide (S n' / 10 < 10)%nat then [] else decimal n' (S n' / 10 / 10))
            ++ [ascii_of_nat (48 + (S n' / 10) mod 10)]).
    rewrite length_app. simpl. lia.
Qed.

Lemma v1_cell_text_small (v : Z) : 0 ≤ v ≤ 9 → v1_cell_text v = [encode v].
Proof.
  intros Hv.
  apply (small_value_cases (fun v => v1_cell_text v = [encode v]) 10); [|lia].
  intros k Hk. do 10 (destruct k as [|k]; [by vm_compute|]). lia.
Qed.

Lemma v1_cell_text_chars (v : Z) :
  0 ≤ v →
  Forall (fun c => UtilsFiles.isspace c = false) (v1_cell_text v)
  ∧ (1 ≤ length (v1_cell_text v))%nat
  ∧ (10 ≤ v → (2 ≤ length (v1_cell_text v))%nat).
Proof.
  intros Hv. unfold v1_cell_text. case_decide as H0.
  { split; [by repeat constructor|]. split; [simpl; lia|lia]. }
  unfold str. rewrite decide_False by lia.
  split; [apply decimal_chars|].
  destruct (decimal_length (Z.to_nat v)) as [H1 H2]. split; [done|].
  intros H10. apply H2. lia.
Qed.

Lemma v1_save_lines (grid0 : Sudoku) :
  V1Files.save_grid_to_file grid0
  = (fun t => t ++ ["010"%char])
    <$> ((fun row : list Z => mjoin (v1_cell_text <$> row)) <$> grid grid0).
Proof.
  unfold V1Files.save_grid_to_file. rewrite <- list_fmap_compose.
  apply list_fmap_ext. intros _ row _. simpl. f_equal.
  assert (∀ acc,
    fold_left (fun line cell =>
                 if decide (cell = 0) then line ++ ["."%char] else line ++ str cell)
              row acc
    = acc ++ mjoin (v1_cell_text <$> row)) as H; [|apply (H [])].
  induction row as [|v row IH]; intros acc; simpl; [by rewrite app_nil_r|].
  rewrite IH. unfold v1_cell_text. case_decide; by rewrite <- app_assoc.
Qed.

Lemma v1_row_text_small (row : list Z) :
  Forall (fun v => 0 ≤ v ≤ 9) row → mjoin (v1_cell_text <$> row) = encode <$> row.
Proof.
  induction 1 as [|v row Hv _ IH]; [done|]. csimpl.
  by rewrite IH, v1_cell_text_small.
Qed.

Lemma v1_row_text_chars (row : list Z) :
  Forall (fun v => 0 ≤ v) row →
  Forall (fun c => UtilsFiles.isspace c = false) (mjoin (v1_cell_text <$> row))
  ∧ (length row ≤ length (mjoin (v1_cell_text <$> row)))%nat
  ∧ (Exists (fun v => 10 ≤ v) row →
     (length row < length (mjoin (v1_cell_text <$> row)))%nat).
Proof.
  induction 1 as [|v row Hv _ (IH1 & IH2 & IH3)]; csimpl.
  { split; [constructor|]. split; [done|]. by inversion 1. }
  destruct (v1_cell_text_chars v Hv) as (Hc & H1 & H2).
  split; [by apply Forall_app|]. rewrite length_app. split; [lia|].
  intros Hex. apply Exists_cons in Hex as [H10|Hex].
  - specialize (H2 H10). lia.
  - specialize (IH3 Hex). lia.
Qed.

Lemma data_model_rows (grid0 : Sudoku) :
  well_formed grid0 → in_range grid0 →
  Forall (fun row => length row = size grid0
                     ∧ Forall (fun v => 0 ≤ v ≤ Z.of_nat (size grid0)) row)
         (grid grid0).
Proof.
  intros (_ & _ & Hrows) Hrange. rewrite Forall_lookup in Hrows.
  apply Forall_lookup. intros r row Hr. split; [by eapply Hrows|].
  apply Forall_lookup. intros c v Hc. apply (Hrange r c v).
  unfold cell. by rewrite Hr.
Qed.

Lemma v1_char_encode (v : Z) : 0 ≤ v ≤ 9 → v1_char (encode v) = true.
Proof.
  intros Hv. apply (small_value_cases (fun v => v1_char (encode v) = true) 10); [|lia].
  intros k Hk. do 10 (destruct k as [|k]; [by vm_compute|]). lia.
Qed.

Lemma v1_save_small (grid0 : Sudoku) :
  Forall (Forall (fun v => 0 ≤ v ≤ 9)) (grid grid0) →
  V1Files.save_grid_to_file grid0 = grid_text (grid grid0).
Proof.
  intros Hsmall. rewrite v1_save_lines. unfold grid_text.
  rewrite <- list_fmap_compose. apply Forall_fmap_ext_1.
  eapply List.Forall_impl; [|exact Hsmall]. intros row Hrow. simpl.
  by rewrite v1_row_text_small.
Qed.

Lemma v1_save_rejected (grid0 : Sudoku) (r c : nat) (v : Z) :
  well_formed grid0 → in_range grid0 → (0 < size grid0)%nat →
  cell (grid grid0) r c = Some v → 10 ≤ v →
  ¬ good_text (clean_lines (V1Files.save_grid_to_file grid0)).
Proof.
  intros Hwf Hrange Hpos Hv H10. pose proof (data_model_rows _ Hwf Hrange) as Hcells.
  destruct Hwf as (_ & Hlen & _). rewrite v1_save_lines.
  assert (Forall (fun row => Forall (fun c => UtilsFiles.isspace c = false)
                               (mjoin (v1_cell_text <$> row))
                             ∧ (size grid0 ≤ length (mjoin (v1_cell_text <$> row)))%nat
                             ∧ (Exists (fun v => 10 ≤ v) row →
                                (size grid0 < length (mjoin (v1_cell_text <$> row)))%nat))
                 (grid grid0)) as Htexts.
  { eapply List.Forall_impl; [|exact Hcells]. intros row [Hl Hrow]. simpl.
    destruct (v1_row_text_chars row) as (H1 & H2 & H3).
    - eapply List.Forall_impl; [|exact Hrow]. simpl. lia.
    - rewrite Hl in H2, H3. done. }
  rewrite clean_lines_written.
  2:{ apply Forall_fmap. eapply List.Forall_impl; [|exact Htexts].
      intros row (Hsp & Hge & _). simpl. split; [|done].
      intros Hnil. rewrite Hnil in Hge. simpl in Hge. lia. }
  intros (_ & _ & Hlines). rewrite length_fmap, Hlen in Hlines.
  unfold cell in Hv. destruct (grid grid0 !! r) as [row|] eqn:Hrow; [|discriminate].
  simpl in Hv. rewrite Forall_lookup in Hlines. rewrite Forall_lookup in Htexts.
  destruct (Htexts _ _ Hrow) as (Hsp & _ & Hlong).
  destruct (Hlines r (mjoin (v1_cell_text <$> row))) as [Hgl _].
  { by rewrite list_lookup_fmap, Hrow. }
  rewrite remove_spaces_id in Hgl.
  2:{ eapply List.Forall_impl; [|exact Hsp]. apply isspace_not_space. }
  assert (Exists (fun v => 10 ≤ v) row) as Hex.
  { apply Exists_exists. exists v. split; [|done].
    by eapply list_elem_of_In, list_elem_of_lookup_2. }
  specialize (Hlong Hex). lia.
Qed.

Lemma v1_large_value_rejected (grid0 : Sudoku) (r c : nat) (v : Z) :
  well_formed grid0 → in_range grid0 → (0 < size grid0)%nat →
  cell (grid grid0) r c = Some v → 10 ≤ v →
  V1Files.load_grid_from_file (V1Files.save_grid_to_file grid0) = Raised ValueError
  ∧ UtilsFiles.load_grid_from_file (V1Files.save_grid_to_file grid0)
    = Raised ValueError.
Proof.
  intros Hwf Hrange Hpos Hv H10.
  pose proof (v1_save_rejected grid0 r c v Hwf Hrange Hpos Hv H10) as Hbad.
  pose proof (load_cases (V1Files.save_grid_to_file grid0)) as Hu.
  rewrite v1_load_cases.
  destruct (UtilsFiles.load_grid_from_file (V1Files.save_grid_to_file grid0))
    as [sg|e|]; [by destruct Hu| |done].
  destruct Hu as [-> _]. split; [|done]. by destruct (forallb _ _).
Qed.

(** X25: writing a grid of the data model with sudoku_solver_v1.py and
    loading it again.  When no cell is above 9 the lines written are those
    utils.py writes, and they load as the grid.  When a cell holds 10 or
    more it is written with two characters or more, its line is longer
    than the grid is wide, and loading the lines raises [ValueError], with
    the loader of sudoku_solver_v1.py as with the loader of utils.py. *)
Theorem v1_save_load (grid0 : Sudoku) :
  well_formed grid0 → in_range grid0 → (0 < size grid0)%nat →
  ((∀ r c v, cell (grid grid0) r c = Some v → v ≤ 9) →
     V1Files.save_grid_to_file grid0 = grid_text (grid grid0)
     ∧ V1Files.load_grid_from_file (V1Files.save_grid_to_file grid0) = Done grid0)
  ∧ (∀ r c v, cell (grid grid0) r c = Some v → 10 ≤ v →
     V1Files.load_grid_from_file (V1Files.save_grid_to_file grid0) = Raised ValueError
     ∧ UtilsFiles.load_grid_from_file (V1Files.save_grid_to_file grid0)
       = Raised ValueError).
Proof.
  intros Hwf Hrange Hpos. pose proof (data_model_rows _ Hwf Hrange) as Hcells. split.
  - intros H9.
    assert (Forall (fun row => row ≠ [] ∧ Forall (fun v => 0 ≤ v ≤ 9) row) (grid grid0))
      as Hsmall.
    { apply Forall_lookup. intros r row Hr. rewrite Forall_lookup in Hcells.
      destruct (Hcells _ _ Hr) as [Hl Hrow].
      split; [intros ->; simpl in Hl; lia|].
      apply Forall_lookup. intros c v Hc. rewrite Forall_lookup in Hrow.
      pose proof (Hrow _ _ Hc).
      assert (cell (grid grid0) r c = Some v) as Hv by (unfold cell; by rewrite Hr).
      pose proof (H9 r c v Hv). lia. }
    rewrite v1_save_small.
    2:{ eapply List.Forall_impl; [|exact Hsmall]. by intros row [_ ?]. }
    split; [done|]. rewrite v1_load_cases.
    assert (forallb (fun line => forallb v1_char (UtilsFiles.remove_spaces line))
                    (clean_lines (grid_text (grid grid0))) = true) as ->.
    { rewrite clean_written_lines.
      2:{ eapply List.Forall_impl; [|exact Hsmall]. intros row [Hne Hrow].
          split; [done|]. eapply List.Forall_impl; [|exact Hrow]. simpl. lia. }
      apply forallb_forall. intros line Hin.
      apply list_elem_of_In, list_elem_of_fmap in Hin as (row & -> & Hin).
      rewrite Forall_forall in Hsmall.
      destruct (Hsmall row ltac:(by apply list_elem_of_In)) as [_ Hrow].
      rewrite remove_spaces_id.
      2:{ apply Forall_fmap. eapply List.Forall_impl; [|exact Hrow].
          intros v Hv. simpl in *. apply encode_char. lia. }
      apply forallb_forall. intros ch Hch.
      apply list_elem_of_In, list_elem_of_fmap in Hch as (v & -> & Hv).
      rewrite Forall_forall in Hrow. apply v1_char_encode, Hrow.
      by apply list_elem_of_In. }
    destruct (load_save_round_trip_aux grid0 Hwf Hrange Hpos) as (lines & Hs & Hl).
    { intros r c v Hv. pose proof (H9 r c v Hv). lia. }
    destruct (save_cases grid0) as [[_ E]|[_ E]]; congruence.
  - intros r c v Hv H10. by apply (v1_large_value_rejected grid0 r c v).
Qed.

Lemma pattern_grid_data_model (b : nat) :
  well_formed (pattern_grid b) ∧ in_range (pattern_grid b).
Proof.
  split.
  - split; [done|]. split; simpl; [by rewrite length_fmap, length_seq|].
    apply Forall_fmap, Forall_forall. intros r _. simpl.
    by rewrite length_fmap, length_seq.
  - intros r c v. rewrite pattern_cell. case_decide as H; [|done]. intros [= <-].
    destruct H as [Hr _]. pose proof (pattern_range b r c Hr). simpl. lia.
Qed.

Lemma v1_save_load_witness :
  V1Files.load_grid_from_file (V1Files.save_grid_to_file (pattern_grid 4))
  = Raised ValueError
  ∧ UtilsFiles.load_grid_from_file (V1Files.save_grid_to_file (pattern_grid 4))
    = Raised ValueError.
Proof.
  apply (proj2 (v1_save_load (pattern_grid 4)
                  (proj1 (pattern_grid_data_model 4)) (proj2 (pattern_grid_data_model 4))
                  ltac:(vm_compute; lia)) 0%nat 9%nat 10).
  - reflexivity.
  - lia.
Defined.

(** ** The test grids of generate_test_grids.py *)







